(** * Codetest-AI: the code execution core

    A shallow embedding of [backend/app/services/sandbox.py],
    [backend/app/routers/execution.py] and the schemas they use, with the
    properties of the execution core stated and proved against it, followed
    by [backend/app/services/complexity_analyzer.py] and
    [backend/app/services/scorer.py], each in a module of its own.

    Conventions of the embedding.
    - A Python [str] is the list of its code points ([list N]); [lit] turns
      a Rocq string literal into one.  [bytes] is a list of [Byte.byte].
    - Python [int] is [Z]; Python [float] values that the service computes
      with (durations, memory figures) are exact rationals [Q]: the
      arithmetic of the summary is the exact one, without binary rounding.
      The scorer, whose results depend on the rounding, computes with
      binary64 numbers.
    - The operating system, the child processes and the Docker daemon are
      an explicit [World] of oracles; the disk and a call counter are the
      state threaded through the code.
    - The host is a POSIX one ([sys.platform <> "win32"]), so [PYTHON_CMD]
      is [python3] and temporary paths need no translation for Docker. *)

From Stdlib Require Import ZArith NArith QArith Qround Qabs Lia List Bool.
From Stdlib Require Import Strings.String Strings.Ascii Strings.Byte.
From Stdlib Require Import DecimalString Qpower Qreduction Lqa.
From stdpp Require Import base option list gmap.

Open Scope Z_scope.

(** ** Text *)

Abbreviation str := (list N).
Abbreviation bytes := (list byte).

Definition lit (s : string) : str :=
  List.map N_of_ascii (list_ascii_of_string s).

Definition str_eqb (a b : str) : bool := bool_decide (a = b).

(** [str.isspace] for one code point: the characters [str.strip()] removes
    when it is called without argument. *)
Definition isspace (c : N) : bool :=
  ((9 <=? c) && (c <=? 13) || (28 <=? c) && (c <=? 32)
   || (c =? 133) || (c =? 160) || (c =? 5760)
   || (8192 <=? c) && (c <=? 8202)
   || (c =? 8232) || (c =? 8233) || (c =? 8239) || (c =? 8287)
   || (c =? 12288))%N.

Fixpoint lstrip (s : str) : str :=
  match s with
  | c :: r => if isspace c then lstrip r else s
  | [] => []
  end.

Definition rstrip (s : str) : str := rev (lstrip (rev s)).

(** [s.strip()] *)
Definition strip (s : str) : str := rstrip (lstrip s).

Fixpoint startswith (p s : str) : bool :=
  match p, s with
  | [], _ => true
  | a :: p', b :: s' => (a =? b)%N && startswith p' s'
  | _ :: _, [] => false
  end.

(** [sub in s] *)
Fixpoint contains (sub s : str) : bool :=
  startswith sub s ||
  match s with
  | [] => false
  | _ :: r => contains sub r
  end.

(** [template.format(file=path)] for a template whose only replacement
    field is [{file}] (the templates of [LANGUAGE_CONFIG]). *)
Fixpoint format_file (fuel : nat) (template path : str) : str :=
  match fuel with
  | O => template
  | S f =>
      if startswith (lit "{file}") template
      then path ++ format_file f (drop 6 template) path
      else match template with
           | [] => []
           | c :: r => c :: format_file f r path
           end
  end.

Definition format (template path : str) : str :=
  format_file (S (length template)) template path.

(** *** [bytes.decode()] : strict UTF-8 *)

Definition is_cont (b : N) : bool := ((128 <=? b) && (b <=? 191))%N.

Fixpoint utf8_decode_aux (fuel : nat) (bs : list N) : option str :=
  match fuel with
  | O => None
  | S f =>
      match bs with
      | [] => Some []
      | b0 :: r =>
          if (b0 <? 128)%N then cons b0 <$> utf8_decode_aux f r
          else if ((194 <=? b0) && (b0 <=? 223))%N then
            match r with
            | b1 :: r' =>
                if is_cont b1
                then cons ((b0 - 192) * 64 + (b1 - 128))%N <$> utf8_decode_aux f r'
                else None
            | _ => None
            end
          else if ((224 <=? b0) && (b0 <=? 239))%N then
            match r with
            | b1 :: b2 :: r' =>
                let cp := ((b0 - 224) * 4096 + (b1 - 128) * 64 + (b2 - 128))%N in
                if is_cont b1 && is_cont b2 && (2048 <=? cp)%N
                   && negb ((55296 <=? cp) && (cp <=? 57343))%N
                then cons cp <$> utf8_decode_aux f r'
                else None
            | _ => None
            end
          else if ((240 <=? b0) && (b0 <=? 244))%N then
            match r with
            | b1 :: b2 :: b3 :: r' =>
                let cp := ((b0 - 240) * 262144 + (b1 - 128) * 4096
                           + (b2 - 128) * 64 + (b3 - 128))%N in
                if is_cont b1 && is_cont b2 && is_cont b3
                   && (65536 <=? cp)%N && (cp <=? 1114111)%N
                then cons cp <$> utf8_decode_aux f r'
                else None
            | _ => None
            end
          else None
      end
  end.

(** [b.decode()] / [b.decode("utf-8")]: [None] stands for the
    [UnicodeDecodeError] raised on a malformed sequence. *)
Definition decode (b : bytes) : option str :=
  utf8_decode_aux (S (length b)) (List.map Byte.to_N b).

(** ** Numbers *)

(** Python's [round] and the conversion of a decimal literal both round
    half to even. *)
Definition round_half_even (q : Q) : Z :=
  let f := Qfloor q in
  match Qcompare (q - inject_Z f)%Q (1 # 2)%Q with
  | Lt => f
  | Gt => f + 1
  | Eq => if Z.even f then f else f + 1
  end.

(** [round(x, 2)] *)
Definition round2 (x : Q) : Q := (inject_Z (round_half_even (x * 100)) / 100)%Q.

(** The values of a Python [float]: the finite ones are rationals. *)
Inductive pyfloat :=
| FFin (q : Q)
| FInf (negative : bool)
| FNaN.

Definition Qpow2 (e : Z) : Q := Qpower 2%Q e.

(** The binary64 number nearest to [q]: what [float(text)] returns for
    the decimal literal of value [q]. *)
Definition b64_round (q : Q) : pyfloat :=
  if Qeq_bool q 0%Q then FFin 0%Q else
  let a := Qabs q in
  let e0 := Z.log2 (Qnum a) - Z.log2 (Zpos (Qden a)) in
  let e := if Qle_bool (Qpow2 e0) a then e0 else e0 - 1 in
  let u := Z.max (e - 52) (-1074) in
  let m := round_half_even (a / Qpow2 u)%Q in
  let v := (inject_Z m * Qpow2 u)%Q in
  if Qle_bool (Qpow2 1024) v then FInf (negb (Qle_bool 0%Q q))
  else FFin (Qred (if Qle_bool 0%Q q then v else (- v)%Q)).

(** ** [json.loads] and [==] on what it returns

    The standard library's decoder, as the C scanner of CPython runs it
    with the default hooks (strict strings, [NaN], [Infinity] and
    [-Infinity] accepted).  The limits of the interpreter (recursion
    depth, the digit limit of [int]) are not part of the model. *)

#[local] Unset Elimination Schemes.
Inductive PyVal :=
| PyNone
| PyBool (b : bool)
| PyInt (z : Z)
| PyFloat (f : pyfloat)
| PyStr (s : str)
| PyList (l : list PyVal)
| PyDict (d : list (str * PyVal)).
#[local] Set Elimination Schemes.

(** [d[k] = v] on a dict kept in insertion order. *)
Fixpoint dict_set (d : list (str * PyVal)) (k : str) (v : PyVal) : list (str * PyVal) :=
  match d with
  | [] => [(k, v)]
  | (k', v') :: d' => if str_eqb k' k then (k', v) :: d' else (k', v') :: dict_set d' k v
  end.

Fixpoint dict_get (d : list (str * PyVal)) (k : str) : option PyVal :=
  match d with
  | [] => None
  | (k', v') :: d' => if str_eqb k' k then Some v' else dict_get d' k
  end.

Definition json_ws (c : N) : bool := ((c =? 32) || (c =? 9) || (c =? 10) || (c =? 13))%N.

Fixpoint skip_ws (s : str) : str :=
  match s with
  | c :: r => if json_ws c then skip_ws r else s
  | [] => []
  end.

Definition is_digit (c : N) : bool := ((48 <=? c) && (c <=? 57))%N.

Definition hex_digit (c : N) : option N :=
  if is_digit c then Some (c - 48)%N
  else if ((97 <=? c) && (c <=? 102))%N then Some (c - 87)%N
  else if ((65 <=? c) && (c <=? 70))%N then Some (c - 55)%N
  else None.

Definition hex4 (s : str) : option (N * str) :=
  match s with
  | a :: b :: c :: d :: r =>
      a' ← hex_digit a; b' ← hex_digit b; c' ← hex_digit c; d' ← hex_digit d;
      Some (((a' * 16 + b') * 16 + c') * 16 + d', r)%N
  | _ => None
  end.

Definition is_high_surrogate (c : N) : bool := ((55296 <=? c) && (c <=? 56319))%N.
Definition is_low_surrogate (c : N) : bool := ((56320 <=? c) && (c <=? 57343))%N.

(** The rest of [s] after its first character when that one is [c]. *)
Definition expect (c : N) (s : str) : option str :=
  match s with
  | x :: r => if (x =? c)%N then Some r else None
  | [] => None
  end.

(** [\uXXXX], with a following low surrogate joined to a high one. *)
Definition scan_u_escape (r : str) : option (N * str) :=
  '(c, r1) ← hex4 r;
  if is_high_surrogate c then
    match expect 92 r1 ≫= expect 117 with
    | Some r2 =>
        '(c2, r3) ← hex4 r2;
        if is_low_surrogate c2
        then Some (65536 + (c - 55296) * 1024 + (c2 - 56320), r3)%N
        else Some (c, r1)
    | None => Some (c, r1)
    end
  else Some (c, r1).

(** [scanstring] after the opening quote, in strict mode. *)
Fixpoint scanstring (fuel : nat) (s : str) (acc : str) : option (str * str) :=
  match fuel with
  | O => None
  | S f =>
      match s with
      | [] => None
      | c :: r =>
          if (c =? 34)%N then Some (rev acc, r)
          else if (c =? 92)%N then
            match r with
            | [] => None
            | e :: r' =>
                if (e =? 117)%N then
                  '(cp, r'') ← scan_u_escape r';
                  scanstring f r'' (cp :: acc)
                else
                  ch ← (if (e =? 34)%N then Some 34
                        else if (e =? 92)%N then Some 92
                        else if (e =? 47)%N then Some 47
                        else if (e =? 98)%N then Some 8
                        else if (e =? 102)%N then Some 12
                        else if (e =? 110)%N then Some 10
                        else if (e =? 114)%N then Some 13
                        else if (e =? 116)%N then Some 9
                        else None)%N;
                  scanstring f r' (ch :: acc)
            end
          else if (c <? 32)%N then None
          else scanstring f r (c :: acc)
      end
  end.

Fixpoint take_digits (s : str) : str * str :=
  match s with
  | c :: r => if is_digit c then let '(d, r') := take_digits r in (c :: d, r') else ([], s)
  | [] => ([], [])
  end.

Definition digits_value (d : str) : Z :=
  fold_left (fun acc c => acc * 10 + Z.of_N (c - 48)%N) d 0.

(** A number: an optional minus sign, then a single zero or a non-zero
    digit followed by digits, then an optional fraction (a dot and at
    least one digit) and an optional exponent ([e] or [E], an optional
    sign and at least one digit).  The result is an [int] when there is
    neither fraction nor exponent and a [float] otherwise. *)
Definition match_number (s : str) : option (PyVal * str) :=
  let '(neg, s1) := match expect 45 s with
                    | Some r => (true, r)
                    | None => (false, s)
                    end in
  '(ipart, s2) ← match s1 with
                 | c :: r =>
                     if (c =? 48)%N then Some ([c], r)
                     else if is_digit c then Some (take_digits s1)
                     else None
                 | [] => None
                 end;
  let '(frac, s3) := match expect 46 s2 with
                     | Some (d :: r) =>
                         if is_digit d
                         then let '(ds, r') := take_digits (d :: r) in (Some ds, r')
                         else (None, s2)
                     | _ => (None, s2)
                     end in
  let '(exp, s4) := match s3 with
                    | e :: r =>
                        if ((e =? 101) || (e =? 69))%N then
                          let '(eneg, r1) := match expect 45 r, expect 43 r with
                                             | Some r', _ => (true, r')
                                             | None, Some r' => (false, r')
                                             | None, None => (false, r)
                                             end in
                          match take_digits r1 with
                          | ([], _) => (None, s3)
                          | (ds, r2) =>
                              (Some (if eneg then - digits_value ds else digits_value ds), r2)
                          end
                        else (None, s3)
                    | [] => (None, s3)
                    end in
  match frac, exp with
  | None, None =>
      let z := digits_value ipart in Some (PyInt (if neg then - z else z), s4)
  | _, _ =>
      let fd := default [] frac in
      let m := inject_Z (digits_value (ipart ++ fd)) in
      let scale := default 0 exp - Z.of_nat (length fd) in
      let q := (m * Qpower 10%Q scale)%Q in
      Some (PyFloat (b64_round (if neg then (- q)%Q else q)), s4)
  end.

(** [scan_once]: one value at the start of [s] and the rest of [s];
    [parse_members] reads the members of an object after its brace,
    [parse_elements] the items of an array after its bracket. *)
Fixpoint scan_once (fuel : nat) (s : str) : option (PyVal * str) :=
  match fuel with
  | O => None
  | S f =>
      match s with
      | [] => None
      | c :: r =>
          if (c =? 34)%N then
            '(v, r') ← scanstring (S (length r)) r []; Some (PyStr v, r')
          else if (c =? 123)%N then
            match expect 125 (skip_ws r) with
            | Some r' => Some (PyDict [], r')
            | None => parse_members f (skip_ws r) []
            end
          else if (c =? 91)%N then
            match expect 93 (skip_ws r) with
            | Some r' => Some (PyList [], r')
            | None => parse_elements f (skip_ws r) []
            end
          else if startswith (lit "null") s then Some (PyNone, drop 4 s)
          else if startswith (lit "true") s then Some (PyBool true, drop 4 s)
          else if startswith (lit "false") s then Some (PyBool false, drop 5 s)
          else if startswith (lit "NaN") s then Some (PyFloat FNaN, drop 3 s)
          else if startswith (lit "Infinity") s then Some (PyFloat (FInf false), drop 8 s)
          else if startswith (lit "-Infinity") s then Some (PyFloat (FInf true), drop 9 s)
          else match_number s
      end
  end
with parse_members (fuel : nat) (s : str) (acc : list (str * PyVal)) : option (PyVal * str) :=
  match fuel with
  | O => None
  | S f =>
      r ← expect 34 s;
      '(k, r1) ← scanstring (S (length r)) r [];
      r2 ← expect 58 (skip_ws r1);
      '(v, r3) ← scan_once f (skip_ws r2);
      let acc' := dict_set acc k v in
      match expect 125 (skip_ws r3) with
      | Some r4 => Some (PyDict acc', r4)
      | None =>
          r4 ← expect 44 (skip_ws r3);
          parse_members f (skip_ws r4) acc'
      end
  end
with parse_elements (fuel : nat) (s : str) (acc : list PyVal) : option (PyVal * str) :=
  match fuel with
  | O => None
  | S f =>
      '(v, r1) ← scan_once f s;
      match expect 93 (skip_ws r1) with
      | Some r2 => Some (PyList (rev (v :: acc)), r2)
      | None =>
          r2 ← expect 44 (skip_ws r1);
          parse_elements f (skip_ws r2) (v :: acc)
      end
  end.

(** [json.loads(s)]: [None] stands for the exception it raises. *)
Definition json_loads (s : str) : option PyVal :=
  if startswith [65279%N] s then None else
  '(v, r) ← scan_once (2 * length s + 2) (skip_ws s);
  match skip_ws r with
  | [] => Some v
  | _ => None
  end.

(** The numeric value of an [int], a [bool] (a subclass of [int]) or a
    [float]. *)
Definition numeric (v : PyVal) : option pyfloat :=
  match v with
  | PyBool b => Some (FFin (if b then 1 else 0)%Q)
  | PyInt z => Some (FFin (inject_Z z))
  | PyFloat f => Some f
  | _ => None
  end.

Definition float_eq (x y : pyfloat) : bool :=
  match x, y with
  | FFin a, FFin b => Qeq_bool a b
  | FInf s, FInf t => eqb s t
  | _, _ => false
  end.

(** [a is b] for two values that [json.loads] returned whenever it can
    differ from [a == b]: the decoder returns its one [NaN] object for
    every [NaN] it reads. *)
Definition same_nan (a b : PyVal) : bool :=
  match a, b with
  | PyFloat FNaN, PyFloat FNaN => true
  | _, _ => false
  end.

(** [a == b].  Lists and dicts compare their items with
    [PyObject_RichCompareBool], which answers true for identical objects
    before it asks [==]. *)
Fixpoint py_eq (a b : PyVal) {struct a} : bool :=
  match a, b with
  | PyNone, PyNone => true
  | PyStr s, PyStr t => str_eqb s t
  | PyList la, PyList lb =>
      (fix items (la lb : list PyVal) {struct la} : bool :=
         match la, lb with
         | [], [] => true
         | x :: la', y :: lb' => (same_nan x y || py_eq x y) && items la' lb'
         | _, _ => false
         end) la lb
  | PyDict da, PyDict db =>
      (length da =? length db)%nat &&
      (fix items (da : list (str * PyVal)) : bool :=
         match da with
         | [] => true
         | (k, v) :: da' =>
             match dict_get db k with
             | Some w => (same_nan v w || py_eq v w) && items da'
             | None => false
             end
         end) da
  | _, _ =>
      match numeric a, numeric b with
      | Some x, Some y => float_eq x y
      | _, _ => false
      end
  end.

(** ** [os.path] on a POSIX host *)

(** [(p[:i], p[i:])] for [i = p.rfind("/") + 1]. *)
Fixpoint split_last_sep (p : str) : str * str :=
  match p with
  | [] => ([], [])
  | c :: r =>
      match split_last_sep r with
      | ([], t) => if (c =? 47)%N then ([c], t) else ([], c :: t)
      | (h, t) => (c :: h, t)
      end
  end.

Fixpoint lstrip_sep (s : str) : str :=
  match s with
  | c :: r => if (c =? 47)%N then lstrip_sep r else s
  | [] => []
  end.

Definition basename (p : str) : str := snd (split_last_sep p).

Definition dirname (p : str) : str :=
  let head := fst (split_last_sep p) in
  match lstrip_sep head with
  | [] => head
  | _ => rev (lstrip_sep (rev head))
  end.

Definition path_join (a b : str) : str :=
  if startswith [47%N] b then b
  else match a with
       | [] => b
       | _ => if startswith [47%N] (rev a) then a ++ b else a ++ [47%N] ++ b
       end.

(** ** Exceptions, the world and the state *)

Inductive exn :=
| ValueError (msg : str)
| TimeoutExpired (msg : str)
| ContainerError (stderr : option bytes) (msg : str)
| UnicodeDecodeError (msg : str)
| OtherException (msg : str).

(** [str(e)] *)
Definition str_of_exn (e : exn) : str :=
  match e with
  | ValueError msg | TimeoutExpired msg | ContainerError _ msg
  | UnicodeDecodeError msg | OtherException msg => msg
  end.

(** What a child process started by [subprocess.run] does when it is left
    alone: it exits by itself after [elapsed_ms], it never does, or the
    call fails for another reason (the shell cannot be started, the output
    cannot be decoded). *)
Inductive ProcessBehaviour :=
| PExits (elapsed_ms : Q) (returncode : Z) (stdout stderr : str)
| PLoops
| PFails (e : exn).

(** What a container started by [client.containers.run] does: the same
    three cases.  [logs] is what the call returns after a zero exit status,
    [stderr] and [msg] are the fields of the [ContainerError] raised after
    another one. *)
Inductive ContainerBehaviour :=
| CExits (elapsed_ms : Q) (status : Z) (logs : option bytes)
         (stderr : option bytes) (msg : str)
| CLoops
| CFails (e : exn).

Record State := {
  disk : gmap (list N) (list N);   (* path -> content *)
  clock : nat                      (* number of calls made to the world *)
}.

Record World := {
  (* import docker; docker.from_env(...); client.ping(): None when the
     daemon answers, the exception otherwise *)
  docker_probe : nat → option exn;
  (* tempfile.gettempdir() *)
  gettempdir : str;
  (* tempfile.mkstemp(suffix=...): the random characters of the name, or
     the exception raised when no file can be created *)
  mkstemp_oracle : nat → gmap (list N) (list N) → str → exn + str;
  (* open(path, 'w') *)
  open_oracle : nat → str → option exn;
  (* f.write(content) and the close that follows *)
  write_oracle : nat → str → str → option exn;
  (* the child of subprocess.run(cmd, shell=True, input=...) *)
  process_oracle : nat → gmap (list N) (list N) → str → option str → ProcessBehaviour;
  (* the container of client.containers.run(image, command, volumes, mem_limit) *)
  container_oracle : nat → gmap (list N) (list N) → str → str → str → Z → ContainerBehaviour;
  (* the text of the UnicodeDecodeError that decoding these bytes raises *)
  decode_error_text : bytes → str;
  (* the text of the TimeoutExpired raised for this command *)
  timeout_text : str → Z → str
}.

Inductive Outcome (A : Type) :=
| Ret (a : A)          (* the call returns a *)
| Raise (e : exn)      (* the call raises e *)
| Hang.                (* the call never returns *)
Arguments Ret {A} a.
Arguments Raise {A} e.
Arguments Hang {A}.

Definition M (A : Type) : Type := State → Outcome A * State.

#[export] Instance M_ret : MRet M := λ A a st, (Ret a, st).

#[export] Instance M_bind : MBind M := λ A B f m st,
  match m st with
  | (Ret a, st') => f a st'
  | (Raise e, st') => (Raise e, st')
  | (Hang, st') => (Hang, st')
  end.

#[export] Instance M_throw : MThrow exn M := λ A e st, (Raise e, st).

#[export] Instance M_fmap : FMap M := λ A B f m, m ≫= λ a, mret (f a).

Definition tick (st : State) : State :=
  {| disk := disk st; clock := S (clock st) |}.

(** [try: body except: handler(e)] *)
Definition try_except {A} (body : M A) (handler : exn → M A) : M A :=
  λ st, match body st with
        | (Raise e, st') => handler e st'
        | r => r
        end.

(** [try: body finally: fin] *)
Definition try_finally {A} (body : M A) (fin : M unit) : M A :=
  λ st, match body st with
        | (Hang, st') => (Hang, st')
        | (o, st') =>
            match fin st' with
            | (Ret _, st'') => (o, st'')
            | (Raise e, st'') => (Raise e, st'')
            | (Hang, st'') => (Hang, st'')
            end
        end.

(** [x = None
     try: x = acquire; body(x)
     except Exception as e: handler(e)
     finally: fin(x)] *)
Definition try_bound {R A} (acquire : M R) (body : R → M A)
    (handler : exn → M A) (fin : option R → M unit) : M A :=
  λ st, match acquire st with
        | (Ret x, st1) => try_finally (try_except (body x) handler) (fin (Some x)) st1
        | (Raise e, st1) => try_finally (handler e) (fin None) st1
        | (Hang, st1) => (Hang, st1)
        end.

(** *** The calls into the world *)

Section Calls.
Variable w : World.

(** [tempfile.mkstemp(suffix=suffix)]: an empty file named
    [tmp<random><suffix>] in the directory for temporary files. *)
Definition mkstemp (suffix : str) : M str :=
  λ st, match mkstemp_oracle w (clock st) (disk st) suffix with
        | inr name =>
            let path := path_join (gettempdir w) (lit "tmp" ++ name ++ suffix) in
            (Ret path, {| disk := <[path := []]> (disk st); clock := S (clock st) |})
        | inl e => (Raise e, tick st)
        end.

Definition open_w (path : str) : M unit :=
  λ st, match open_oracle w (clock st) path with
        | None => (Ret (), {| disk := <[path := []]> (disk st); clock := S (clock st) |})
        | Some e => (Raise e, tick st)
        end.

Definition write (path content : str) : M unit :=
  λ st, match write_oracle w (clock st) path content with
        | None => (Ret (), {| disk := <[path := content]> (disk st); clock := S (clock st) |})
        | Some e => (Raise e, tick st)
        end.

(** [os.path.exists(path)] *)
Definition exists_ (path : str) : M bool :=
  λ st, (Ret (bool_decide (is_Some (disk st !! path))), st).

(** [os.unlink(path)] *)
Definition unlink (path : str) : M unit :=
  λ st, match disk st !! path with
        | Some _ => (Ret (), {| disk := delete path (disk st); clock := clock st |})
        | None => (Raise (OtherException (lit "No such file or directory")), st)
        end.

Record CompletedProcess := {
  returncode : Z;
  stdout : str;
  stderr : str;
  elapsed : Q     (* the time the call took, in ms *)
}.

(** [subprocess.run(cmd, shell=True, input=..., capture_output=True,
    text=True, timeout=timeout)] *)
Definition subprocess_run (cmd : str) (input : option str) (timeout : Z) : M CompletedProcess :=
  λ st, match process_oracle w (clock st) (disk st) cmd input with
        | PExits ms rc out err =>
            if Qle_bool ms (inject_Z (timeout * 1000))
            then (Ret {| returncode := rc; stdout := out; stderr := err; elapsed := ms |}, tick st)
            else (Raise (TimeoutExpired (timeout_text w cmd timeout)), tick st)
        | PLoops => (Raise (TimeoutExpired (timeout_text w cmd timeout)), tick st)
        | PFails e => (Raise e, tick st)
        end.

(** [client.containers.run(image, command=["sh", "-c", command],
    volumes={dir: ...}, mem_limit=..., network_disabled=True,
    remove=True, detach=False, stdout=True, stderr=True)]: the value
    returned and the time the call took, in ms. *)
Definition containers_run (image command dir : str) (mem_limit : Z) : M (option bytes * Q) :=
  λ st, match container_oracle w (clock st) (disk st) image command dir mem_limit with
        | CExits ms status logs err msg =>
            if (status =? 0)%Z then (Ret (logs, ms), tick st)
            else (Raise (ContainerError err msg), tick st)
        | CLoops => (Hang, tick st)
        | CFails e => (Raise e, tick st)
        end.

(** [docker.from_env(timeout=2, version='auto')] and [client.ping()] *)
Definition docker_connect : M unit :=
  λ st, match docker_probe w (clock st) with
        | None => (Ret (), tick st)
        | Some e => (Raise e, tick st)
        end.

(** [b.decode()] as a call that may raise *)
Definition decode_or_raise (b : bytes) : M str :=
  match decode b with
  | Some s => mret s
  | None => mthrow (UnicodeDecodeError (decode_error_text w b))
  end.
End Calls.

(** ** [app/schemas/execution.py] *)

Record TestcaseInput := {
  input : str;
  expected_output : str
}.

Record ExecutionRequest := {
  req_code : str;
  req_language : str;
  req_testcases : list TestcaseInput;
  req_timeout_seconds : Z;
  req_memory_limit_mb : Z
}.

Record TestcaseResult := {
  testcase_index : nat;
  passed : bool;
  actual_output : str;
  tr_expected_output : str;
  tr_execution_time_ms : Q;
  tr_memory_used_mb : Q;
  tr_error : option str
}.

Record ExecutionSummary := {
  sum_passed : Z;
  sum_failed : Z;
  sum_total : Z;
  avg_execution_time_ms : Q;
  max_memory_mb : Q
}.

Record ExecutionResponse := {
  results : list TestcaseResult;
  summary : ExecutionSummary;
  runtime_error : option str
}.

(** The constraints of the [Field]s of [ExecutionRequest]: the pattern
    [^(python|cpp|java)$] of [language], [min_length=1] of [testcases] and
    the ranges of the two limits.  FastAPI answers a request that violates
    them before [execute_code] is called. *)
Definition valid_request (r : ExecutionRequest) : bool :=
  (str_eqb (req_language r) (lit "python") || str_eqb (req_language r) (lit "cpp")
   || str_eqb (req_language r) (lit "java"))
  && (1 <=? length (req_testcases r))%nat
  && (1 <=? req_timeout_seconds r) && (req_timeout_seconds r <=? 30)
  && (64 <=? req_memory_limit_mb r) && (req_memory_limit_mb r <=? 512).

(** ** [app/services/sandbox.py] *)

Record ExecutionResult := {
  output : str;
  execution_time_ms : Q;
  memory_used_mb : Q;
  error : option str;
  timed_out : bool
}.

Record LanguageConfig := {
  extension : str;
  compile_cmd : option str;
  run_cmd : str;
  image : str
}.

Definition PYTHON_CMD : str := lit "python3".

Definition LANGUAGE_CONFIG : gmap (list N) LanguageConfig :=
  {[ lit "python" :=
       {| extension := lit ".py";
          compile_cmd := None;
          run_cmd := PYTHON_CMD ++ lit " {file}";
          image := lit "python:3.11-slim" |} ]}.

(** Truth value of an optional string: [None] and the empty string are
    false. *)
Definition truthy (o : option str) : bool :=
  match o with
  | Some (_ :: _) => true
  | _ => false
  end.

Definition truthy_bytes (o : option bytes) : bool :=
  match o with
  | Some (_ :: _) => true
  | _ => false
  end.

Definition error_result (msg : str) : ExecutionResult :=
  {| output := []; execution_time_ms := 0; memory_used_mb := 0;
     error := Some msg; timed_out := false |}.

Section Sandbox.
Variable w : World.

Definition create_solution_file (code language : str) : M str :=
  match LANGUAGE_CONFIG !! language with
  | None => mthrow (ValueError (lit "Unsupported language: " ++ language))
  | Some config =>
      let code :=
        if str_eqb language (lit "java") && negb (contains (lit "class Solution") code)
        then lit "public class Solution {" ++ [10%N] ++ code ++ [10%N; 125%N]
        else code in
      let suffix := extension config in
      path ← mkstemp w suffix;
      try_except
        (write w path code;; mret path)
        (λ e, unlink path;; mthrow e)
  end.

(** [if file_path and os.path.exists(file_path): os.unlink(file_path)] *)
Definition remove_if_exists (file_path : option str) : M unit :=
  if truthy file_path then
    match file_path with
    | Some p => b ← exists_ p; if b : bool then unlink p else mret ()
    | None => mret ()
    end
  else mret ().

(** The [try] block of [run_code_locally], after the assignment of
    [file_path]. *)
Definition locally_try (config : LanguageConfig) (input_data : str)
    (timeout_seconds : Z) (file_path : str) : M ExecutionResult :=
  (* Compile if needed *)
  compile_failure ←
    (if truthy (compile_cmd config) then
       let compile_cmd := format (default [] (compile_cmd config)) file_path in
       compile_result ← subprocess_run w compile_cmd None 30;
       if negb (returncode compile_result =? 0)
       then mret (Some (error_result
                          (lit "Compilation error: " ++ stderr compile_result)))
       else mret None
     else mret None) : M (option ExecutionResult);
  match compile_failure with
  | Some r => mret r
  | None =>
      (* Run the code *)
      let run_cmd := format (run_cmd config) file_path in
      try_except
        (result ← subprocess_run w run_cmd (Some input_data) timeout_seconds;
         let execution_time := elapsed result in
         if negb (returncode result =? 0)
         then mret {| output := strip (stdout result);
                      execution_time_ms := execution_time;
                      memory_used_mb := 0;
                      error := Some (if truthy (Some (stderr result))
                                     then strip (stderr result)
                                     else lit "Runtime error");
                      timed_out := false |}
         else mret {| output := strip (stdout result);
                      execution_time_ms := execution_time;
                      memory_used_mb := 0;
                      error := None;
                      timed_out := false |})
        (λ e, match e with
              | TimeoutExpired _ =>
                  mret {| output := [];
                          execution_time_ms := inject_Z (timeout_seconds * 1000);
                          memory_used_mb := 0;
                          error := Some (lit "Time limit exceeded");
                          timed_out := true |}
              | _ => mthrow e
              end)
  end.

Definition run_code_locally (code language input_data : str)
    (timeout_seconds memory_limit_mb : Z) : M ExecutionResult :=
  match LANGUAGE_CONFIG !! language with
  | None => mret (error_result (lit "Unsupported language: " ++ language))
  | Some config =>
      try_bound
        (create_solution_file code language)
        (locally_try config input_data timeout_seconds)
        (λ e, mret (error_result (str_of_exn e)))
        remove_if_exists
  end.

(** The [try] block of [run_code_docker], after the assignment of
    [file_path]. *)
Definition docker_try (config : LanguageConfig) (input_data : str)
    (memory_limit_mb : Z) (file_path : str) : M ExecutionResult :=
  let file_name := basename file_path in
  let temp_dir := dirname file_path in
  (* Write input data to a file in the same temp directory *)
  let input_file_path := path_join temp_dir (lit "input.txt") in
  open_w w input_file_path;;
  write w input_file_path input_data;;
  let temp_dir_docker := temp_dir in
  (* Build the command to run inside container *)
  let compile_part :=
    if truthy (compile_cmd config)
    then format (default [] (compile_cmd config)) (lit "/code/" ++ file_name)
         ++ lit " && "
    else [] in
  let run_part := format (run_cmd config) (lit "/code/" ++ file_name) in
  let full_command := lit "echo '" ++ input_data ++ lit "' | " ++ run_part in
  (* Run container *)
  '(container, execution_time) ←
    containers_run w (image config) full_command temp_dir_docker memory_limit_mb;
  output ← match container with
           | Some b => strip <$> decode_or_raise w b
           | None => mret (strip (lit "None"))
           end;
  mret {| output := output;
          execution_time_ms := execution_time;
          memory_used_mb := (inject_Z memory_limit_mb * (1 # 2))%Q;
          error := None;
          timed_out := false |}.

(** The two [except] clauses of [run_code_docker]. *)
Definition docker_except (e : exn) : M ExecutionResult :=
  match e with
  | ContainerError err msg =>
      text ← (if truthy_bytes err
              then decode_or_raise w (default [] err)
              else mret msg);
      mret (error_result (lit "Runtime error: " ++ text))
  | _ => mret (error_result (str_of_exn e))
  end.

(** The [finally] block of [run_code_docker]: [input_file_path] is
    assigned right after [file_path], by calls that cannot raise. *)
Definition docker_finally (file_path : option str) : M unit :=
  let input_file_path := (λ p, path_join (dirname p) (lit "input.txt")) <$> file_path in
  remove_if_exists file_path;;
  remove_if_exists input_file_path.

Definition run_code_docker (code language input_data : str)
    (timeout_seconds memory_limit_mb : Z) : M ExecutionResult :=
  fallback ←
    try_except
      (docker_connect w;; mret None)
      (λ e, Some <$> run_code_locally code language input_data
                       timeout_seconds memory_limit_mb) : M (option ExecutionResult);
  match fallback with
  | Some r => mret r
  | None =>
      (* Docker is available *)
      match LANGUAGE_CONFIG !! language with
      | None => mret (error_result (lit "Unsupported language: " ++ language))
      | Some config =>
          try_bound
            (create_solution_file code language)
            (docker_try config input_data memory_limit_mb)
            docker_except
            docker_finally
      end
  end.
End Sandbox.

(** The comparison of [execute_testcase]:
    [try: passed = json.loads(actual) == json.loads(expected)
     except: passed = actual == expected] *)
Definition compare_outputs (actual expected : str) : bool :=
  match (obj_actual ← json_loads actual;
         obj_expected ← json_loads expected;
         Some (py_eq obj_actual obj_expected)) with
  | Some passed => passed
  | None => str_eqb actual expected
  end.

Section Execution.
Variable w : World.

Definition execute_testcase (code language : str) (testcase : TestcaseInput)
    (testcase_index : nat) (timeout_seconds memory_limit_mb : Z)
    (use_docker : bool) : M TestcaseResult :=
  let executor := if use_docker then run_code_docker w else run_code_locally w in
  result ← executor code language (input testcase) timeout_seconds memory_limit_mb;
  (* Compare output (normalize whitespace) *)
  let actual := strip (output result) in
  let expected := strip (expected_output testcase) in
  let passed := compare_outputs actual expected in
  mret {| testcase_index := testcase_index;
          passed := passed;
          actual_output := actual;
          tr_expected_output := expected;
          tr_execution_time_ms := execution_time_ms result;
          tr_memory_used_mb := memory_used_mb result;
          tr_error := error result |}.

(** ** [app/routers/execution.py] *)

Record Settings := {
  code_timeout_seconds : Z;
  code_memory_limit_mb : Z
}.

(** The loop [for i, testcase in enumerate(request.testcases)], from
    index [i] on, with the two variables it updates. *)
Fixpoint for_testcases (request : ExecutionRequest) (timeout memory : Z)
    (i : nat) (testcases : list TestcaseInput)
    (results : list TestcaseResult) (runtime_error : option str)
    : M (list TestcaseResult * option str) :=
  match testcases with
  | [] => mret (results, runtime_error)
  | testcase :: rest =>
      result ← execute_testcase (req_code request) (req_language request)
                 testcase i timeout memory true;
      let results := results ++ [result] in
      (* Capture first runtime error *)
      let runtime_error :=
        if truthy (tr_error result) && negb (truthy runtime_error)
        then tr_error result else runtime_error in
      for_testcases request timeout memory (S i) rest results runtime_error
  end.
End Execution.

Definition Qlt_bool (a b : Q) : bool := negb (Qle_bool b a).

(** [sum(xs)] *)
Definition Qsum (xs : list Q) : Q := fold_left Qplus xs 0%Q.

(** [max(xs, default=d)]: the first of the greatest items *)
Definition Qmax_default (xs : list Q) (d : Q) : Q :=
  match xs with
  | [] => d
  | x :: r => fold_left (λ m y, if Qlt_bool m y then y else m) r x
  end.

(** The summary that [execute_code] computes from the results. *)
Definition summarize (results : list TestcaseResult) : ExecutionSummary :=
  let passed := Z.of_nat (length (filter (λ r, passed r = true) results)) in
  let failed := Z.of_nat (length results) - passed in
  let avg_time :=
    match results with
    | [] => 0%Q
    | _ => (Qsum (tr_execution_time_ms <$> results)
            / inject_Z (Z.of_nat (length results)))%Q
    end in
  let max_memory := Qmax_default (tr_memory_used_mb <$> results) 0%Q in
  {| sum_passed := passed;
     sum_failed := failed;
     sum_total := Z.of_nat (length results);
     avg_execution_time_ms := round2 avg_time;
     max_memory_mb := round2 max_memory |}.

Definition execute_code (w : World) (settings : Settings)
    (request : ExecutionRequest) : M ExecutionResponse :=
  (* Use configured limits or request-specified limits (capped) *)
  let timeout := Z.min (req_timeout_seconds request) (code_timeout_seconds settings) in
  let memory := Z.min (req_memory_limit_mb request) (code_memory_limit_mb settings) in
  '(results, runtime_error) ←
    for_testcases w request timeout memory 0 (req_testcases request) [] None;
  mret {| results := results;
          summary := summarize results;
          runtime_error := runtime_error |}.


(** * Vocabulary of the properties *)

(** The error the loop keeps: the first per-case error that counts as true
    in a condition (neither [None] nor the empty string). *)
Definition first_truthy_error (rs : list TestcaseResult) : option str :=
  match filter (λ r, truthy (tr_error r) = true) rs with
  | r :: _ => tr_error r
  | [] => None
  end.

(** The path of the file that [mkstemp] creates when it is called in
    state [st]. *)
Definition solution_path (w : World) (st : State) (suffix : str) : option str :=
  match mkstemp_oracle w (clock st) (disk st) suffix with
  | inr name => Some (path_join (gettempdir w) (lit "tmp" ++ name ++ suffix))
  | inl _ => None
  end.

(** A testcase's run exceeds the timeout: left alone, the child would run
    for longer than [timeout] seconds. *)
Definition process_exceeds (b : ProcessBehaviour) (timeout : Z) : Prop :=
  match b with
  | PExits ms _ _ _ => Qle_bool ms (inject_Z (timeout * 1000)) = false
  | PLoops => True
  | PFails _ => False
  end.

Definition container_exceeds (b : ContainerBehaviour) (timeout : Z) : Prop :=
  match b with
  | CExits ms _ _ _ _ => Qle_bool ms (inject_Z (timeout * 1000)) = false
  | CLoops => True
  | CFails _ => False
  end.



(** *** The comparison, in the words of the specification

    Structural equality of two decoded values: the same kind of value,
    numbers of the same value, sequences equal item by item in order,
    mappings with the same keys and equal values under each key. *)
Definition number_value (v : PyVal) : option pyfloat :=
  match v with
  | PyInt z => Some (FFin (inject_Z z))
  | PyFloat f => Some f
  | _ => None
  end.

Definition same_number (x y : pyfloat) : bool :=
  match x, y with
  | FFin a, FFin b => Qeq_bool a b
  | FInf s, FInf t => eqb s t
  | FNaN, FNaN => true
  | _, _ => false
  end.

Fixpoint structurally_equal (a b : PyVal) {struct a} : bool :=
  match a, b with
  | PyNone, PyNone => true
  | PyBool x, PyBool y => eqb x y
  | PyStr s, PyStr t => str_eqb s t
  | PyList la, PyList lb =>
      (fix items (la lb : list PyVal) {struct la} : bool :=
         match la, lb with
         | [], [] => true
         | x :: la', y :: lb' => structurally_equal x y && items la' lb'
         | _, _ => false
         end) la lb
  | PyDict da, PyDict db =>
      (length da =? length db)%nat &&
      (fix items (da : list (str * PyVal)) : bool :=
         match da with
         | [] => true
         | (k, v) :: da' =>
             match dict_get db k with
             | Some w => structurally_equal v w && items da'
             | None => false
             end
         end) da
  | _, _ =>
      match number_value a, number_value b with
      | Some x, Some y => same_number x y
      | _, _ => false
      end
  end.

(** Trim both; compare structurally when both parse, else as strings. *)
Definition spec_compare (actual expected : str) : bool :=
  let a := strip actual in
  let e := strip expected in
  match json_loads a, json_loads e with
  | Some x, Some y => structurally_equal x y
  | _, _ => str_eqb a e
  end.

(** *** The submission-level error and the summary, in the words of the
    specification *)

(** The first per-case error that is not null. *)
Fixpoint first_non_null_error (rs : list TestcaseResult) : option str :=
  match rs with
  | [] => None
  | r :: rs' =>
      match tr_error r with
      | Some e => Some e
      | None => first_non_null_error rs'
      end
  end.

(** The arithmetic mean ([0] for no value at all). *)
Definition mean (xs : list Q) : Q :=
  match xs with
  | [] => 0%Q
  | _ => (Qsum xs / inject_Z (Z.of_nat (length xs)))%Q
  end.

(** *** Worlds and requests to run the code on *)

Definition empty_state : State := {| disk := ∅; clock := 0 |}.

Definition default_settings : Settings :=
  {| code_timeout_seconds := 10; code_memory_limit_mb := 256 |}.

(** A host with [/tmp] as temporary directory and no failing file
    operation; [docker_up] tells whether the Docker daemon answers, [proc]
    what a child process does for a given standard input and [cont] what a
    container does. *)
Definition host (docker_up : bool) (proc : str → ProcessBehaviour)
    (cont : ContainerBehaviour) : World :=
  {| docker_probe := λ _, if docker_up then None
                          else Some (OtherException (lit "Error while fetching server API version"));
     gettempdir := lit "/tmp";
     mkstemp_oracle := λ _ _ _, inr (lit "k3v9x_qa");
     open_oracle := λ _ _, None;
     write_oracle := λ _ _ _, None;
     process_oracle := λ _ _ _ stdin, proc (default [] stdin);
     container_oracle := λ _ _ _ _ _ _, cont;
     decode_error_text := λ _, lit "'utf-8' codec can't decode byte";
     timeout_text := λ _ _, lit "timed out" |}.

(** A literal in which ['] stands for the double quote. *)
Definition jlit (s : string) : str :=
  (λ c, if (c =? 39)%N then 34%N else c) <$> lit s.

Definition testcase (stdin expected : str) : TestcaseInput :=
  {| input := stdin; expected_output := expected |}.

(** A program whose behaviour depends on its standard input: it prints an
    object, loops, fails with a blank line on its error stream, fails with
    a message, prints [NaN] or greets. *)
Definition sample_program (stdin : str) : ProcessBehaviour :=
  if str_eqb stdin (lit "1") then PExits 5 0 (jlit "{'a': 1, 'b': 2}" ++ [10%N]) []
  else if str_eqb stdin (lit "2") then PLoops
  else if str_eqb stdin (lit "3") then PExits 7 1 [] [10%N]
  else if str_eqb stdin (lit "4") then PExits 3 1 [] (lit "boom" ++ [10%N])
  else if str_eqb stdin (lit "5") then PExits 4 0 (lit "NaN" ++ [10%N]) []
  else PExits 1 0 (lit "Hello" ++ [10%N]) [].

(** The host without Docker, running [sample_program]. *)
Definition local_host : World := host false sample_program CLoops.

Definition sample_request (testcases : list TestcaseInput) : ExecutionRequest :=
  {| req_code := lit "import sys";
     req_language := lit "python";
     req_testcases := testcases;
     req_timeout_seconds := 2;
     req_memory_limit_mb := 128 |}.

(** The response of a call that returned one. *)
Definition response_of (o : Outcome ExecutionResponse * State) : ExecutionResponse :=
  match o.1 with
  | Ret resp => resp
  | _ => {| results := []; summary := summarize []; runtime_error := None |}
  end.

(** A host with Docker on which the container prints [ok], and a disk with
    an unrelated file. *)
Definition docker_host : World :=
  host true sample_program (CExits 40 0 (Some [x6f; x6b; x0a]) None []).


Definition busy_state : State :=
  {| disk := {[ lit "/tmp/notes.txt" := lit "keep" ]}; clock := 0 |}.

(** The result of a testcase of a request whose language has no entry in
    [LANGUAGE_CONFIG]. *)
Definition unsupported_result (language : str) (i : nat) (tc : TestcaseInput)
    : TestcaseResult :=
  {| testcase_index := i;
     passed := compare_outputs [] (strip (expected_output tc));
     actual_output := [];
     tr_expected_output := strip (expected_output tc);
     tr_execution_time_ms := 0;
     tr_memory_used_mb := 0;
     tr_error := Some (lit "Unsupported language: " ++ language) |}.

(** Hosts with Docker on which the container runs for a minute before it
    prints [ok], never stops, or exits with status 1 after it has written
    the byte [ff] to its error stream. *)
Definition slow_docker_host : World :=
  host true sample_program (CExits 60000 0 (Some [x6f; x6b; x0a]) None []).

Definition looping_docker_host : World := host true sample_program CLoops.

Definition bad_stderr_host : World :=
  host true sample_program
    (CExits 30 1 None (Some [xff]) (lit "Command returned non-zero exit status 1")).

(** A decoded value without boolean inside. *)
Fixpoint no_boolean (v : PyVal) : bool :=
  match v with
  | PyBool _ => false
  | PyList l => forallb no_boolean l
  | PyDict d => forallb (λ kv, no_boolean kv.2) d
  | _ => true
  end.

(** ** Further definitions *)

(** A string of white space characters only. *)
Definition spaces (ws : str) : Prop := Forall (λ c, isspace c = true) ws.

(** What a result of the containerized executor looks like: a success
    with half the memory limit as memory figure, or an error with no
    output, no duration and no memory figure; never a timeout. *)
Definition docker_result (memory : Z) (res : ExecutionResult) : Prop :=
  timed_out res = false
  ∧ ((error res = None ∧ memory_used_mb res = (inject_Z memory * (1 # 2))%Q)
     ∨ (∃ msg, res = error_result msg)).

(** On the host [w] some container never exits. *)
Definition some_container_loops (w : World) : Prop :=
  ∃ t d image command dir mem_limit, container_oracle w t d image command dir mem_limit = CLoops.


(** A decoded value in which no object has two members with the same
    key. *)
Fixpoint distinct_keys (v : PyVal) : bool :=
  match v with
  | PyList l => forallb distinct_keys l
  | PyDict d => bool_decide (NoDup d.*1) && forallb (λ kv, distinct_keys kv.2) d
  | _ => true
  end.

(** *** The parts of [b64_round]

    The exponent [e] of the binade of [a > 0], with [2^e <= a < 2^(e+1)],
    the exponent of the unit in the last place of the floats of this
    binade, and the multiple of this unit nearest to [a], as [b64_round]
    computes them. *)
Definition binade (a : Q) : Z :=
  let e0 := Z.log2 (Qnum a) - Z.log2 (Zpos (Qden a)) in
  if Qle_bool (Qpow2 e0) a then e0 else e0 - 1.

Definition ulp_exponent (a : Q) : Z := Z.max (binade a - 52) (-1074).

Definition nearest (a : Q) : Q :=
  (inject_Z (round_half_even (a / Qpow2 (ulp_exponent a))) * Qpow2 (ulp_exponent a))%Q.

(** ** [app/services/complexity_analyzer.py]

    The syntax tree that [ast.parse] returns, as far as the visitor looks
    at it: the class of a node ([For], [While], [FunctionDef], [Call],
    [Name], [Subscript], any other class), the [name] of a [FunctionDef],
    the [func] of a [Call], the [id] of a [Name], and the child nodes in the
    order of the fields, which is the order of [ast.iter_child_nodes] and
    of [generic_visit].  [ast.parse] itself is a parameter of the
    analysis, and so is the recursion limit of the interpreter: the visitor
    is the one that has stack enough, and [analyze_code_complexity] is told
    for which trees the visit raises [RecursionError]. *)

Module complexity_analyzer.

#[local] Unset Elimination Schemes.
Inductive Node :=
| For (children : list Node)
| While (children : list Node)
| FunctionDef (name : str) (children : list Node)
| Call (func : Node) (rest : list Node)
| Name (id : str) (children : list Node)
| Subscript (children : list Node)
| Other (children : list Node).
#[local] Set Elimination Schemes.

Definition iter_child_nodes (node : Node) : list Node :=
  match node with
  | For cs | While cs | FunctionDef _ cs | Name _ cs | Subscript cs | Other cs => cs
  | Call func rest => func :: rest
  end.

(** The number of nodes of a tree. *)
Fixpoint nodes (node : Node) : nat :=
  S (match node with
     | For cs | While cs | FunctionDef _ cs | Name _ cs | Subscript cs | Other cs =>
         list_sum (List.map nodes cs)
     | Call func rest => nodes func + list_sum (List.map nodes rest)
     end).

(** [ast.walk]: the nodes of the tree, breadth first.
    [todo = deque([node])
     while todo: node = todo.popleft(); todo.extend(iter_child_nodes(node)); yield node] *)
Fixpoint walk_from (fuel : nat) (todo : list Node) : list Node :=
  match fuel, todo with
  | S f, node :: todo => node :: walk_from f (todo ++ iter_child_nodes node)
  | _, _ => []
  end.

Definition walk (node : Node) : list Node := walk_from (nodes node) [node].

(** [str(n)] for an [int] *)
Definition str_of_int (n : Z) : str := lit (NilZero.string_of_int (Z.to_int n)).

(** [x in l] for a list of strings *)
Definition str_in (x : str) (l : list str) : bool := existsb (str_eqb x) l.

(** The attributes of a [_ComplexityVisitor]. *)
Record Visitor := {
  loop_nesting_levels : Z;
  max_loop_nesting : Z;
  recursion_detected : bool;
  data_structure_operations : list str;
  function_calls : list str;
  nested_functions : Z
}.

Definition __init__ : Visitor :=
  {| loop_nesting_levels := 0;
     max_loop_nesting := 0;
     recursion_detected := false;
     data_structure_operations := [];
     function_calls := [];
     nested_functions := 0 |}.

(** [isinstance(item, ast.Call) and isinstance(item.func, ast.Name)
     and item.func.id == name] *)
Definition calls_by_name (name : str) (item : Node) : bool :=
  match item with
  | Call (Name id _) _ => str_eqb id name
  | _ => false
  end.

(** The body of [visit_Call] before it goes on to the children. *)
Definition track_call (func : Node) (self : Visitor) : Visitor :=
  match func with
  | Name func_name _ =>
      let operations := data_structure_operations self in
      {| loop_nesting_levels := loop_nesting_levels self;
         max_loop_nesting := max_loop_nesting self;
         recursion_detected := recursion_detected self;
         data_structure_operations :=
           if str_in func_name [lit "append"; lit "extend"; lit "insert"]
           then operations ++ [lit "list_mutation"]
           else if str_in func_name [lit "pop"; lit "remove"]
           then operations ++ [lit "list_search_or_remove"]
           else if str_in func_name [lit "sort"; lit "sorted"]
           then operations ++ [lit "sorting_operation"]
           else if str_in func_name [lit "set"; lit "dict"; lit "list"]
           then operations ++ [lit "collection_creation"]
           else operations;
         function_calls := function_calls self ++ [func_name];
         nested_functions := nested_functions self |}
  | _ => self
  end.

(** The loop of [visit_FunctionDef] over [ast.walk(node)]. *)
Definition detect_recursion (name : str) (items : list Node) (self : Visitor) : Visitor :=
  fold_left
    (λ self item,
       if calls_by_name name item
       then {| loop_nesting_levels := loop_nesting_levels self;
               max_loop_nesting := max_loop_nesting self;
               recursion_detected := true;
               data_structure_operations := data_structure_operations self;
               function_calls := function_calls self;
               nested_functions := nested_functions self |}
       else self)
    items self.

Definition enter_loop (self : Visitor) : Visitor :=
  let levels := loop_nesting_levels self + 1 in
  {| loop_nesting_levels := levels;
     max_loop_nesting := Z.max (max_loop_nesting self) levels;
     recursion_detected := recursion_detected self;
     data_structure_operations := data_structure_operations self;
     function_calls := function_calls self;
     nested_functions := nested_functions self |}.

Definition leave_loop (self : Visitor) : Visitor :=
  {| loop_nesting_levels := loop_nesting_levels self - 1;
     max_loop_nesting := max_loop_nesting self;
     recursion_detected := recursion_detected self;
     data_structure_operations := data_structure_operations self;
     function_calls := function_calls self;
     nested_functions := nested_functions self |}.

Definition add_nested_functions (n : Z) (self : Visitor) : Visitor :=
  {| loop_nesting_levels := loop_nesting_levels self;
     max_loop_nesting := max_loop_nesting self;
     recursion_detected := recursion_detected self;
     data_structure_operations := data_structure_operations self;
     function_calls := function_calls self;
     nested_functions := nested_functions self + n |}.

(** [NodeVisitor.visit]: the method [visit_<class>] of the visitor when
    there is one, [generic_visit] otherwise; [generic_visit] visits the
    child nodes in order. *)
Fixpoint visit (node : Node) (self : Visitor) {struct node} : Visitor :=
  let generic_visit :=
    fix each (children : list Node) (self : Visitor) {struct children} : Visitor :=
      match children with
      | [] => self
      | child :: children => each children (visit child self)
      end in
  match node with
  | For children | While children =>
      let self := enter_loop self in
      (* Visit the body of the loop *)
      let self := generic_visit children self in
      leave_loop self
  | FunctionDef name children =>
      (* Check if this is a recursive call *)
      let self := detect_recursion name (walk node) self in
      (* Visit the function body *)
      let self := add_nested_functions 1 self in
      let self := generic_visit children self in
      add_nested_functions (-1) self
  | Call func rest =>
      (* Track function calls that might affect complexity *)
      let self := track_call func self in
      (* Continue visiting *)
      generic_visit rest (visit func self)
  | Subscript children => generic_visit children self
  | Name _ children | Other children => generic_visit children self
  end.

Definition estimate_time_complexity (self : Visitor) : str :=
  if recursion_detected self then
    if 0 <? max_loop_nesting self
    then lit "O(2^n * " ++ (if 1 <? max_loop_nesting self then lit "n^" else [])
         ++ str_of_int (max_loop_nesting self) ++ lit ")"
    else lit "O(2^n)"
  else if max_loop_nesting self =? 0 then
    if str_in (lit "sorting_operation") (data_structure_operations self)
    then lit "O(n log n)"
    else if str_in (lit "list_search_or_remove") (data_structure_operations self)
    then lit "O(n)"
    else lit "O(1)"
  else if max_loop_nesting self =? 1 then
    if str_in (lit "sorting_operation") (data_structure_operations self)
    then lit "O(n log n)"
    else lit "O(n)"
  else if max_loop_nesting self =? 2 then lit "O(n" ++ [178%N] ++ lit ")"
  else if max_loop_nesting self =? 3 then lit "O(n" ++ [179%N] ++ lit ")"
  else lit "O(n^" ++ str_of_int (max_loop_nesting self) ++ lit ")".

Definition estimate_space_complexity (self : Visitor) : str :=
  if recursion_detected self then
    if 0 <? max_loop_nesting self
    then lit "O(n * " ++ (if 1 <? max_loop_nesting self then lit "n^" else [])
         ++ str_of_int (max_loop_nesting self) ++ lit ")"
    else lit "O(n)"
  else if str_in (lit "collection_creation") (data_structure_operations self)
  then lit "O(n)"
  else if 0 <? nested_functions self then lit "O(n)"
  else lit "O(1)".

Section Analysis.
(** [ast.parse(code)]: the tree, or [None] for the exception it raises. *)
Variable ast_parse : str → option Node.

(** Whether [analyzer.visit(tree)], which is recursive, exceeds the
    recursion limit of the interpreter and raises [RecursionError]. *)
Variable recursion_error : Node → bool.

(** [ComplexityAnalyzer.analyze_code_complexity]: both exceptions are
    caught by [except Exception]. *)
Definition analyze_code_complexity (code : str) : gmap (list N) (list N) :=
  match ast_parse code with
  | Some tree =>
      if recursion_error tree then
        {[ lit "time_complexity" := lit "Unknown";
           lit "space_complexity" := lit "Unknown" ]}
      else
        let analyzer := visit tree __init__ in
        {[ lit "time_complexity" := estimate_time_complexity analyzer;
           lit "space_complexity" := estimate_space_complexity analyzer ]}
  | None =>
      (* If AST parsing fails, return unknown *)
      {[ lit "time_complexity" := lit "Unknown";
         lit "space_complexity" := lit "Unknown" ]}
  end.

Definition analyze_complexity (code : str) : gmap (list N) (list N) :=
  analyze_code_complexity code.
End Analysis.

(** *** The tree, read without a visitor *)

(** The nodes of a tree, each before its children. *)
Fixpoint descendants (node : Node) : list Node :=
  node :: match node with
          | For cs | While cs | FunctionDef _ cs | Name _ cs | Subscript cs | Other cs =>
              List.concat (List.map descendants cs)
          | Call func rest => descendants func ++ List.concat (List.map descendants rest)
          end.

(** The greatest number of [for] and [while] loops around a node of the
    tree, the node included. *)
Fixpoint loop_depth (node : Node) : Z :=
  match node with
  | For cs | While cs => 1 + fold_right Z.max 0 (List.map loop_depth cs)
  | FunctionDef _ cs | Name _ cs | Subscript cs | Other cs =>
      fold_right Z.max 0 (List.map loop_depth cs)
  | Call func rest => Z.max (loop_depth func) (fold_right Z.max 0 (List.map loop_depth rest))
  end.

(** Some [def] of the tree has, anywhere below it, a call of its own name
    written as a bare name. *)
Definition calls_itself (node : Node) : bool :=
  match node with
  | FunctionDef name _ => existsb (calls_by_name name) (descendants node)
  | _ => false
  end.

Definition has_recursive_function (tree : Node) : bool :=
  existsb calls_itself (descendants tree).

(** Some call of the tree has one of [names] as a bare name for callee. *)
Definition calls_one_of (names : list str) (tree : Node) : bool :=
  existsb (λ node, match node with
                   | Call (Name id _) _ => str_in id names
                   | _ => false
                   end) (descendants tree).

(** What [visit_Call] appends to [data_structure_operations] and to
    [function_calls] at one node. *)
Definition tracked_operations (node : Node) : list str :=
  match node with
  | Call (Name func_name _) _ =>
      if str_in func_name [lit "append"; lit "extend"; lit "insert"]
      then [lit "list_mutation"]
      else if str_in func_name [lit "pop"; lit "remove"]
      then [lit "list_search_or_remove"]
      else if str_in func_name [lit "sort"; lit "sorted"]
      then [lit "sorting_operation"]
      else if str_in func_name [lit "set"; lit "dict"; lit "list"]
      then [lit "collection_creation"]
      else []
  | _ => []
  end.

Definition tracked_calls (node : Node) : list str :=
  match node with
  | Call (Name func_name _) _ => [func_name]
  | _ => []
  end.

(** The visitor after the visit of the nodes [trees], one after the
    other, in terms of what these trees are. *)
Definition after (trees : list Node) (self : Visitor) : Visitor :=
  let all := List.concat (List.map descendants trees) in
  {| loop_nesting_levels := loop_nesting_levels self;
     max_loop_nesting :=
       Z.max (max_loop_nesting self)
         (loop_nesting_levels self + fold_right Z.max 0 (List.map loop_depth trees));
     recursion_detected := recursion_detected self || existsb calls_itself all;
     data_structure_operations :=
       data_structure_operations self ++ flat_map tracked_operations all;
     function_calls := function_calls self ++ flat_map tracked_calls all;
     nested_functions := nested_functions self |}.

(** [generic_visit] on a list of children. *)
Definition visit_all (children : list Node) (self : Visitor) : Visitor :=
  fold_left (λ self child, visit child self) children self.

End complexity_analyzer.

(** ** [app/services/scorer.py]

    The arithmetic of the scorer is the one of Python: an [int] is exact,
    a [float] is a binary64 number and every operation on floats gives the
    binary64 number nearest to the exact result (ties to even), an [int]
    that meets a [float] is converted first, and comparisons are exact.
    The two zeros of binary64 are not told apart. *)

Module scorer.

(** An [int] or a [float]. *)
Inductive num :=
| Int (z : Z)
| Float (f : pyfloat).

Inductive ArithmeticError :=
| OverflowError
| ZeroDivisionError.

(** A computation that returns or raises an [ArithmeticError]. *)
Definition E (A : Type) : Type := (ArithmeticError + A)%type.

#[export] Instance E_ret : MRet E := λ A a, inr a.

#[export] Instance E_bind : MBind E := λ A B f m,
  match m with
  | inr a => f a
  | inl e => inl e
  end.

(** The value of a float literal. *)
Definition float_literal (q : Q) : pyfloat := b64_round q.

(** [float(z)], as the operations on floats convert an [int] operand. *)
Definition to_float (x : num) : E pyfloat :=
  match x with
  | Float f => inr f
  | Int z =>
      match b64_round (inject_Z z) with
      | FInf _ => inl OverflowError
      | f => inr f
      end
  end.

Definition float_add (x y : pyfloat) : pyfloat :=
  match x, y with
  | FNaN, _ | _, FNaN => FNaN
  | FFin a, FFin b => b64_round (a + b)
  | FInf s, FInf t => if eqb s t then FInf s else FNaN
  | FInf s, FFin _ | FFin _, FInf s => FInf s
  end.

Definition float_sub (x y : pyfloat) : pyfloat :=
  match x, y with
  | FNaN, _ | _, FNaN => FNaN
  | FFin a, FFin b => b64_round (a - b)
  | FInf s, FInf t => if eqb s t then FNaN else FInf s
  | FInf s, FFin _ => FInf s
  | FFin _, FInf t => FInf (negb t)
  end.

Definition float_mul (x y : pyfloat) : pyfloat :=
  match x, y with
  | FNaN, _ | _, FNaN => FNaN
  | FFin a, FFin b => b64_round (a * b)
  | FInf s, FInf t => FInf (xorb s t)
  | FInf s, FFin b | FFin b, FInf s =>
      if Qeq_bool b 0 then FNaN else FInf (xorb s (Qlt_bool b 0))
  end.

(** [x < y] and [x <= y] on floats: false when one of them is [NaN]. *)
Definition float_lt (x y : pyfloat) : bool :=
  match x, y with
  | FNaN, _ | _, FNaN => false
  | FFin a, FFin b => Qlt_bool a b
  | FInf s, FInf t => s && negb t
  | FInf s, FFin _ => s
  | FFin _, FInf t => negb t
  end.

Definition float_le (x y : pyfloat) : bool :=
  match x, y with
  | FNaN, _ | _, FNaN => false
  | FFin a, FFin b => Qle_bool a b
  | FInf s, FInf t => s || negb t
  | FInf s, FFin _ => s
  | FFin _, FInf t => negb t
  end.

(** The exact value of a number, for the comparisons. *)
Definition value (x : num) : pyfloat :=
  match x with
  | Int z => FFin (inject_Z z)
  | Float f => f
  end.

Definition num_lt (x y : num) : bool := float_lt (value x) (value y).
Definition num_le (x y : num) : bool := float_le (value x) (value y).
Definition num_gt (x y : num) : bool := num_lt y x.
Definition num_ge (x y : num) : bool := num_le y x.

Definition num_add (x y : num) : E num :=
  match x, y with
  | Int a, Int b => mret (Int (a + b))
  | _, _ => a ← to_float x; b ← to_float y; mret (Float (float_add a b))
  end.

Definition num_sub (x y : num) : E num :=
  match x, y with
  | Int a, Int b => mret (Int (a - b))
  | _, _ => a ← to_float x; b ← to_float y; mret (Float (float_sub a b))
  end.

Definition num_mul (x y : num) : E num :=
  match x, y with
  | Int a, Int b => mret (Int (a * b))
  | _, _ => a ← to_float x; b ← to_float y; mret (Float (float_mul a b))
  end.

(** [a / b] for two [int]s: the float nearest to the quotient. *)
Definition truediv (a b : Z) : E num :=
  if b =? 0 then inl ZeroDivisionError
  else match b64_round (inject_Z a / inject_Z b) with
       | FInf _ => inl OverflowError
       | f => mret (Float f)
       end.

(** [min(x, y)] and [max(x, y)]: the first argument unless the second one
    is smaller, or greater. *)
Definition py_min (x y : num) : num := if num_lt y x then y else x.
Definition py_max (x y : num) : num := if num_gt y x then y else x.

(** [round(x, ndigits)] for [ndigits >= 0]: an [int] is returned as it
    is; a finite float is rounded to the nearest multiple of
    [10 ** -ndigits], ties to even, and the float nearest to this decimal
    is returned. *)
Definition py_round (x : num) (ndigits : nat) : E num :=
  match x with
  | Int z => mret (Int z)
  | Float (FFin q) =>
      if (323 <? ndigits)%nat then mret (Float (FFin q))
      else
        let scale := inject_Z (10 ^ Z.of_nat ndigits) in
        match b64_round (inject_Z (round_half_even (q * scale)) / scale) with
        | FInf _ => inl OverflowError
        | f => mret (Float f)
        end
  | Float f => mret (Float f)
  end.

Record ScoringResult := {
  base_score : num;
  time_bonus : num;
  memory_bonus : num;
  penalty : num;
  final_score : num;
  breakdown : list (str * PyVal)
}.

Definition PyVal_of_num (x : num) : PyVal :=
  match x with
  | Int z => PyInt z
  | Float f => PyFloat f
  end.

Definition calculate_score (testcases_passed total_testcases question_points : Z)
    (execution_time_ms average_time_ms memory_used_mb average_memory_mb : num)
    : E ScoringResult :=
  if total_testcases =? 0 then
    mret {| base_score := Int 0;
            time_bonus := Int 0;
            memory_bonus := Int 0;
            penalty := Int 0;
            final_score := Int 0;
            breakdown := [(lit "error", PyStr (lit "No testcases"))] |}
  else
    pass_rate ← truediv testcases_passed total_testcases;
    (* Base score calculation *)
    base_score ← num_mul pass_rate (Int question_points);
    (* Time bonus (only if passed at least 50%) *)
    time_bonus ←
      (if num_ge pass_rate (Float (float_literal (5 # 10))) && num_gt execution_time_ms (Int 0)
       then if num_lt execution_time_ms average_time_ms
            then num_mul base_score (Float (float_literal (5 # 100)))
            else mret (Int 0)
       else mret (Int 0));
    (* Memory efficiency bonus *)
    memory_bonus ←
      (if num_ge pass_rate (Float (float_literal (5 # 10))) && num_gt memory_used_mb (Int 0)
       then if num_lt memory_used_mb average_memory_mb
            then num_mul base_score (Float (float_literal (5 # 100)))
            else mret (Int 0)
       else mret (Int 0));
    (* Penalty for failed testcases after 50% pass rate *)
    penalty ←
      (if num_gt pass_rate (Float (float_literal (5 # 10))) then
         let failed_after_50 := total_testcases - testcases_passed in
         tenth ← num_mul base_score (Float (float_literal (10 # 100)));
         per_failure ← num_mul (Int failed_after_50) tenth;
         cap ← num_mul base_score (Float (float_literal (3 # 10)));
         mret (py_min per_failure cap)
       else mret (Int 0));
    (* Calculate final score *)
    final_score ← (s ← num_add base_score time_bonus; s ← num_add s memory_bonus; num_sub s penalty);
    cap ← num_mul (Int question_points) (Float (float_literal (11 # 10)));
    let final_score := py_max (Int 0) (py_min final_score cap) in
    base_score' ← py_round base_score 2;
    time_bonus' ← py_round time_bonus 2;
    memory_bonus' ← py_round memory_bonus 2;
    penalty' ← py_round penalty 2;
    final_score' ← py_round final_score 2;
    percent ← (p ← num_mul pass_rate (Int 100); py_round p 1);
    mret {| base_score := base_score';
            time_bonus := time_bonus';
            memory_bonus := memory_bonus';
            penalty := penalty';
            final_score := final_score';
            breakdown :=
              [(lit "pass_rate", PyVal_of_num percent);
               (lit "testcases_passed", PyInt testcases_passed);
               (lit "total_testcases", PyInt total_testcases);
               (lit "formula", PyStr (lit "base + time_bonus + memory_bonus - penalty"))] |}.

(** The default values of the parameters. *)
Definition default_question_points : Z := 100.
Definition default_execution_time_ms : num := Int 0.
Definition default_average_time_ms : num := Int 100.
Definition default_memory_used_mb : num := Int 0.
Definition default_average_memory_mb : num := Int 50.
Definition default_rule_weight : num := Float (float_literal (7 # 10)).
Definition default_ai_weight : num := Float (float_literal (3 # 10)).

Definition combine_scores (rule_based_score ai_score rule_weight ai_weight : num) : E num :=
  (* Normalize AI score to 100 scale *)
  normalized_ai ← num_mul ai_score (Int 10);
  final ← (a ← num_mul rule_based_score rule_weight;
           b ← num_mul normalized_ai ai_weight;
           num_add a b);
  py_round final 2.

(** *** Vocabulary of the properties *)

(** The cap of the final score: [round(question_points * 1.1, 2)]. *)
Definition score_cap (question_points : Z) : E num :=
  cap ← num_mul (Int question_points) (Float (float_literal (11 # 10)));
  py_round cap 2.

(** A number whose value is finite and lies between [lo] and [hi]. *)
Definition within (lo hi : Q) (x : num) : Prop :=
  ∃ q, value x = FFin q ∧ (lo <= q)%Q ∧ (q <= hi)%Q.

Definition is_float (x : num) : Prop := ∃ f, x = Float f.

(** [2^31], a bound for the counts and the points. *)
Definition two31 : Q := 2147483648.

(** A binary64 number in lowest terms: what [b64_round] returns. *)
Definition float_q (r : Q) : Prop := b64_round r = FFin r.

(** A rational that is a binary64 number. *)
Definition is_binary64 (q : Q) : Prop := ∃ r, b64_round q = FFin r ∧ (r == q)%Q.

End scorer.


(** ** The fuel of the decoders is enough

    The functions that do not recurse on the structure of their input
    carry a counter.  None of them ever runs out of it: with the counter
    they are started with, or any larger one, the result is the same, so a
    [None] always stands for an exception of the Python function. *)

Section Fuel.
#[local] Open Scope nat_scope.

Lemma skip_ws_length s : length (skip_ws s) ≤ length s.
Proof.
  induction s as [|c s IH]; [done|]. cbn [skip_ws].
  destruct (json_ws c); cbn [length]; lia.
Qed.

Lemma take_digits_length s : length (take_digits s).2 ≤ length s.
Proof.
  induction s as [|c s IH]; [done|]. cbn [take_digits].
  destruct (is_digit c); [|done].
  destruct (take_digits s) as [d r]. cbn [snd length] in *. lia.
Qed.

Lemma hex4_length s n r : hex4 s = Some (n, r) → length s = 4 + length r.
Proof.
  destruct s as [|a [|b [|c [|d s]]]]; try discriminate. cbn [hex4].
  destruct (hex_digit a), (hex_digit b), (hex_digit c), (hex_digit d); try discriminate.
  by intros [= _ <-].
Qed.

Lemma expect_length c s r : expect c s = Some r → length s = S (length r).
Proof.
  destruct s as [|x s]; [discriminate|]. cbn [expect].
  destruct (x =? c)%N; [|discriminate]. by intros [= ->].
Qed.

Lemma scan_u_escape_length s n r : scan_u_escape s = Some (n, r) → length r < length s.
Proof.
  unfold scan_u_escape. destruct (hex4 s) as [[c r1]|] eqn:H1; [|discriminate].
  apply hex4_length in H1. cbn [mbind option_bind].
  destruct (is_high_surrogate c); [|intros [= _ <-]; lia].
  destruct (expect 92 r1) as [ra|] eqn:Ha; cbn [mbind option_bind];
    [|intros [= _ <-]; lia].
  destruct (expect 117 ra) as [r2|] eqn:Hb; [|intros [= _ <-]; lia].
  apply expect_length in Ha, Hb.
  destruct (hex4 r2) as [[c2 r3]|] eqn:H2; [|discriminate].
  apply hex4_length in H2. cbn [mbind option_bind].
  destruct (is_low_surrogate c2); intros [= _ <-]; lia.
Qed.

Lemma scanstring_length f : ∀ s acc v r,
  scanstring f s acc = Some (v, r) → length r < length s.
Proof.
  induction f as [|f IH]; intros s acc v r; [discriminate|]. cbn [scanstring].
  destruct s as [|c s]; [discriminate|].
  destruct (c =? 34)%N; [intros [= _ <-]; cbn [length]; lia|].
  destruct (c =? 92)%N.
  - destruct s as [|e s]; [discriminate|].
    destruct (e =? 117)%N.
    + destruct (scan_u_escape s) as [[cp r'']|] eqn:Hu; [|discriminate].
      apply scan_u_escape_length in Hu. cbn [mbind option_bind]. intros H.
      apply IH in H. cbn [length]. lia.
    + match goal with |- context [mbind _ ?x] => destruct x as [ch|] end; [|discriminate].
      cbn [mbind option_bind]. intros H. apply IH in H. cbn [length]. lia.
  - destruct (c <? 32)%N; [discriminate|]. intros H. apply IH in H. cbn [length]. lia.
Qed.

Lemma scanstring_fuel f : ∀ f' s acc,
  length s < f → length s < f' → scanstring f s acc = scanstring f' s acc.
Proof.
  induction f as [|f IH]; intros f' s acc Hf Hf'; [lia|].
  destruct f' as [|f']; [lia|]. cbn [scanstring].
  destruct s as [|c s]; [done|]. cbn [length] in *.
  destruct (c =? 34)%N; [done|].
  destruct (c =? 92)%N.
  - destruct s as [|e s]; [done|]. cbn [length] in *.
    destruct (e =? 117)%N.
    + destruct (scan_u_escape s) as [[cp r'']|] eqn:Hu; [|done].
      apply scan_u_escape_length in Hu. cbn [mbind option_bind]. apply IH; lia.
    + match goal with |- context [mbind _ ?x] => destruct x as [ch|] end; [|done].
      cbn [mbind option_bind]. apply IH; lia.
  - destruct (c <? 32)%N; [done|]. apply IH; lia.
Qed.

Lemma startswith_length p s : startswith p s = true → length p ≤ length s.
Proof.
  revert s. induction p as [|a p IH]; intros [|b s]; cbn [startswith length]; try done; try lia.
  intros [_ H]%andb_true_iff. apply IH in H. lia.
Qed.

Lemma match_number_length s v r : match_number s = Some (v, r) → length r < length s.
Proof.
  unfold match_number.
  assert (Hneg : ∃ neg s1, match expect 45 s with Some r => (true, r) | None => (false, s) end
                           = (neg, s1) ∧ length s1 ≤ length s).
  { destruct (expect 45 s) eqn:He; eexists _, _; (split; [reflexivity|]); [|lia].
    apply expect_length in He. lia. }
  destruct Hneg as (neg & s1 & -> & Hs1).
  assert (Hint : ∀ ipart s2, match s1 with
                             | c :: r =>
                                 if (c =? 48)%N then Some ([c], r)
                                 else if is_digit c then Some (take_digits s1)
                                 else None
                             | [] => None
                             end = Some (ipart, s2) → length s2 < length s1).
  { intros ipart s2. destruct s1 as [|c s1']; [discriminate|].
    destruct (c =? 48)%N; [intros [= _ <-]; cbn [length]; lia|].
    destruct (is_digit c) eqn:Hd; [|discriminate]. cbn [take_digits]. rewrite Hd.
    pose proof (take_digits_length s1') as Htd. destruct (take_digits s1') as [d r'].
    intros [= _ <-]. cbn [snd length] in *. lia. }
  match goal with |- context [mbind _ ?x] => destruct x as [[ipart s2]|] end; [|discriminate].
  specialize (Hint _ _ eq_refl). cbn [mbind option_bind].
  match goal with
  | |- context [let '(frac, s3) := ?x in _] =>
      assert (Hfrac : ∃ frac s3, x = (frac, s3) ∧ length s3 ≤ length s2)
  end.
  { destruct (expect 46 s2) as [[|d r']|] eqn:He;
      try (eexists _, _; split; [reflexivity|lia]).
    destruct (is_digit d); [|eexists _, _; split; [reflexivity|lia]].
    apply expect_length in He. pose proof (take_digits_length (d :: r')) as Htd.
    destruct (take_digits (d :: r')) as [ds r'']. eexists _, _. split; [reflexivity|].
    cbn [snd length] in *. lia. }
  destruct Hfrac as (frac & s3 & -> & Hs3).
  match goal with
  | |- context [let '(exp, s4) := ?x in _] =>
      assert (Hexp : ∃ exp s4, x = (exp, s4) ∧ length s4 ≤ length s3)
  end.
  { destruct s3 as [|e r']; [eexists _, _; split; [reflexivity|lia]|].
    destruct ((e =? 101) || (e =? 69))%N; [|eexists _, _; split; [reflexivity|lia]].
    assert (Hsign : ∃ eneg r1, match expect 45 r', expect 43 r' with
                               | Some r', _ => (true, r')
                               | None, Some r' => (false, r')
                               | None, None => (false, r')
                               end = (eneg, r1) ∧ length r1 ≤ length r').
    { destruct (expect 45 r') eqn:H1; [|destruct (expect 43 r') eqn:H2];
        eexists _, _; (split; [reflexivity|]);
        try apply expect_length in H1; try apply expect_length in H2; lia. }
    destruct Hsign as (eneg & r1 & -> & Hr1).
    pose proof (take_digits_length r1) as Htd. destruct (take_digits r1) as [[|d ds] r2];
      eexists _, _; (split; [reflexivity|]); cbn [snd length] in *; lia. }
  destruct Hexp as (exp & s4 & -> & Hs4).
  destruct frac, exp; intros [= _ <-]; lia.
Qed.
Lemma scan_length f :
  (∀ s v r, scan_once f s = Some (v, r) → length r < length s)
  ∧ (∀ s acc v r, parse_members f s acc = Some (v, r) → length r < length s)
  ∧ (∀ s acc v r, parse_elements f s acc = Some (v, r) → length r < length s).
Proof.
  induction f as [|f (IHscan & IHmem & IHelem)]; [by repeat split|].
  split; [|split].
  - intros s v r. cbn [scan_once]. destruct s as [|c s]; [discriminate|].
    destruct (c =? 34)%N.
    { destruct (scanstring _ s []) as [[k r']|] eqn:Hs; [|discriminate].
      apply scanstring_length in Hs. intros [= _ <-]. cbn [length]. lia. }
    destruct (c =? 123)%N.
    { pose proof (skip_ws_length s) as Hws_s.
      destruct (expect 125 (skip_ws s)) eqn:He.
      - apply expect_length in He. intros [= _ <-]. cbn [length]. lia.
      - intros H'. apply IHmem in H'. cbn [length]. lia. }
    destruct (c =? 91)%N.
    { pose proof (skip_ws_length s) as Hws_s.
      destruct (expect 93 (skip_ws s)) eqn:He.
      - apply expect_length in He. intros [= _ <-]. cbn [length]. lia.
      - intros H'. apply IHelem in H'. cbn [length]. lia. }
    repeat match goal with
      | |- context [if startswith ?p ?s then _ else _] =>
          destruct (startswith p s) eqn:?;
            [intros [= _ <-];
             match goal with
             | H : startswith _ _ = true |- _ => apply startswith_length in H; cbn in H
             end;
             rewrite length_drop; cbn [length] in *; lia|]
      end.
    apply match_number_length.
  - intros s acc v r. cbn [parse_members].
    destruct (expect 34 s) as [r0|] eqn:H0; [|discriminate]. apply expect_length in H0.
    cbn [mbind option_bind].
    destruct (scanstring _ r0 []) as [[k r1]|] eqn:H1; [|discriminate].
    apply scanstring_length in H1. cbn [mbind option_bind].
    pose proof (skip_ws_length r1) as Hws_r1.
    destruct (expect 58 (skip_ws r1)) as [r2|] eqn:H2; [|discriminate].
    apply expect_length in H2. cbn [mbind option_bind].
    pose proof (skip_ws_length r2) as Hws_r2.
    destruct (scan_once f (skip_ws r2)) as [[v3 r3]|] eqn:H3; [|discriminate].
    apply IHscan in H3. cbn [mbind option_bind].
    pose proof (skip_ws_length r3) as Hws_r3.
    destruct (expect 125 (skip_ws r3)) as [r4|] eqn:H4.
    + apply expect_length in H4. intros [= _ <-]. lia.
    + destruct (expect 44 (skip_ws r3)) as [r4|] eqn:H5; [|discriminate].
      apply expect_length in H5. cbn [mbind option_bind].
      pose proof (skip_ws_length r4) as Hws_r4. intros H'. apply IHmem in H'. lia.
  - intros s acc v r. cbn [parse_elements].
    destruct (scan_once f s) as [[v1 r1]|] eqn:H1; [|discriminate].
    apply IHscan in H1. cbn [mbind option_bind].
    pose proof (skip_ws_length r1) as Hws_r1.
    destruct (expect 93 (skip_ws r1)) as [r2|] eqn:H2.
    + apply expect_length in H2. intros [= _ <-]. lia.
    + destruct (expect 44 (skip_ws r1)) as [r2|] eqn:H3; [|discriminate].
      apply expect_length in H3. cbn [mbind option_bind].
      pose proof (skip_ws_length r2) as Hws_r2. intros H'. apply IHelem in H'. lia.
Qed.

(** With enough fuel the result of the scanner does not depend on the
    fuel. *)
Lemma scan_fuel n : ∀ f f',
  (∀ s, 2 * length s ≤ n → 2 * length s < f → 2 * length s < f' →
     scan_once f s = scan_once f' s)
  ∧ (∀ s acc, 2 * length s + 1 ≤ n → 2 * length s + 1 < f → 2 * length s + 1 < f' →
       parse_members f s acc = parse_members f' s acc)
  ∧ (∀ s acc, 2 * length s + 1 ≤ n → 2 * length s + 1 < f → 2 * length s + 1 < f' →
       parse_elements f s acc = parse_elements f' s acc).
Proof.
  induction n as [|n IH]; intros f f'.
  { split; [|split; intros; lia].
    intros [|c s] Hn Hf Hf'; cbn [length] in *; [|lia].
    destruct f, f'; try lia. reflexivity. }
  split; [|split].
  - intros s Hn Hf Hf'. destruct f as [|f]; [lia|]. destruct f' as [|f']; [lia|].
    cbn [scan_once]. destruct s as [|c s]; [done|]. cbn [length] in *.
    destruct (c =? 34)%N; [done|].
    pose proof (skip_ws_length s) as Hws_s.
    destruct (c =? 123)%N.
    { destruct (expect 125 (skip_ws s)); [done|]. apply IH; lia. }
    destruct (c =? 91)%N; [|done].
    destruct (expect 93 (skip_ws s)); [done|]. apply IH; lia.
  - intros s acc Hn Hf Hf'. destruct f as [|f]; [lia|]. destruct f' as [|f']; [lia|].
    cbn [parse_members].
    destruct (expect 34 s) as [r0|] eqn:H0; [|done]. apply expect_length in H0.
    cbn [mbind option_bind].
    destruct (scanstring _ r0 []) as [[k r1]|] eqn:H1; [|done].
    apply scanstring_length in H1. cbn [mbind option_bind].
    pose proof (skip_ws_length r1) as Hws_r1.
    destruct (expect 58 (skip_ws r1)) as [r2|] eqn:H2; [|done].
    apply expect_length in H2. cbn [mbind option_bind].
    pose proof (skip_ws_length r2) as Hws_r2.
    assert (Hscan : scan_once f (skip_ws r2) = scan_once f' (skip_ws r2))
      by (apply IH; lia).
    rewrite <- Hscan.
    destruct (scan_once f (skip_ws r2)) as [[v3 r3]|] eqn:H3; [|done].
    apply (proj1 (scan_length f)) in H3. cbn [mbind option_bind].
    pose proof (skip_ws_length r3) as Hws_r3.
    destruct (expect 125 (skip_ws r3)) as [r4|] eqn:H4; [done|].
    destruct (expect 44 (skip_ws r3)) as [r4|] eqn:H5; [|done].
    apply expect_length in H5. cbn [mbind option_bind].
    pose proof (skip_ws_length r4) as Hws_r4. apply IH; lia.
  - intros s acc Hn Hf Hf'. destruct f as [|f]; [lia|]. destruct f' as [|f']; [lia|].
    cbn [parse_elements].
    assert (Hscan : scan_once f s = scan_once f' s) by (apply IH; lia).
    rewrite <- Hscan.
    destruct (scan_once f s) as [[v1 r1]|] eqn:H1; [|done].
    apply (proj1 (scan_length f)) in H1. cbn [mbind option_bind].
    pose proof (skip_ws_length r1) as Hws_r1.
    destruct (expect 93 (skip_ws r1)) as [r2|] eqn:H2; [done|].
    destruct (expect 44 (skip_ws r1)) as [r2|] eqn:H3; [|done].
    apply expect_length in H3. cbn [mbind option_bind].
    pose proof (skip_ws_length r2) as Hws_r2. apply IH; lia.
Qed.

(** [json_loads] gives the scanner enough fuel. *)
Lemma json_loads_fuel s f :
  2 * length s + 2 ≤ f →
  scan_once f (skip_ws s) = scan_once (2 * length s + 2) (skip_ws s).
Proof.
  intros Hf. pose proof (skip_ws_length s) as Hws_s.
  apply (proj1 (scan_fuel (2 * length (skip_ws s)) _ _)); lia.
Qed.

Lemma utf8_decode_fuel f : ∀ f' bs,
  length bs < f → length bs < f' → utf8_decode_aux f bs = utf8_decode_aux f' bs.
Proof.
  induction f as [|f IH]; intros f' bs Hf Hf'; [lia|]. destruct f' as [|f']; [lia|].
  cbn [utf8_decode_aux]. destruct bs as [|b0 bs]; [done|]. cbn [length] in *.
  destruct (b0 <? 128)%N; [f_equal; apply IH; lia|].
  destruct ((194 <=? b0) && (b0 <=? 223))%N.
  { destruct bs as [|b1 bs]; [done|]. cbn [length] in *.
    destruct (is_cont b1); [|done]. f_equal. apply IH; lia. }
  destruct ((224 <=? b0) && (b0 <=? 239))%N.
  { destruct bs as [|b1 [|b2 bs]]; try done. cbn [length] in *.
    match goal with |- context [if ?c then _ else _] => destruct c end; [|done].
    f_equal. apply IH; lia. }
  destruct ((240 <=? b0) && (b0 <=? 244))%N; [|done].
  destruct bs as [|b1 [|b2 [|b3 bs]]]; try done. cbn [length] in *.
  match goal with |- context [if ?c then _ else _] => destruct c end; [|done].
  f_equal. apply IH; lia.
Qed.

Lemma format_file_fuel f : ∀ f' template path,
  length template < f → length template < f' →
  format_file f template path = format_file f' template path.
Proof.
  induction f as [|f IH]; intros f' template path Hf Hf'; [lia|].
  destruct f' as [|f']; [lia|]. cbn [format_file].
  destruct (startswith (lit "{file}") template) eqn:Hs.
  - apply startswith_length in Hs. f_equal. apply IH; rewrite length_drop; cbn in Hs; lia.
  - destruct template as [|c r]; [done|]. cbn [length] in *. f_equal. apply IH; lia.
Qed.
End Fuel.


(** ** Python's [==] and structural equality *)

Section PyVal_induction.
Variable P : PyVal → Prop.
Hypothesis Hnone : P PyNone.
Hypothesis Hbool : ∀ b, P (PyBool b).
Hypothesis Hint : ∀ z, P (PyInt z).
Hypothesis Hfloat : ∀ f, P (PyFloat f).
Hypothesis Hstr : ∀ s, P (PyStr s).
Hypothesis Hlist : ∀ l, Forall P l → P (PyList l).
Hypothesis Hdict : ∀ d, Forall (λ kv, P kv.2) d → P (PyDict d).

Fixpoint PyVal_nested_ind (v : PyVal) : P v :=
  match v with
  | PyNone => Hnone
  | PyBool b => Hbool b
  | PyInt z => Hint z
  | PyFloat f => Hfloat f
  | PyStr s => Hstr s
  | PyList l =>
      Hlist l ((fix items (l : list PyVal) : Forall P l :=
                  match l with
                  | [] => @List.Forall_nil _ P
                  | x :: l' => @List.Forall_cons _ P x l' (PyVal_nested_ind x) (items l')
                  end) l)
  | PyDict d =>
      Hdict d ((fix items (d : list (str * PyVal)) : Forall (λ kv, P kv.2) d :=
                  match d with
                  | [] => @List.Forall_nil _ (λ kv, P kv.2)
                  | kv :: d' => @List.Forall_cons _ (λ kv, P kv.2) kv d' (PyVal_nested_ind kv.2) (items d')
                  end) d)
  end.
End PyVal_induction.

Lemma same_nan_structurally_equal x y :
  same_nan x y = true → structurally_equal x y = true.
Proof.
  destruct x as [| | |[| |]| | |]; try discriminate.
  destruct y as [| | |[| |]| | |]; try discriminate. reflexivity.
Qed.

Lemma dict_get_no_boolean d k v :
  forallb (λ kv, no_boolean kv.2) d = true → dict_get d k = Some v → no_boolean v = true.
Proof.
  induction d as [|[k' v'] d IH]; [discriminate|]. cbn [forallb dict_get snd].
  intros [Hv Hd]%andb_true_iff. destruct (str_eqb k' k); [by intros [= <-] | by apply IH].
Qed.

(** On values without booleans, Python's [==] is structural equality,
    except that a [NaN] is not equal to itself when it is the whole value
    (inside a list or a dict the decoder's one [NaN] object is found
    identical to itself first). *)
Lemma py_eq_structural a : ∀ b,
  no_boolean a = true → no_boolean b = true →
  py_eq a b = structurally_equal a b && negb (same_nan a b).
Proof.
  induction a as [| b0 | z | f | s | la IH | da IH] using PyVal_nested_ind; intros b Ha Hb.
  - destruct b; try reflexivity.
  - discriminate.
  - destruct b as [| | z' | f' | | |]; try reflexivity; try discriminate.
    + cbn. by rewrite andb_true_r.
    + cbn. destruct f'; cbn; by rewrite ?andb_true_r.
  - destruct b as [| | z' | f' | | |]; try discriminate.
    + by destruct f.
    + destruct f; cbn; by rewrite ?andb_true_r.
    + destruct f, f'; cbn; by rewrite ?andb_true_r.
    + by destruct f.
    + by destruct f.
    + by destruct f.
  - destruct b; try reflexivity. cbn. by rewrite andb_true_r.
  - destruct b as [| | | | | lb |]; try reflexivity; try discriminate.
    cbn [py_eq structurally_equal same_nan negb]. rewrite andb_true_r.
    cbn [no_boolean] in Ha, Hb. revert lb Hb.
    induction IH as [|x la Hx _ IHla]; intros [|y lb] Hb; try reflexivity.
    cbn [forallb] in Ha, Hb.
    apply andb_true_iff in Ha as [Hax Hala]. apply andb_true_iff in Hb as [Hby Hblb].
    rewrite (Hx y Hax Hby), (IHla Hala lb Hblb).
    destruct (same_nan x y) eqn:Hnan; [|by rewrite andb_true_r].
    by rewrite (same_nan_structurally_equal _ _ Hnan).
  - destruct b as [| | | | | | db]; try reflexivity; try discriminate.
    cbn [py_eq structurally_equal same_nan negb]. rewrite andb_true_r.
    cbn [no_boolean] in Ha, Hb. f_equal.
    induction IH as [|[k v] da Hv _ IHda]; [reflexivity|].
    cbn [forallb snd] in Ha. apply andb_true_iff in Ha as [Hav Hada].
    destruct (dict_get db k) as [w|] eqn:Hget; [|reflexivity].
    cbn [snd] in Hv.
    rewrite (Hv w Hav (dict_get_no_boolean _ _ _ Hb Hget)), (IHda Hada).
    destruct (same_nan v w) eqn:Hnan; [|by rewrite andb_true_r].
    by rewrite (same_nan_structurally_equal _ _ Hnan).
Qed.


(** * Properties *)

(** ** The helpers on text and paths, on examples *)

Example strip_ex : strip (lit " 3 ") = lit "3".
Proof. reflexivity. Qed.

Example format_ex : format (lit "python3 {file}") (lit "/tmp/a.py") = lit "python3 /tmp/a.py".
Proof. reflexivity. Qed.

Example decode_ok : decode [x68; x69] = Some (lit "hi").
Proof. reflexivity. Qed.

Example decode_bad : decode [xff] = None.
Proof. reflexivity. Qed.

Example dirname_ex : dirname (lit "/tmp/tmpab12.py") = lit "/tmp".
Proof. reflexivity. Qed.

Example basename_ex : basename (lit "/tmp/tmpab12.py") = lit "tmpab12.py".
Proof. reflexivity. Qed.

Example path_join_ex : path_join (lit "/tmp") (lit "input.txt") = lit "/tmp/input.txt".
Proof. reflexivity. Qed.

(** ** [json.loads] and [==], on examples *)

Example loads_object :
  json_loads (jlit "{ 'a': 1, 'b' : [1, 2.5, true, null, 'x'] }")
  = Some (PyDict [(lit "a", PyInt 1);
                  (lit "b", PyList [PyInt 1; PyFloat (FFin (5 # 2)); PyBool true; PyNone;
                                    PyStr (lit "x")])]).
Proof. reflexivity. Qed.

Example loads_rejects :
  json_loads (lit "Hello") = None ∧ json_loads [] = None ∧ json_loads (lit "[1,]") = None
  ∧ json_loads (lit "01") = None ∧ json_loads (lit "1.") = None
  ∧ json_loads (lit "{'a': 1}") = None ∧ json_loads (lit "nan") = None.
Proof. repeat split; reflexivity. Qed.

Example loads_constants :
  json_loads (lit "NaN") = Some (PyFloat FNaN)
  ∧ json_loads (lit "-Infinity") = Some (PyFloat (FInf true))
  ∧ json_loads (lit "1e400") = Some (PyFloat (FInf false)).
Proof. repeat split; reflexivity. Qed.

Example loads_duplicate_key :
  json_loads (jlit "{'a': 1, 'b': 2, 'a': 3}")
  = Some (PyDict [(lit "a", PyInt 3); (lit "b", PyInt 2)]).
Proof. reflexivity. Qed.

Example floats_are_binary64 :
  compare_outputs (lit "0.1") (lit "0.10000000000000001") = true
  ∧ compare_outputs (lit "0.1") (lit "0.1000000000000001") = false
  ∧ compare_outputs (lit "9007199254740993") (lit "9007199254740993.0") = false
  ∧ compare_outputs (lit "1") (lit "1.0") = true.
Proof. repeat split; reflexivity. Qed.

Example nan_in_a_list : compare_outputs (lit "[NaN]") (lit "[NaN]") = true.
Proof. reflexivity. Qed.

(** ** The monad *)

Lemma bind_ret_inv {A B} (m : M A) (f : A → M B) st b st' :
  (m ≫= f) st = (Ret b, st') →
  ∃ a st1, m st = (Ret a, st1) ∧ f a st1 = (Ret b, st').
Proof.
  unfold mbind, M_bind. destruct (m st) as [[a|e|] st1]; intros H; try discriminate.
  eauto.
Qed.

Lemma execute_testcase_inv w code language testcase i timeout memory use_docker st r st' :
  execute_testcase w code language testcase i timeout memory use_docker st = (Ret r, st') →
  ∃ res,
    (if use_docker then run_code_docker w else run_code_locally w)
      code language (input testcase) timeout memory st = (Ret res, st')
    ∧ r = {| testcase_index := i;
             passed := compare_outputs (strip (output res)) (strip (expected_output testcase));
             actual_output := strip (output res);
             tr_expected_output := strip (expected_output testcase);
             tr_execution_time_ms := execution_time_ms res;
             tr_memory_used_mb := memory_used_mb res;
             tr_error := error res |}.
Proof.
  unfold execute_testcase. intros H.
  apply bind_ret_inv in H as (res & st1 & Hres & Hret).
  injection Hret as <- <-. eauto.
Qed.

(** ** The loop of [execute_code] *)

Section Loop.
Variables (w : World) (request : ExecutionRequest) (timeout memory : Z).
Variable P : nat → TestcaseInput → TestcaseResult → Prop.
Hypothesis HP : ∀ i tc st r st',
  execute_testcase w (req_code request) (req_language request) tc i timeout memory true st
    = (Ret r, st') → P i tc r.

Lemma for_testcases_inv tcs : ∀ i acc re st rs' re' st',
  for_testcases w request timeout memory i tcs acc re st = (Ret (rs', re'), st') →
  ∃ new,
    rs' = acc ++ new
    ∧ length new = length tcs
    ∧ (∀ j r, new !! j = Some r → ∃ tc, tcs !! j = Some tc ∧ P (i + j) tc r)
    ∧ re' = (if truthy re then re
             else from_option Some re (first_truthy_error new)).
Proof.
  induction tcs as [|tc tcs IH]; intros i acc re st rs' re' st' H; simpl in H.
  - injection H as <- <- <-. exists []. rewrite app_nil_r.
    repeat split; [intros j r Hj; discriminate | destruct (truthy re); reflexivity ].
  - apply bind_ret_inv in H as (r0 & st1 & Hr0 & H).
    apply IH in H as (new & -> & Hlen & Hnew & ->).
    exists (r0 :: new). rewrite <- app_assoc. simpl.
    split; [done|]. split; [by rewrite Hlen|]. split.
    + intros [|j] r Hj; simpl in Hj.
      * injection Hj as <-. exists tc. split; [done|].
        rewrite Nat.add_0_r. by eapply HP.
      * apply Hnew in Hj as (tc' & Htc' & HPj). exists tc'. split; [done|].
        by replace (i + S j)%nat with (S i + j)%nat by lia.
    + unfold first_truthy_error. rewrite filter_cons.
      destruct (truthy (tr_error r0)) eqn:Hr; destruct (truthy re) eqn:Hre; simpl.
      all: rewrite ?Hre, ?Hr; try reflexivity.
      by destruct (tr_error r0).
Qed.
End Loop.

Lemma mkstemp_path_truthy d n s :
  truthy (Some (path_join d (lit "tmp" ++ n ++ s))) = true.
Proof.
  unfold path_join. cbn [lit list_ascii_of_string List.map app startswith].
  destruct d as [|c d]; [reflexivity|].
  repeat case_match; reflexivity.
Qed.

Lemma input_path_truthy d :
  truthy (Some (path_join d (lit "input.txt"))) = true.
Proof.
  unfold path_join. cbn [lit list_ascii_of_string List.map app startswith].
  destruct d as [|c d]; [reflexivity|].
  repeat case_match; reflexivity.
Qed.

(** Symbolic execution: unfold the calls, then split on what the world
    answers. *)
Ltac unfold_calls :=
  unfold try_bound, try_finally, try_except, decode_or_raise,
    fmap, M_fmap, mbind, M_bind, mret, M_ret, mthrow, M_throw,
    mkstemp, open_w, write, unlink, exists_, subprocess_run, containers_run,
    docker_connect, tick in *.

Ltac exec_simpl :=
  progress (cbn [disk clock fst snd option_fmap option_map] in *;
            rewrite ?mkstemp_path_truthy, ?input_path_truthy,
              ?lookup_insert_eq, ?lookup_delete_eq in *).

Ltac exec_destruct :=
  match goal with
  | |- context [match ?x with _ => _ end] =>
      lazymatch x with
      | context [match _ with _ => _ end] => fail
      | _ => destruct x eqn:?
      end
  end.

Ltac exec := repeat first [exec_simpl | exec_destruct].

(** *** The files *)

Lemma remove_if_exists_Some p st :
  truthy (Some p) = true →
  remove_if_exists (Some p) st
  = (Ret (), {| disk := delete p (disk st); clock := clock st |}).
Proof.
  intros Hp. unfold remove_if_exists. rewrite Hp. unfold_calls.
  destruct (disk st !! p) eqn:Hl.
  - rewrite bool_decide_eq_true_2 by eauto. by rewrite Hl.
  - rewrite bool_decide_eq_false_2 by (by intros [? ?]).
    rewrite delete_id by done. by destruct st.
Qed.

Lemma remove_if_exists_None st : remove_if_exists None st = (Ret (), st).
Proof. reflexivity. Qed.

(** [create_solution_file] returns the path that [mkstemp] chose, with the
    file on disk, or raises and leaves no file of that name. *)
Lemma create_solution_file_spec w code language config st :
  LANGUAGE_CONFIG !! language = Some config →
  match create_solution_file w code language st with
  | (Ret p, st1) =>
      solution_path w st (extension config) = Some p
      ∧ ∃ content, disk st1 = <[p := content]> (disk st)
  | (Raise e, st1) =>
      match solution_path w st (extension config) with
      | Some p => disk st1 = delete p (disk st)
      | None => disk st1 = disk st
      end
  | (Hang, _) => False
  end.
Proof.
  intros Hcfg. unfold create_solution_file, solution_path. rewrite Hcfg.
  generalize (if str_eqb language (lit "java") &&
                 negb (contains (lit "class Solution") code)
              then lit "public class Solution {" ++ [10%N] ++ code ++ [10%N; 125%N]
              else code).
  intros content. unfold_calls.
  destruct (mkstemp_oracle w (clock st) (disk st) (extension config)) as [e|name];
    [reflexivity|].
  exec; try discriminate.
  - by rewrite delete_insert_eq.
  - split; [done|]. exists content. by rewrite insert_insert_eq.
Qed.

Lemma solution_path_truthy w st suffix p :
  solution_path w st suffix = Some p → truthy (Some p) = true.
Proof.
  unfold solution_path. destruct (mkstemp_oracle _ _ _ _); [done|].
  intros [= <-]. apply mkstemp_path_truthy.
Qed.

(** *** [run_code_locally] *)

(** The [try] block and the [except] clause: a result, with no memory
    figure, and no change on disk. *)
Lemma locally_try_spec w config input_data timeout p st :
  ∃ res st',
    try_except (locally_try w config input_data timeout p)
      (λ e, mret (error_result (str_of_exn e))) st = (Ret res, st')
    ∧ disk st' = disk st
    ∧ memory_used_mb res = 0%Q.
Proof.
  unfold locally_try. unfold_calls. cbn beta.
  exec.
  all: eexists _, _; (split; [reflexivity|]); split; reflexivity.
Qed.

Lemma run_code_locally_spec w code language input_data timeout memory st :
  ∃ res st',
    run_code_locally w code language input_data timeout memory st = (Ret res, st')
    ∧ disk st' ⊆ disk st
    ∧ (∀ config p, LANGUAGE_CONFIG !! language = Some config →
         solution_path w st (extension config) = Some p → disk st' !! p = None)
    ∧ memory_used_mb res = 0%Q.
Proof.
  unfold run_code_locally.
  destruct (LANGUAGE_CONFIG !! language) as [config|] eqn:Hcfg.
  2: { eexists _, _. split; [reflexivity|]. repeat split; done. }
  pose proof (create_solution_file_spec w code language config st Hcfg) as Hcreate.
  unfold try_bound.
  destruct (create_solution_file w code language st) as [[p|e|] st1]; [| |done].
  - destruct Hcreate as (Hp & content & Hdisk).
    destruct (locally_try_spec w config input_data timeout p st1)
      as (res & st2 & Hrun & Hdisk2 & Hmem).
    unfold try_finally. rewrite Hrun.
    rewrite remove_if_exists_Some by (by eapply solution_path_truthy).
    eexists _, _. split; [reflexivity|]. cbn [disk].
    rewrite Hdisk2, Hdisk, delete_insert_eq.
    split; [apply delete_subseteq|]. split; [|done].
    intros config' p' [= <-] Hp'. rewrite Hp in Hp'. injection Hp' as <-.
    apply lookup_delete_eq.
  - unfold try_finally, mret, M_ret. rewrite remove_if_exists_None.
    eexists _, _. split; [reflexivity|].
    destruct (solution_path w st (extension config)) as [p|] eqn:Hp; rewrite Hcreate.
    + split; [apply delete_subseteq|]. split; [|done].
      intros config' p' [= <-] Hp'. rewrite Hp in Hp'. injection Hp' as <-.
      apply lookup_delete_eq.
    + split; [done|]. split; [|done]. intros config' p' [= <-] Hp'. congruence.
Qed.

Lemma run_code_docker_fallback w code language input_data timeout memory st e :
  docker_probe w (clock st) = Some e →
  run_code_docker w code language input_data timeout memory st
  = run_code_locally w code language input_data timeout memory (tick st).
Proof.
  intros Hprobe.
  destruct (run_code_locally_spec w code language input_data timeout memory (tick st))
    as (res & st' & Hloc & _).
  unfold run_code_docker, try_except, docker_connect, fmap, M_fmap, mbind, M_bind, mret, M_ret.
  rewrite Hprobe, Hloc. reflexivity.
Qed.

(** *** [run_code_docker] *)

Lemma docker_finally_Some p st :
  truthy (Some p) = true →
  docker_finally (Some p) st
  = (Ret (), {| disk := delete (path_join (dirname p) (lit "input.txt")) (delete p (disk st));
                clock := clock st |}).
Proof.
  intros Hp. unfold docker_finally, mbind, M_bind. cbn [fmap option_fmap option_map].
  rewrite remove_if_exists_Some by done.
  rewrite remove_if_exists_Some by apply input_path_truthy. reflexivity.
Qed.

(** The [try] block and the [except] clauses: only the input file is
    touched, and a result carries no memory figure or half the limit. *)
Lemma docker_try_spec w config input_data memory p st :
  match try_except (docker_try w config input_data memory p) (docker_except w) st with
  | (o, st') =>
      (∀ q, q ≠ path_join (dirname p) (lit "input.txt") → disk st' !! q = disk st !! q)
      ∧ ∀ res, o = Ret res →
          memory_used_mb res = 0%Q ∨ memory_used_mb res = (inject_Z memory * (1 # 2))%Q
  end.
Proof.
  unfold docker_try, docker_except. unfold_calls. cbn beta.
  exec.
  all: split; [intros q Hq; rewrite ?lookup_insert_ne by done; reflexivity|].
  all: intros res [= <-]; auto.
Qed.

Lemma run_code_docker_spec w code language input_data timeout memory st o st' :
  run_code_docker w code language input_data timeout memory st = (o, st') →
  o ≠ Hang →
  disk st' ⊆ disk st
  ∧ (∀ config p, LANGUAGE_CONFIG !! language = Some config →
       solution_path w (tick st) (extension config) = Some p →
       disk st' !! p = None)
  ∧ (∀ p st1, docker_probe w (clock st) = None →
       is_Some (LANGUAGE_CONFIG !! language) →
       create_solution_file w code language (tick st) = (Ret p, st1) →
       disk st' !! path_join (dirname p) (lit "input.txt") = None)
  ∧ (∀ res, o = Ret res →
       memory_used_mb res = 0%Q ∨ memory_used_mb res = (inject_Z memory * (1 # 2))%Q).
Proof.
  destruct (docker_probe w (clock st)) as [e|] eqn:Hprobe.
  { rewrite (run_code_docker_fallback _ _ _ _ _ _ _ e Hprobe).
    destruct (run_code_locally_spec w code language input_data timeout memory (tick st))
      as (res & st1 & Hloc & Hsub & Hpath & Hmem).
    rewrite Hloc. intros [= <- <-] _. split; [done|]. split; [done|]. split; [done|].
    intros res' [= <-]. by left. }
  unfold run_code_docker, try_except at 1, docker_connect, mbind, M_bind, mret, M_ret.
  rewrite Hprobe.
  destruct (LANGUAGE_CONFIG !! language) as [config|] eqn:Hcfg.
  2: { intros [= <- <-] _. split; [done|]. split; [done|].
       split; [by intros ? ? _ [? ?]|]. intros res' [= <-]. by left. }
  pose proof (create_solution_file_spec w code language config (tick st) Hcfg) as Hcreate.
  unfold try_bound.
  destruct (create_solution_file w code language (tick st)) as [[p|e|] st1]; [| |done].
  - destruct Hcreate as (Hp & content & Hdisk).
    pose proof (docker_try_spec w config input_data memory p st1) as Htry.
    unfold try_finally.
    destruct (try_except _ _ st1) as [o2 st2]. destruct Htry as [Hframe Hmem].
    assert (Hfin := docker_finally_Some p st2 (solution_path_truthy _ _ _ _ Hp)).
    destruct o2 as [res|e|]; rewrite ?Hfin; intros [= <- <-] Hhang; try done.
    all: cbn [disk].
    all: split; [|split; [|split; [|by auto]]].
    all: try (intros config' p' [= <-] Hp'; rewrite Hp in Hp'; injection Hp' as <-;
              rewrite lookup_delete; case_decide; [done|apply lookup_delete_eq]).
    all: try (intros p' st1' _ _ [= <- <-]; apply lookup_delete_eq).
    all: apply map_subseteq_spec; intros q v; rewrite !lookup_delete;
      repeat case_decide; try done;
      rewrite Hframe by done; rewrite Hdisk, lookup_insert_ne by done; done.
  - unfold try_finally. cbn [tick disk] in Hcreate.
    assert (Hexc : ∃ o2 st2, docker_except w e st1 = (o2, st2) ∧ disk st2 = disk st1
              ∧ ∀ res, o2 = Ret res → memory_used_mb res = 0%Q).
    { unfold docker_except. unfold_calls. exec; eexists _, _; (split; [reflexivity|]).
      all: split; [reflexivity|]; intros res [= <-]; reflexivity. }
    destruct Hexc as (o2 & st2 & -> & Hd2 & Hmem).
    unfold docker_finally, mbind, M_bind. cbn [fmap option_fmap option_map].
    rewrite !remove_if_exists_None.
    destruct o2 as [res|e'|]; intros [= <- <-] Hhang; try done.
    all: rewrite Hd2.
    all: split; [|split; [|split; [done|by auto]]].
    all: destruct (solution_path w (tick st) (extension config)) as [p|] eqn:Hp.
    all: rewrite ?Hcreate; try apply delete_subseteq; try done.
    all: intros config' p' [= <-] Hp'; rewrite Hp in Hp'; try done; injection Hp' as <-.
    all: apply lookup_delete_eq.
Qed.

(** *** [execute_testcase] and [execute_code] *)

Lemma execute_testcase_ret w code language testcase i timeout memory (use_docker : bool)
    st res st' :
  (if use_docker then run_code_docker w else run_code_locally w)
    code language (input testcase) timeout memory st = (Ret res, st') →
  execute_testcase w code language testcase i timeout memory use_docker st
  = (Ret {| testcase_index := i;
            passed := compare_outputs (strip (output res)) (strip (expected_output testcase));
            actual_output := strip (output res);
            tr_expected_output := strip (expected_output testcase);
            tr_execution_time_ms := execution_time_ms res;
            tr_memory_used_mb := memory_used_mb res;
            tr_error := error res |}, st').
Proof.
  intros H. unfold execute_testcase, mbind, M_bind. by rewrite H.
Qed.

Lemma execute_code_inv w settings request st resp st' :
  execute_code w settings request st = (Ret resp, st') →
  ∃ rs re,
    for_testcases w request
      (Z.min (req_timeout_seconds request) (code_timeout_seconds settings))
      (Z.min (req_memory_limit_mb request) (code_memory_limit_mb settings))
      0 (req_testcases request) [] None st = (Ret (rs, re), st')
    ∧ resp = {| results := rs; summary := summarize rs; runtime_error := re |}.
Proof.
  unfold execute_code. intros H.
  apply bind_ret_inv in H as ([rs re] & st1 & Hloop & Hret).
  injection Hret as <- <-. eauto.
Qed.

(** One turn of the loop: after a testcase that returned, whatever it
    returned, the loop goes on with the next one. *)
Lemma for_testcases_cons w request timeout memory i tc rest acc re st r st1 :
  execute_testcase w (req_code request) (req_language request) tc i timeout memory true st
    = (Ret r, st1) →
  for_testcases w request timeout memory i (tc :: rest) acc re st
  = for_testcases w request timeout memory (S i) rest (acc ++ [r])
      (if truthy (tr_error r) && negb (truthy re) then tr_error r else re) st1.
Proof.
  intros H. simpl. unfold mbind, M_bind. by rewrite H.
Qed.

(** Where the Docker daemon never answers, every call returns. *)
Lemma execute_testcase_total_local w code language tc i timeout memory st :
  (∀ t, docker_probe w t ≠ None) →
  ∃ r st', execute_testcase w code language tc i timeout memory true st = (Ret r, st').
Proof.
  intros Hprobe.
  destruct (docker_probe w (clock st)) as [e|] eqn:He; [|by destruct (Hprobe (clock st))].
  destruct (run_code_locally_spec w code language (input tc) timeout memory (tick st))
    as (res & st' & Hloc & _).
  eexists _, st'. apply execute_testcase_ret.
  by rewrite (run_code_docker_fallback _ _ _ _ _ _ _ e He).
Qed.

Lemma for_testcases_total_local w request timeout memory tcs :
  (∀ t, docker_probe w t ≠ None) →
  ∀ i acc re st,
    ∃ rs re' st', for_testcases w request timeout memory i tcs acc re st = (Ret (rs, re'), st').
Proof.
  intros Hprobe. induction tcs as [|tc tcs IH]; intros i acc re st.
  - by eexists _, _, _.
  - destruct (execute_testcase_total_local w (req_code request) (req_language request)
                tc i timeout memory st Hprobe) as (r & st1 & Hr).
    rewrite (for_testcases_cons _ _ _ _ _ _ _ _ _ _ _ _ Hr). apply IH.
Qed.

(** *** A language without entry in [LANGUAGE_CONFIG] *)

Lemma run_code_docker_unsupported w code language input_data timeout memory st :
  LANGUAGE_CONFIG !! language = None →
  run_code_docker w code language input_data timeout memory st
  = (Ret (error_result (lit "Unsupported language: " ++ language)), tick st).
Proof.
  intros Hcfg.
  destruct (docker_probe w (clock st)) as [e|] eqn:Hprobe.
  - rewrite (run_code_docker_fallback _ _ _ _ _ _ _ e Hprobe).
    unfold run_code_locally. by rewrite Hcfg.
  - unfold run_code_docker, try_except, docker_connect, mbind, M_bind, mret, M_ret.
    by rewrite Hprobe, Hcfg.
Qed.

Lemma for_testcases_unsupported w request timeout memory tcs :
  LANGUAGE_CONFIG !! req_language request = None →
  ∀ i acc re st,
    for_testcases w request timeout memory i tcs acc re st
    = (Ret (acc ++ imap (λ j, unsupported_result (req_language request) (i + j)) tcs,
            if truthy re then re
            else match tcs with
                 | [] => re
                 | _ => Some (lit "Unsupported language: " ++ req_language request)
                 end),
       {| disk := disk st; clock := clock st + length tcs |}).
Proof.
  intros Hcfg. induction tcs as [|tc tcs IH]; intros i acc re st.
  - simpl. unfold mret, M_ret. rewrite app_nil_r, Nat.add_0_r.
    destruct st. by destruct (truthy re).
  - erewrite for_testcases_cons.
    2: { apply execute_testcase_ret. by apply run_code_docker_unsupported. }
    rewrite IH. cbn [tr_error error error_result output disk clock tick execution_time_ms
                     memory_used_mb].
    change (strip []) with (@nil N).
    change (truthy (Some (lit "Unsupported language: " ++ req_language request))) with true.
    rewrite <- app_assoc. cbn [imap app length].
    f_equal; [f_equal; apply (f_equal2 pair)|f_equal; lia].
    + f_equal. apply (f_equal2 cons).
      * unfold unsupported_result. by rewrite Nat.add_0_r.
      * apply imap_ext. intros j x _. simpl. f_equal. lia.
    + destruct (truthy re) eqn:Hre; cbn [andb negb]; rewrite ?Hre; [done|].
      by change (truthy (Some (lit "Unsupported language: " ++ req_language request)))
           with true.
Qed.

(** *** Rounding and the maximum *)

Lemma round_half_even_integer q k : (q == inject_Z k)%Q → round_half_even q = k.
Proof.
  intros Hq. unfold round_half_even.
  assert (Hfloor : Qfloor q = k) by (rewrite Hq; apply Qfloor_Z).
  rewrite Hfloor.
  assert (Hlt : (q - inject_Z k < 1 # 2)%Q) by (rewrite Hq; ring_simplify; reflexivity).
  pose proof (proj1 (Qlt_alt _ _) Hlt) as Hc.
  change (Qcompare (q - inject_Z k) (1 # 2) = Lt) in Hc. by rewrite Hc.
Qed.

(** [round(x, 2)] leaves a number with at most two decimals as it is. *)
Lemma round2_two_decimals x k : (x * 100 == inject_Z k)%Q → (round2 x == x)%Q.
Proof.
  intros Hx. unfold round2. rewrite (round_half_even_integer _ _ Hx).
  rewrite <- Hx. field.
Qed.

Lemma round2_memory_figure memory x :
  x = 0%Q ∨ x = (inject_Z memory * (1 # 2))%Q → (round2 x == x)%Q.
Proof.
  intros [-> | ->].
  - by apply (round2_two_decimals _ 0).
  - apply (round2_two_decimals _ (memory * 50)).
    rewrite inject_Z_mult. field.
Qed.

Lemma Qlt_bool_true a b : Qlt_bool a b = true ↔ (a < b)%Q.
Proof.
  unfold Qlt_bool. rewrite negb_true_iff, <- not_true_iff_false, Qle_bool_iff.
  split; [apply Qnot_le_lt | apply Qlt_not_le].
Qed.

(** The loop of [max]: the value kept is the start value or one of the
    items, and it is not below any of them. *)
Lemma Qmax_fold xs : ∀ m,
  let r := fold_left (λ m y, if Qlt_bool m y then y else m) xs m in
  (r = m ∨ r ∈ xs) ∧ (m <= r)%Q ∧ ∀ x, x ∈ xs → (x <= r)%Q.
Proof.
  induction xs as [|y xs IH]; intros m; cbn [fold_left].
  - split; [by left|]. split; [apply Qle_refl|]. intros x Hx. by apply elem_of_nil in Hx.
  - destruct (IH (if Qlt_bool m y then y else m)) as (Hin & Hle & Hall).
    destruct (Qlt_bool m y) eqn:Hlt.
    + apply Qlt_bool_true in Hlt. split; [|split].
      * right. destruct Hin as [-> | Hin]; [left | by right].
      * apply Qlt_le_weak. by eapply Qlt_le_trans.
      * intros x [-> | Hx]%elem_of_cons; [done | by apply Hall].
    + assert (Hge : (y <= m)%Q).
      { apply Qnot_lt_le. intros H. apply Qlt_bool_true in H. congruence. }
      split; [|split; [done|]].
      * destruct Hin as [-> | Hin]; [by left | right; by right].
      * intros x [-> | Hx]%elem_of_cons; [by eapply Qle_trans | by apply Hall].
Qed.

Lemma Qmax_default_spec xs d :
  match xs with
  | [] => Qmax_default xs d = d
  | _ => Qmax_default xs d ∈ xs ∧ ∀ x, x ∈ xs → (x <= Qmax_default xs d)%Q
  end.
Proof.
  destruct xs as [|y xs]; [reflexivity|]. cbn [Qmax_default].
  destruct (Qmax_fold xs y) as (Hin & Hle & Hall). split.
  - destruct Hin as [-> | Hin]; [left | by right].
  - intros x [-> | Hx]%elem_of_cons; [done | by apply Hall].
Qed.

(** The memory figure of a result of [execute_code]. *)
Lemma execute_testcase_memory w code language tc i timeout memory st r st' :
  execute_testcase w code language tc i timeout memory true st = (Ret r, st') →
  tr_memory_used_mb r = 0%Q ∨ tr_memory_used_mb r = (inject_Z memory * (1 # 2))%Q.
Proof.
  intros H. apply execute_testcase_inv in H as (res & Hres & ->). cbn [tr_memory_used_mb].
  by apply (run_code_docker_spec _ _ _ _ _ _ _ _ _ Hres).
Qed.

(** *** Timeouts and exceptions *)

Lemma python_config :
  LANGUAGE_CONFIG !! lit "python"
  = Some {| extension := lit ".py"; compile_cmd := None;
            run_cmd := lit "python3 {file}"; image := lit "python:3.11-slim" |}.
Proof. reflexivity. Qed.

Lemma format_python_run_cmd p : format (lit "python3 {file}") p = lit "python3 " ++ p.
Proof. unfold format. cbn. by rewrite app_nil_r. Qed.

(** On the local executor a run that exceeds the timeout is stopped and
    reported as such. *)
Lemma run_code_locally_stops_at_the_timeout w code input_data timeout memory st name :
  mkstemp_oracle w (clock st) (disk st) (lit ".py") = inr name →
  let p := path_join (gettempdir w) (lit "tmp" ++ name ++ lit ".py") in
  write_oracle w (S (clock st)) p code = None →
  process_exceeds
    (process_oracle w (S (S (clock st))) (<[p := code]> (<[p := []]> (disk st)))
       (lit "python3 " ++ p) (Some input_data)) timeout →
  ∃ st',
    run_code_locally w code (lit "python") input_data timeout memory st
    = (Ret {| output := [];
              execution_time_ms := inject_Z (timeout * 1000);
              memory_used_mb := 0;
              error := Some (lit "Time limit exceeded");
              timed_out := true |}, st').
Proof.
  intros Hname p Hwrite Hexceeds.
  assert (Hcreate : create_solution_file w code (lit "python") st
                    = (Ret p, {| disk := <[p := code]> (<[p := []]> (disk st));
                                 clock := S (S (clock st)) |})).
  { unfold create_solution_file. rewrite python_config.
    change (str_eqb (lit "python") (lit "java")) with false. cbn [andb extension].
    unfold_calls. rewrite Hname. fold p. cbn [disk clock]. by rewrite Hwrite. }
  set (st1 := {| disk := <[p := code]> (<[p := []]> (disk st)); clock := S (S (clock st)) |})
    in *.
  assert (Hrun : try_except
                   (locally_try w {| extension := lit ".py"; compile_cmd := None;
                                     run_cmd := lit "python3 {file}";
                                     image := lit "python:3.11-slim" |}
                      input_data timeout p)
                   (λ e, mret (error_result (str_of_exn e))) st1
                 = (Ret {| output := [];
                           execution_time_ms := inject_Z (timeout * 1000);
                           memory_used_mb := 0;
                           error := Some (lit "Time limit exceeded");
                           timed_out := true |}, tick st1)).
  { unfold locally_try. cbn [extension compile_cmd run_cmd truthy].
    rewrite format_python_run_cmd.
    unfold_calls. cbn [disk clock st1]. unfold process_exceeds in Hexceeds.
    destruct (process_oracle _ _ _ _ _) as [ms rc out err| |e]; [| |done].
    - by rewrite Hexceeds.
    - done. }
  unfold run_code_locally. rewrite python_config.
  unfold try_bound. rewrite Hcreate. unfold try_finally. rewrite Hrun.
  rewrite remove_if_exists_Some by apply mkstemp_path_truthy.
  by eexists.
Qed.

(** The [except] clauses of [run_code_docker] raise in one case only: a
    [ContainerError] whose [stderr] is not valid UTF-8. *)
Lemma docker_except_raises w e st e' st' :
  docker_except w e st = (Raise e', st') →
  ∃ err msg, e = ContainerError (Some err) msg ∧ decode err = None.
Proof.
  unfold docker_except, mbind, M_bind, mret, M_ret.
  destruct e as [| |err msg| |]; try (intros H; discriminate H).
  destruct (truthy_bytes err) eqn:Ht; [|intros H; discriminate H].
  destruct err as [err|]; [|discriminate Ht].
  change (default [] (Some err)) with err.
  unfold decode_or_raise.
  destruct (decode err) eqn:Hd; unfold mret, M_ret, mthrow, M_throw; cbv beta iota;
    [intros H; discriminate H|]. eauto.
Qed.

(** On the containerized path no result is ever flagged as timed out:
    [timeout_seconds] is not used there. *)
Lemma docker_try_never_times_out w config input_data memory p st res st' :
  try_except (docker_try w config input_data memory p) (docker_except w) st = (Ret res, st') →
  timed_out res = false.
Proof.
  unfold docker_try, docker_except. unfold_calls. cbn beta.
  exec; intros [= <- _]; reflexivity.
Qed.

Lemma run_code_docker_never_times_out w code language input_data timeout memory st res st' :
  docker_probe w (clock st) = None →
  run_code_docker w code language input_data timeout memory st = (Ret res, st') →
  timed_out res = false.
Proof.
  intros Hprobe.
  unfold run_code_docker, try_except at 1, docker_connect, mbind, M_bind, mret, M_ret.
  rewrite Hprobe.
  destruct (LANGUAGE_CONFIG !! language) as [config|] eqn:Hcfg; [|by intros [= <- _]].
  unfold try_bound.
  destruct (create_solution_file w code language (tick st)) as [[p|e|] st1] eqn:Hcreate;
    [| |done].
  - unfold try_finally.
    destruct (try_except _ _ st1) as [[res2|e2|] st2] eqn:Htry; [| |done].
    + apply docker_try_never_times_out in Htry.
      destruct (docker_finally _ st2) as [[[]|e3|] st3]; intros [= <- _]; done.
    + destruct (docker_finally _ st2) as [[[]|e3|] st3]; intros [= <- _]; done.
  - unfold try_finally.
    destruct (docker_except w e st1) as [[res2|e2|] st2] eqn:Hexc.
    + assert (timed_out res2 = false).
      { revert Hexc. unfold docker_except. unfold_calls. exec; intros [= <- _]; reflexivity. }
      destruct (docker_finally _ st2) as [[[]|e3|] st3]; intros [= <- _]; done.
    + destruct (docker_finally _ st2) as [[[]|e3|] st3]; intros [= <- _]; done.
    + done.
Qed.

(** *** After the probe *)




(** * The claims *)

(** C1 fails on the containerized path, which never uses the timeout: a
    container that runs for 60 s under a timeout of 1 s is waited for and
    its result is an ordinary one, with [timed_out] false, no error and a
    duration of 60000 ms; a container that never stops is waited for
    forever. *)
Theorem C1_docker_run_is_not_stopped_at_the_timeout :
  container_exceeds (CExits 60000 0 (Some [x6f; x6b; x0a]) None []) 1
  ∧ (∃ st',
       run_code_docker slow_docker_host (lit "import time") (lit "python") [] 1 128
         empty_state
       = (Ret {| output := lit "ok";
                 execution_time_ms := 60000;
                 memory_used_mb := (inject_Z 128 * (1 # 2))%Q;
                 error := None;
                 timed_out := false |}, st'))
  ∧ (run_code_docker looping_docker_host (lit "while True: pass") (lit "python") [] 1 128
       empty_state).1 = Hang.
Proof.
  split; [reflexivity|]. split; [eexists; vm_compute; reflexivity|].
  vm_compute. reflexivity.
Qed.

(** C2, as amended.  The outputs are trimmed; when [json.loads] accepts
    both (it also accepts [NaN], [Infinity] and [-Infinity]), the testcase
    passes iff the two values are equal under Python's [==]; when it
    rejects one of them, the testcase passes iff the trimmed strings are
    equal.  Python's [==] is structural equality as long as neither value
    contains a boolean and the two values are not both [NaN].  So the
    object with the keys [a], [b] equals the one with the keys [b], [a],
    and [Hello] differs from [hello]. *)
Theorem C2_passed_is_python_equality_or_string_equality
    w code language tc i timeout memory (use_docker : bool) st r st' :
  execute_testcase w code language tc i timeout memory use_docker st = (Ret r, st') →
  (∃ res, (if use_docker then run_code_docker w else run_code_locally w)
            code language (input tc) timeout memory st = (Ret res, st')
          ∧ actual_output r = strip (output res))
  ∧ tr_expected_output r = strip (expected_output tc)
  ∧ passed r = match json_loads (actual_output r), json_loads (tr_expected_output r) with
               | Some x, Some y => py_eq x y
               | _, _ => str_eqb (actual_output r) (tr_expected_output r)
               end
  ∧ (∀ x y, json_loads (actual_output r) = Some x →
            json_loads (tr_expected_output r) = Some y →
            no_boolean x = true → no_boolean y = true → same_nan x y = false →
            passed r = structurally_equal x y)
  ∧ compare_outputs (strip (jlit "{'a': 1, 'b': 2}")) (strip (jlit "{'b': 2, 'a': 1}")) = true
  ∧ compare_outputs (strip (lit "Hello")) (strip (lit "hello")) = false.
Proof.
  intros H. apply execute_testcase_inv in H as (res & Hres & ->).
  cbn [actual_output tr_expected_output passed].
  split; [by exists res|]. split; [done|].
  assert (Hcmp : compare_outputs (strip (output res)) (strip (expected_output tc))
                 = match json_loads (strip (output res)),
                         json_loads (strip (expected_output tc)) with
                   | Some x, Some y => py_eq x y
                   | _, _ => str_eqb (strip (output res)) (strip (expected_output tc))
                   end).
  { unfold compare_outputs.
    destruct (json_loads (strip (output res))) as [x|]; [|done].
    by destruct (json_loads (strip (expected_output tc))) as [y|]. }
  split; [exact Hcmp|]. split; [|split; reflexivity].
  intros x y Hx Hy Hbx Hby Hnan. rewrite Hcmp, Hx, Hy.
  rewrite (py_eq_structural x y Hbx Hby), Hnan. apply andb_true_r.
Qed.

Lemma C2_witness :
  ∃ r st',
    execute_testcase local_host (lit "import sys") (lit "python")
      (testcase (lit "1") (jlit "{'b': 2, 'a': 1}")) 0 2 128 true empty_state = (Ret r, st')
    ∧ passed r = true.
Proof.
  destruct (execute_testcase local_host (lit "import sys") (lit "python")
              (testcase (lit "1") (jlit "{'b': 2, 'a': 1}")) 0 2 128 true empty_state)
    as [o st'] eqn:H.
  assert (Ho : ∃ r, o = Ret r ∧ json_loads (actual_output r) = Some (PyDict [(lit "a", PyInt 1); (lit "b", PyInt 2)])
                    ∧ json_loads (tr_expected_output r) = Some (PyDict [(lit "b", PyInt 2); (lit "a", PyInt 1)])).
  { vm_compute in H. injection H as <- _. eexists. repeat split; reflexivity. }
  destruct Ho as (r & -> & Ha & He).
  exists r, st'. split; [done|].
  destruct (C2_passed_is_python_equality_or_string_equality _ _ _ _ _ _ _ _ _ _ _ H)
    as (_ & _ & -> & _).
  rewrite Ha, He. reflexivity.
Defined.

(** C2, as stated, fails: a program that prints [NaN] for a testcase that
    expects [NaN] produces the expected output, both texts parse, the two
    values are structurally equal and the two trimmed strings are equal,
    and the testcase is reported as failed. *)
Lemma C2_counterexample :
  ∃ r st',
    execute_testcase local_host (lit "import sys") (lit "python")
      (testcase (lit "5") (lit "NaN")) 0 2 128 true empty_state = (Ret r, st')
    ∧ actual_output r = lit "NaN"
    ∧ tr_expected_output r = lit "NaN"
    ∧ spec_compare (actual_output r) (tr_expected_output r) = true
    ∧ passed r = false.
Proof. eexists _, _. split; [vm_compute; reflexivity|]. repeat split. Qed.

(** Another pair on which Python's [==] is not structural equality: the
    boolean [true] equals the number [1]. *)
Example true_equals_one :
  compare_outputs (strip (lit "true")) (strip (lit "1")) = true
  ∧ spec_compare (lit "true") (lit "1") = false.
Proof. split; reflexivity. Qed.




(** C4. For a request with n testcases, the results returned are n, the
    result at position i carries index i and belongs to the testcase at
    position i of the request, whatever passed or failed; and where the
    Docker daemon does not answer, so that every testcase runs on the local
    executor, a response is returned. *)
Theorem C4_results_follow_the_testcases w settings request st :
  (∀ resp st', execute_code w settings request st = (Ret resp, st') →
     length (results resp) = length (req_testcases request)
     ∧ ∀ i r, results resp !! i = Some r →
         testcase_index r = i
         ∧ ∃ tc, req_testcases request !! i = Some tc
                 ∧ tr_expected_output r = strip (expected_output tc))
  ∧ ((∀ t, docker_probe w t ≠ None) →
     ∃ resp st', execute_code w settings request st = (Ret resp, st')).
Proof.
  split.
  - intros resp st' H.
    apply execute_code_inv in H as (rs & re & Hloop & ->). cbn [results].
    eapply (for_testcases_inv _ _ _ _
              (λ i tc r, testcase_index r = i
                         ∧ tr_expected_output r = strip (expected_output tc)))
      in Hloop as (new & -> & Hlen & Hnew & _).
    + split; [done|]. intros i r Hi. cbn [app] in Hi.
      apply Hnew in Hi as (tc & Htc & Hidx & Hexp). eauto.
    + intros i tc st0 r st0' Hr.
      apply execute_testcase_inv in Hr as (res & _ & ->). done.
  - intros Hprobe. unfold execute_code, mbind, M_bind.
    edestruct for_testcases_total_local as (rs & re & st' & ->); [done|].
    by eexists _, _. 
Qed.

Lemma C4_witness :
  let request := sample_request [testcase (lit "1") (jlit "{'b': 2, 'a': 1}");
                                 testcase (lit "2") (lit "never");
                                 testcase (lit "4") (lit "x")] in
  length (results (response_of (execute_code local_host default_settings request empty_state)))
  = 3%nat.
Proof.
  intros request.
  pose proof (C4_results_follow_the_testcases local_host default_settings request empty_state)
    as [Hres Htotal].
  assert (Hprobe : ∀ t, docker_probe local_host t ≠ None) by (intros t; discriminate).
  destruct (Htotal Hprobe) as (resp & st' & Hresp).
  destruct (Hres resp st' Hresp) as [Hlen _].
  unfold response_of. rewrite Hresp. exact Hlen.
Defined.

(** C5 fails on the containerized path: when the program exits with a
    non-zero status after writing bytes that are not UTF-8 to its error
    stream, the [except] clause for [ContainerError] raises
    [UnicodeDecodeError] while it decodes them, and the exception leaves
    [run_code_docker] and [execute_code]. *)
Theorem C5_docker_raises_on_undecodable_stderr :
  ∃ msg st',
    run_code_docker bad_stderr_host (lit "import sys") (lit "python") [] 10 256 empty_state
    = (Raise (UnicodeDecodeError msg), st')
    ∧ (execute_code bad_stderr_host default_settings
         {| req_code := lit "import sys"; req_language := lit "python";
            req_testcases := [testcase [] (lit "1")];
            req_timeout_seconds := 10; req_memory_limit_mb := 256 |} empty_state).1
      = Raise (UnicodeDecodeError msg).
Proof.
  eexists _, _. split; vm_compute; reflexivity.
Qed.

(** C6, as amended.  [execute_code] does not reject a request whose
    language has no entry in [LANGUAGE_CONFIG]: it answers it, every
    testcase gets its own result, with the error [Unsupported language:
    <id>], an empty output, no duration and no memory figure, and that
    error is the submission-level one.  No file is created and neither a
    process nor a container is started: the only calls made are the probes
    of the Docker daemon, one per testcase. *)
Theorem C6_unsupported_language_fails_each_testcase w settings request st :
  LANGUAGE_CONFIG !! req_language request = None →
  ∃ resp st',
    execute_code w settings request st = (Ret resp, st')
    ∧ results resp
      = imap (unsupported_result (req_language request)) (req_testcases request)
    ∧ runtime_error resp
      = match req_testcases request with
        | [] => None
        | _ => Some (lit "Unsupported language: " ++ req_language request)
        end
    ∧ disk st' = disk st
    ∧ clock st' = (clock st + length (req_testcases request))%nat.
Proof.
  intros Hcfg. unfold execute_code, mbind, M_bind.
  rewrite for_testcases_unsupported by done.
  eexists _, _. split; [reflexivity|]. cbn [results runtime_error disk clock app truthy].
  repeat split.
Qed.

Lemma C6_witness :
  let request := {| req_code := lit "int main() {}"; req_language := lit "cpp";
                    req_testcases := [testcase (lit "1") (lit "1"); testcase (lit "2") (lit "")];
                    req_timeout_seconds := 10; req_memory_limit_mb := 256 |} in
  valid_request request = true
  ∧ ∃ resp st',
      execute_code docker_host default_settings request empty_state = (Ret resp, st')
      ∧ passed <$> results resp = [false; true]
      ∧ runtime_error resp = Some (lit "Unsupported language: cpp").
Proof.
  intros request. split; [reflexivity|].
  destruct (C6_unsupported_language_fails_each_testcase docker_host default_settings
              request empty_state eq_refl)
    as (resp & st' & Hresp & Hresults & Herror & _).
  exists resp, st'. split; [exact Hresp|]. rewrite Hresults, Herror. split; reflexivity.
Defined.

(** C6, as stated, fails: [java] is a language id that the request schema
    admits and that has no entry in [LANGUAGE_CONFIG]; the request is not
    rejected, both of its testcases get a result of their own. *)
Lemma C6_counterexample :
  let request := {| req_code := lit "class Solution {}"; req_language := lit "java";
                    req_testcases := [testcase (lit "1") (lit "1"); testcase (lit "2") (lit "2")];
                    req_timeout_seconds := 10; req_memory_limit_mb := 256 |} in
  valid_request request = true
  ∧ LANGUAGE_CONFIG !! req_language request = None
  ∧ ∃ resp st',
      execute_code local_host default_settings request empty_state = (Ret resp, st')
      ∧ length (results resp) = 2%nat
      ∧ tr_error <$> results resp
        = [Some (lit "Unsupported language: java"); Some (lit "Unsupported language: java")].
Proof.
  intros request. split; [reflexivity|]. split; [reflexivity|].
  eexists _, _. split; [vm_compute; reflexivity|]. split; reflexivity.
Qed.

(** C7, as amended.  The submission-level error is the first per-case
    error, in testcase order, that is neither null nor the empty string;
    later errors never replace it and it is null when there is none.  It
    is the first non-null per-case error whenever no per-case error is the
    empty string. *)
Theorem C7_runtime_error_is_first_nonempty_error w settings request st resp st' :
  execute_code w settings request st = (Ret resp, st') →
  runtime_error resp = first_truthy_error (results resp)
  ∧ ((∀ r, r ∈ results resp → tr_error r ≠ Some []) →
     runtime_error resp = first_non_null_error (results resp)).
Proof.
  intros H. apply execute_code_inv in H as (rs & re & Hloop & ->).
  cbn [results runtime_error].
  eapply (for_testcases_inv _ _ _ _ (λ _ _ _, True)) in Hloop
    as (new & -> & _ & _ & ->); [|done].
  cbn [app truthy]. assert (Hfirst : from_option Some None (first_truthy_error new)
                                     = first_truthy_error new) by (by destruct first_truthy_error).
  rewrite Hfirst. clear Hfirst. split; [done|].
  intros Hne. unfold first_truthy_error.
  induction new as [|r new IH]; [done|].
  rewrite filter_cons. cbn [first_non_null_error].
  destruct (tr_error r) as [[|c e]|] eqn:Hr; cbn [truthy].
  - by destruct (Hne r (list_elem_of_here _ _)).
  - rewrite decide_True by done. by rewrite Hr.
  - rewrite decide_False by done. apply IH. intros r' Hr'. apply Hne. by right.
Qed.

Lemma C7_witness :
  let request := sample_request [testcase (lit "1") (lit "x"); testcase (lit "4") (lit "x");
                                 testcase (lit "2") (lit "x")] in
  runtime_error (response_of (execute_code local_host default_settings request empty_state))
  = Some (lit "boom").
Proof.
  intros request.
  destruct (execute_code local_host default_settings request empty_state) as [o st'] eqn:H.
  assert (Ho : ∃ resp, o = Ret resp ∧ first_truthy_error (results resp) = Some (lit "boom")).
  { vm_compute in H. injection H as <- _. eexists. split; reflexivity. }
  destruct Ho as (resp & -> & Hfirst).
  unfold response_of. cbn [fst].
  rewrite (proj1 (C7_runtime_error_is_first_nonempty_error _ _ _ _ _ _ H)). exact Hfirst.
Defined.

(** C7, as stated, fails: the first testcase fails with a blank line on
    its error stream, which gives it the empty string as error; the
    second fails with a message.  The submission-level error is that
    message, not the first non-null per-case error. *)
Lemma C7_counterexample :
  let request := sample_request [testcase (lit "3") (lit "x"); testcase (lit "4") (lit "x")] in
  let resp := response_of (execute_code local_host default_settings request empty_state) in
  tr_error <$> results resp = [Some []; Some (lit "boom")]
  ∧ first_non_null_error (results resp) = Some []
  ∧ runtime_error resp = Some (lit "boom").
Proof. vm_compute. repeat split. Qed.

(** C8, as amended.  In the summary of a response, [passed] counts the
    results that passed, [failed] is [total - passed], [total] is the
    number of testcases, [avg_execution_time_ms] is the arithmetic mean of
    the durations rounded to two decimals, and [max_memory_mb] is the
    greatest of the memory figures (none for an empty batch, then it is
    0). *)
Theorem C8_summary_of_the_results w settings request st resp st' :
  execute_code w settings request st = (Ret resp, st') →
  let rs := results resp in
  let s := summary resp in
  sum_passed s = Z.of_nat (length (filter (λ r, passed r = true) rs))
  ∧ sum_failed s = sum_total s - sum_passed s
  ∧ sum_total s = Z.of_nat (length (req_testcases request))
  ∧ avg_execution_time_ms s = round2 (mean (tr_execution_time_ms <$> rs))
  ∧ match tr_memory_used_mb <$> rs with
    | [] => (max_memory_mb s == 0)%Q
    | mems => ∃ m, m ∈ mems ∧ (max_memory_mb s == m)%Q ∧ ∀ x, x ∈ mems → (x <= m)%Q
    end.
Proof.
  intros H rs s. subst rs s.
  apply execute_code_inv in H as (rs & re & Hloop & ->). cbn [results summary].
  eapply (for_testcases_inv _ _ _ _
            (λ _ _ r, tr_memory_used_mb r = 0%Q
                      ∨ tr_memory_used_mb r
                        = (inject_Z (Z.min (req_memory_limit_mb request)
                                       (code_memory_limit_mb settings)) * (1 # 2))%Q))
    in Hloop as (new & -> & Hlen & Hnew & _).
  2: { intros i tc st0 r st0' Hr. by eapply execute_testcase_memory. }
  cbn [app]. unfold summarize.
  cbn [sum_passed sum_failed sum_total avg_execution_time_ms max_memory_mb].
  split; [done|]. split; [done|]. split; [by rewrite Hlen|]. split.
  - destruct new as [|r new]; [done|]. unfold mean. rewrite fmap_cons.
    rewrite <- (fmap_cons tr_execution_time_ms). by rewrite (length_fmap _ (r :: new)).
  - destruct (tr_memory_used_mb <$> new) as [|x xs] eqn:Hmems; [reflexivity|].
    destruct (Qmax_default_spec (x :: xs) 0%Q) as [Hin Hall].
    exists (Qmax_default (x :: xs) 0%Q). split; [done|]. split; [|done].
    assert (Hin' : Qmax_default (x :: xs) 0%Q ∈ tr_memory_used_mb <$> new)
      by (by rewrite Hmems).
    apply list_elem_of_fmap in Hin' as (r & Hr & Hin').
    apply list_elem_of_lookup in Hin' as (j & Hj).
    apply Hnew in Hj as (tc & _ & Hmem). rewrite Hr.
    by eapply round2_memory_figure.
Qed.

Lemma C8_witness :
  let request := sample_request [testcase (lit "1") (jlit "{'b': 2, 'a': 1}");
                                 testcase (lit "2") (lit "never");
                                 testcase (lit "3") (lit "x")] in
  avg_execution_time_ms
    (summary (response_of (execute_code local_host default_settings request empty_state)))
  = (67067 # 100)%Q.
Proof.
  intros request.
  destruct (execute_code local_host default_settings request empty_state) as [o st'] eqn:H.
  assert (Ho : ∃ resp, o = Ret resp
                       ∧ round2 (mean (tr_execution_time_ms <$> results resp))
                         = (67067 # 100)%Q).
  { vm_compute in H. injection H as <- _. eexists. split; reflexivity. }
  destruct Ho as (resp & -> & Hmean).
  unfold response_of. cbn [fst].
  destruct (C8_summary_of_the_results _ _ _ _ _ _ H) as (_ & _ & _ & Havg & _).
  rewrite Havg. exact Hmean.
Defined.

(** C8, as stated, fails: three testcases that run for 5 ms, 2000 ms (the
    timeout) and 7 ms have a mean duration of 2012/3 ms, and the summary
    says 670.67. *)
Lemma C8_counterexample :
  let request := sample_request [testcase (lit "1") (jlit "{'b': 2, 'a': 1}");
                                 testcase (lit "2") (lit "never");
                                 testcase (lit "3") (lit "x")] in
  let resp := response_of (execute_code local_host default_settings request empty_state) in
  (mean (tr_execution_time_ms <$> results resp) == 2012 # 3)%Q
  ∧ (avg_execution_time_ms (summary resp) == 67067 # 100)%Q
  ∧ ¬ (avg_execution_time_ms (summary resp) == mean (tr_execution_time_ms <$> results resp))%Q.
Proof. vm_compute. repeat split; discriminate. Qed.

(** C9.  After [run_code_locally] has returned, and after
    [run_code_docker] has returned or raised, every file on disk was there
    before the call, with the same content, and the path of the source
    file is free; on the containerized path the path of the input file is
    free as well once the source file had been written. *)
Theorem C9_no_file_is_left w code language input_data timeout memory st :
  (∀ o st', run_code_locally w code language input_data timeout memory st = (o, st') →
     (∃ res, o = Ret res)
     ∧ disk st' ⊆ disk st
     ∧ ∀ config p, LANGUAGE_CONFIG !! language = Some config →
         solution_path w st (extension config) = Some p → disk st' !! p = None)
  ∧ (∀ o st', run_code_docker w code language input_data timeout memory st = (o, st') →
       o ≠ Hang →
       disk st' ⊆ disk st
       ∧ (∀ config p, LANGUAGE_CONFIG !! language = Some config →
            solution_path w (tick st) (extension config) = Some p → disk st' !! p = None)
       ∧ (∀ p st1, docker_probe w (clock st) = None →
            is_Some (LANGUAGE_CONFIG !! language) →
            create_solution_file w code language (tick st) = (Ret p, st1) →
            disk st' !! path_join (dirname p) (lit "input.txt") = None)).
Proof.
  split.
  - intros o st' H.
    destruct (run_code_locally_spec w code language input_data timeout memory st)
      as (res & st1 & Hloc & Hsub & Hpath & _).
    rewrite Hloc in H. injection H as <- <-. eauto.
  - intros o st' H Hhang.
    destruct (run_code_docker_spec _ _ _ _ _ _ _ _ _ H Hhang) as (Hsub & Hpath & Hinput & _).
    done.
Qed.

Lemma C9_witness :
  ∃ res st',
    run_code_docker docker_host (lit "print('ok')") (lit "python") (lit "7") 2 128 busy_state
    = (Ret res, st')
    ∧ output res = lit "ok"
    ∧ disk st' ⊆ disk busy_state
    ∧ disk st' !! lit "/tmp/tmpk3v9x_qa.py" = None
    ∧ disk st' !! lit "/tmp/input.txt" = None.
Proof.
  destruct (run_code_docker docker_host (lit "print('ok')") (lit "python") (lit "7") 2 128
              busy_state) as [o st'] eqn:H.
  assert (Ho : ∃ res, o = Ret res ∧ output res = lit "ok").
  { vm_compute in H. injection H as <- _. eexists. split; reflexivity. }
  destruct Ho as (res & -> & Hout).
  destruct (C9_no_file_is_left docker_host (lit "print('ok')") (lit "python") (lit "7") 2 128
              busy_state) as [_ Hdocker].
  destruct (Hdocker _ _ H) as (Hsub & Hpath & Hinput); [done|].
  exists res, st'. split; [done|]. split; [done|]. split; [done|]. split.
  - eapply Hpath; reflexivity.
  - eapply (Hinput (lit "/tmp/tmpk3v9x_qa.py")); [reflexivity|by eexists|].
    vm_compute. reflexivity.
Defined.

(** C10.  Whether a testcase passed is decided by the comparison of the
    two outputs alone; the error of the run is copied next to it.  So a
    run that ends with an error and an empty output, a timeout for
    instance, passes a testcase whose expected output trims to the empty
    string, and the result carries the error. *)
Theorem C10_passed_ignores_the_error
    w code language tc i timeout memory (use_docker : bool) st r st' :
  execute_testcase w code language tc i timeout memory use_docker st = (Ret r, st') →
  ∃ res,
    (if use_docker then run_code_docker w else run_code_locally w)
      code language (input tc) timeout memory st = (Ret res, st')
    ∧ passed r = compare_outputs (strip (output res)) (strip (expected_output tc))
    ∧ tr_error r = error res
    ∧ (strip (expected_output tc) = [] → strip (output res) = [] → passed r = true).
Proof.
  intros H. apply execute_testcase_inv in H as (res & Hres & ->).
  exists res. cbn [passed tr_error]. repeat split; try done.
  intros -> ->. reflexivity.
Qed.

Lemma C10_witness :
  ∃ r st',
    execute_testcase local_host (lit "import sys") (lit "python")
      (testcase (lit "2") (lit " ")) 0 2 128 true empty_state = (Ret r, st')
    ∧ passed r = true
    ∧ tr_error r = Some (lit "Time limit exceeded").
Proof.
  destruct (execute_testcase local_host (lit "import sys") (lit "python")
              (testcase (lit "2") (lit " ")) 0 2 128 true empty_state) as [o st'] eqn:H.
  assert (Ho : ∃ r, o = Ret r) by (vm_compute in H; injection H as <- _; by eexists).
  destruct Ho as (r & ->). exists r, st'. split; [done|].
  destruct (C10_passed_ignores_the_error _ _ _ _ _ _ _ _ _ _ _ H)
    as (res & Hres & Hpassed & Herr & Hempty).
  assert (Hr : strip (output res) = [] ∧ error res = Some (lit "Time limit exceeded")).
  { vm_compute in Hres. injection Hres as <- _. split; reflexivity. }
  destruct Hr as [Hout Herror]. split; [by apply Hempty|]. by rewrite Herr.
Defined.

(** * Further properties of the execution core *)

(** ** [str.strip] *)

Lemma lstrip_split s : ∃ ws, spaces ws ∧ s = ws ++ lstrip s.
Proof.
  induction s as [|c s (ws & Hws & IH)]; [exists []; split; [constructor|done]|].
  simpl. destruct (isspace c) eqn:Hc.
  - exists (c :: ws). split; [by apply Forall_cons|]. simpl. by rewrite <- IH.
  - exists []. split; [constructor|done].
Qed.

Lemma lstrip_spaces ws s : spaces ws → lstrip (ws ++ s) = lstrip s.
Proof. induction 1 as [|c ws Hc _ IH]; [done|]. simpl. by rewrite Hc. Qed.

Lemma lstrip_head s c r : lstrip s = c :: r → isspace c = false.
Proof.
  induction s as [|x s IH]; [done|]. simpl.
  destruct (isspace x) eqn:Hx; [done|]. by intros [= <- <-].
Qed.

Lemma lstrip_fixed s : match s with [] => True | c :: _ => isspace c = false end →
  lstrip s = s.
Proof. destruct s as [|c s]; [done|]. simpl. by intros ->. Qed.

Lemma lstrip_idem s : lstrip (lstrip s) = lstrip s.
Proof.
  apply lstrip_fixed. destruct (lstrip s) as [|c r] eqn:H; [done|]. by eapply lstrip_head.
Qed.

Lemma lstrip_app s t :
  lstrip (s ++ t) = match lstrip s with [] => lstrip t | _ => lstrip s ++ t end.
Proof.
  induction s as [|c s IH]; simpl; [by destruct (lstrip t)|].
  destruct (isspace c); [done|reflexivity].
Qed.

Lemma rstrip_split s : ∃ ws, spaces ws ∧ s = rstrip s ++ ws.
Proof.
  unfold rstrip. destruct (lstrip_split (rev s)) as (ws & Hws & H).
  exists (rev ws). split; [by apply Forall_rev|].
  by rewrite <- rev_app_distr, <- H, rev_involutive.
Qed.

Lemma rstrip_spaces s ws : spaces ws → rstrip (s ++ ws) = rstrip s.
Proof.
  intros Hws. unfold rstrip. rewrite rev_app_distr, lstrip_spaces; [done|].
  by apply Forall_rev.
Qed.

Lemma rstrip_idem s : rstrip (rstrip s) = rstrip s.
Proof. unfold rstrip. by rewrite rev_involutive, lstrip_idem. Qed.

Lemma rstrip_last s init c : rstrip s = init ++ [c] → isspace c = false.
Proof.
  unfold rstrip. intros H. apply (f_equal (@rev N)) in H.
  rewrite rev_involutive, rev_app_distr in H. simpl in H. by eapply lstrip_head.
Qed.

(** The first character of a stripped string is one of the string after
    its left strip, so it is no white space. *)
Lemma strip_head s c r : strip s = c :: r → isspace c = false.
Proof.
  unfold strip. intros H.
  destruct (rstrip_split (lstrip s)) as (ws & _ & Hs). rewrite H in Hs.
  by eapply lstrip_head.
Qed.

Lemma strip_last s init c : strip s = init ++ [c] → isspace c = false.
Proof. apply rstrip_last. Qed.

Lemma strip_idem s : strip (strip s) = strip s.
Proof.
  unfold strip at 1. rewrite lstrip_fixed.
  - unfold strip. apply rstrip_idem.
  - destruct (strip s) as [|c r] eqn:H; [done|]. by eapply strip_head.
Qed.

Lemma strip_padding ws1 s ws2 :
  spaces ws1 → spaces ws2 → strip (ws1 ++ s ++ ws2) = strip s.
Proof.
  intros H1 H2. unfold strip. rewrite lstrip_spaces by done. rewrite lstrip_app.
  destruct (lstrip s) as [|c r] eqn:Hs.
  - destruct (lstrip_split ws2) as (ws & Hws & Hsplit).
    assert (Hall : lstrip ws2 = []).
    { destruct (lstrip ws2) as [|x l] eqn:Hl; [done|].
      pose proof (lstrip_head _ _ _ Hl) as Hx.
      rewrite Hsplit in H2. apply Forall_app in H2 as [_ H2].
      apply Forall_cons in H2 as [H2 _]. congruence. }
    by rewrite Hall.
  - by apply rstrip_spaces.
Qed.

(** ** The outputs of a result *)

(** X5.  The two outputs that [execute_testcase] stores in a result are
    stripped: neither starts nor ends with a white space character, so
    stripping them again changes nothing. *)
Theorem result_outputs_are_stripped
    w code language tc i timeout memory (use_docker : bool) st r st' :
  execute_testcase w code language tc i timeout memory use_docker st = (Ret r, st') →
  strip (actual_output r) = actual_output r
  ∧ strip (tr_expected_output r) = tr_expected_output r
  ∧ (∀ c rest, actual_output r = c :: rest ∨ tr_expected_output r = c :: rest →
       isspace c = false)
  ∧ (∀ c init, actual_output r = init ++ [c] ∨ tr_expected_output r = init ++ [c] →
       isspace c = false).
Proof.
  unfold execute_testcase. intros H. apply bind_ret_inv in H as (res & st1 & _ & H).
  injection H as <- <-. cbn [actual_output tr_expected_output].
  rewrite !strip_idem. repeat split.
  - intros c rest [H|H]; by eapply strip_head.
  - intros c init [H|H]; by eapply strip_last.
Qed.

Lemma result_outputs_are_stripped_witness :
  ∃ r st',
    execute_testcase local_host (lit "import sys") (lit "python")
      (testcase (lit "6") (lit "  Hello ")) 0 2 128 true empty_state = (Ret r, st')
    ∧ strip (actual_output r) = actual_output r
    ∧ tr_expected_output r = lit "Hello".
Proof.
  destruct (execute_testcase local_host (lit "import sys") (lit "python")
              (testcase (lit "6") (lit "  Hello ")) 0 2 128 true empty_state)
    as [[r| |] st'] eqn:H; try (exfalso; vm_compute in H; discriminate).
  exists r, st'. split; [reflexivity|].
  split; [exact (proj1 (result_outputs_are_stripped _ _ _ _ _ _ _ _ _ _ _ H))|].
  vm_compute in H. by injection H as <- _.
Defined.

(** X6.  White space around the expected output of a testcase plays no
    role: the testcase padded with white space gives the same result, state
    and all, as the testcase itself. *)
Theorem expected_output_padding_is_ignored
    w code language stdin expected ws1 ws2 i timeout memory (use_docker : bool) st :
  spaces ws1 → spaces ws2 →
  execute_testcase w code language
    {| input := stdin; expected_output := ws1 ++ expected ++ ws2 |}
    i timeout memory use_docker st
  = execute_testcase w code language
      {| input := stdin; expected_output := expected |} i timeout memory use_docker st.
Proof.
  intros H1 H2. unfold execute_testcase. cbn [input expected_output].
  by rewrite strip_padding.
Qed.

Lemma expected_output_padding_is_ignored_witness :
  execute_testcase local_host (lit "import sys") (lit "python")
    {| input := lit "6"; expected_output := [10%N; 32%N] ++ lit "Hello" ++ [13%N; 10%N] |}
    0 2 128 true empty_state
  = execute_testcase local_host (lit "import sys") (lit "python")
      {| input := lit "6"; expected_output := lit "Hello" |} 0 2 128 true empty_state.
Proof.
  apply expected_output_padding_is_ignored; repeat constructor.
Defined.

(** ** The solution file *)

Lemma registered_language language config :
  LANGUAGE_CONFIG !! language = Some config →
  language = lit "python"
  ∧ config = {| extension := lit ".py"; compile_cmd := None;
                run_cmd := lit "python3 {file}"; image := lit "python:3.11-slim" |}.
Proof.
  unfold LANGUAGE_CONFIG. intros [<- <-]%lookup_singleton_Some. done.
Qed.

(** X4.  [create_solution_file] never hangs.  When it returns, the
    language is [python], the path is the one [mkstemp] chose and the file
    holds the code as it was given (the wrapping of Java code in a class
    never applies, [LANGUAGE_CONFIG] has no such entry) while no other path
    has changed.  When it raises, nothing was added to the disk, and for a
    language without entry the error is the [ValueError] of the lookup,
    raised before any file is made. *)
Theorem solution_file_holds_the_code w code language st :
  match create_solution_file w code language st with
  | (Ret p, st1) =>
      language = lit "python"
      ∧ solution_path w st (lit ".py") = Some p
      ∧ disk st1 = <[p := code]> (disk st)
  | (Raise e, st1) =>
      disk st1 ⊆ disk st
      ∧ (LANGUAGE_CONFIG !! language = None →
         e = ValueError (lit "Unsupported language: " ++ language) ∧ st1 = st)
  | (Hang, _) => False
  end.
Proof.
  destruct (LANGUAGE_CONFIG !! language) as [config|] eqn:Hcfg.
  - destruct (registered_language _ _ Hcfg) as [-> ->].
    unfold create_solution_file, solution_path. rewrite python_config.
    change (str_eqb (lit "python") (lit "java")) with false. cbn [andb extension].
    unfold_calls.
    destruct (mkstemp_oracle w (clock st) (disk st) (lit ".py")) as [e|name].
    { split; [done|]. intros H; discriminate H. }
    exec.
    + split; [|intros H; discriminate H]. rewrite delete_insert_eq. apply delete_subseteq.
    + split; [done|]. split; [done|]. by rewrite insert_insert_eq.
  - unfold create_solution_file. rewrite Hcfg. by split.
Qed.

(** ** The local executor *)

Lemma create_python_file w code st name :
  mkstemp_oracle w (clock st) (disk st) (lit ".py") = inr name →
  let p := path_join (gettempdir w) (lit "tmp" ++ name ++ lit ".py") in
  write_oracle w (S (clock st)) p code = None →
  create_solution_file w code (lit "python") st
  = (Ret p, {| disk := <[p := code]> (<[p := []]> (disk st)); clock := S (S (clock st)) |}).
Proof.
  intros Hname p Hwrite.
  unfold create_solution_file. rewrite python_config.
  change (str_eqb (lit "python") (lit "java")) with false. cbn [andb extension].
  unfold_calls. rewrite Hname. fold p. cbn [disk clock]. by rewrite Hwrite.
Qed.

(** X1.  On the local executor, a child process that does not exit
    within [timeout_seconds] is stopped: the result has [timed_out] set,
    the error [Time limit exceeded], no output, a duration of exactly the
    timeout and no memory figure, and the solution file is gone. *)
Theorem local_run_is_stopped_at_the_timeout w code input_data timeout memory st name :
  mkstemp_oracle w (clock st) (disk st) (lit ".py") = inr name →
  let p := path_join (gettempdir w) (lit "tmp" ++ name ++ lit ".py") in
  write_oracle w (S (clock st)) p code = None →
  process_exceeds
    (process_oracle w (S (S (clock st))) (<[p := code]> (<[p := []]> (disk st)))
       (lit "python3 " ++ p) (Some input_data)) timeout →
  ∃ st',
    run_code_locally w code (lit "python") input_data timeout memory st
    = (Ret {| output := [];
              execution_time_ms := inject_Z (timeout * 1000);
              memory_used_mb := 0;
              error := Some (lit "Time limit exceeded");
              timed_out := true |}, st')
    ∧ disk st' = delete p (disk st).
Proof.
  intros Hname p Hwrite Hexceeds.
  pose proof (create_python_file w code st name Hname Hwrite) as Hcreate. fold p in Hcreate.
  set (st1 := {| disk := <[p := code]> (<[p := []]> (disk st)); clock := S (S (clock st)) |})
    in *.
  assert (Hrun : try_except
                   (locally_try w {| extension := lit ".py"; compile_cmd := None;
                                     run_cmd := lit "python3 {file}";
                                     image := lit "python:3.11-slim" |}
                      input_data timeout p)
                   (λ e, mret (error_result (str_of_exn e))) st1
                 = (Ret {| output := [];
                           execution_time_ms := inject_Z (timeout * 1000);
                           memory_used_mb := 0;
                           error := Some (lit "Time limit exceeded");
                           timed_out := true |}, tick st1)).
  { unfold locally_try. cbn [extension compile_cmd run_cmd truthy].
    rewrite format_python_run_cmd.
    unfold_calls. cbn [disk clock st1]. unfold process_exceeds in Hexceeds.
    destruct (process_oracle _ _ _ _ _) as [ms rc out err| |e]; [| |done].
    - by rewrite Hexceeds.
    - done. }
  unfold run_code_locally. rewrite python_config.
  unfold try_bound. rewrite Hcreate. unfold try_finally. rewrite Hrun.
  rewrite remove_if_exists_Some by apply mkstemp_path_truthy.
  eexists. split; [reflexivity|]. cbn [disk tick st1].
  by rewrite !delete_insert_eq.
Qed.

Lemma local_run_is_stopped_at_the_timeout_witness :
  ∃ st',
    run_code_locally local_host (lit "while True: pass") (lit "python") (lit "2") 2 128
      busy_state
    = (Ret {| output := []; execution_time_ms := inject_Z (2 * 1000); memory_used_mb := 0;
              error := Some (lit "Time limit exceeded"); timed_out := true |}, st')
    ∧ disk st' = delete (lit "/tmp/tmpk3v9x_qa.py") (disk busy_state).
Proof.
  apply (local_run_is_stopped_at_the_timeout local_host (lit "while True: pass")
           (lit "2") 2 128 busy_state (lit "k3v9x_qa")); reflexivity.
Defined.

(** X2.  On the local executor, a child process that exits within the
    timeout gives a result with its stripped output and its duration, no
    memory figure and [timed_out] unset.  The error is [None] after a zero
    exit status, whatever was written to the error stream; after another
    status it is the stripped error stream, or [Runtime error] when that
    stream is empty.  The solution file is gone. *)
Theorem local_run_that_exits w code input_data timeout memory st name ms rc out err :
  mkstemp_oracle w (clock st) (disk st) (lit ".py") = inr name →
  let p := path_join (gettempdir w) (lit "tmp" ++ name ++ lit ".py") in
  write_oracle w (S (clock st)) p code = None →
  process_oracle w (S (S (clock st))) (<[p := code]> (<[p := []]> (disk st)))
    (lit "python3 " ++ p) (Some input_data) = PExits ms rc out err →
  Qle_bool ms (inject_Z (timeout * 1000)) = true →
  ∃ st',
    run_code_locally w code (lit "python") input_data timeout memory st
    = (Ret {| output := strip out;
              execution_time_ms := ms;
              memory_used_mb := 0;
              error := if rc =? 0 then None
                       else Some (match err with
                                  | [] => lit "Runtime error"
                                  | _ => strip err
                                  end);
              timed_out := false |}, st')
    ∧ disk st' = delete p (disk st).
Proof.
  intros Hname p Hwrite Hproc Hms.
  pose proof (create_python_file w code st name Hname Hwrite) as Hcreate. fold p in Hcreate.
  set (st1 := {| disk := <[p := code]> (<[p := []]> (disk st)); clock := S (S (clock st)) |})
    in *.
  assert (Hrun : try_except
                   (locally_try w {| extension := lit ".py"; compile_cmd := None;
                                     run_cmd := lit "python3 {file}";
                                     image := lit "python:3.11-slim" |}
                      input_data timeout p)
                   (λ e, mret (error_result (str_of_exn e))) st1
                 = (Ret {| output := strip out;
                           execution_time_ms := ms;
                           memory_used_mb := 0;
                           error := if rc =? 0 then None
                                    else Some (match err with
                                               | [] => lit "Runtime error"
                                               | _ => strip err
                                               end);
                           timed_out := false |}, tick st1)).
  { unfold locally_try. cbn [extension compile_cmd run_cmd truthy].
    rewrite format_python_run_cmd.
    unfold_calls. cbn [disk clock st1]. rewrite Hproc, Hms.
    cbn [returncode stdout stderr elapsed].
    destruct (rc =? 0); cbn [negb]; [reflexivity|]. by destruct err. }
  unfold run_code_locally. rewrite python_config.
  unfold try_bound. rewrite Hcreate. unfold try_finally. rewrite Hrun.
  rewrite remove_if_exists_Some by apply mkstemp_path_truthy.
  eexists. split; [reflexivity|]. cbn [disk tick st1].
  by rewrite !delete_insert_eq.
Qed.

Lemma local_run_that_exits_witness :
  ∃ st',
    run_code_locally local_host (lit "import sys") (lit "python") (lit "3") 2 128 busy_state
    = (Ret {| output := []; execution_time_ms := 7; memory_used_mb := 0;
              error := Some []; timed_out := false |}, st')
    ∧ disk st' = delete (lit "/tmp/tmpk3v9x_qa.py") (disk busy_state).
Proof.
  apply (local_run_that_exits local_host (lit "import sys") (lit "3") 2 128 busy_state
           (lit "k3v9x_qa") 7 1 [] [10%N]); reflexivity.
Defined.

(** ** The containerized executor *)

Lemma docker_except_result w memory e st res st' :
  docker_except w e st = (Ret res, st') → docker_result memory res.
Proof.
  unfold docker_except. unfold_calls.
  exec; intros [= <- _]; (split; [reflexivity|]); right; eauto.
Qed.

Lemma docker_try_result w config input_data memory p st res st' :
  try_except (docker_try w config input_data memory p) (docker_except w) st = (Ret res, st') →
  docker_result memory res.
Proof.
  unfold docker_try, docker_except. unfold_calls. cbn beta.
  exec; intros [= <- _]; (split; [reflexivity|]).
  all: first [left; split; reflexivity | right; eauto].
Qed.

(** X3.  When the Docker daemon answers, a result of [run_code_docker]
    is never flagged as timed out.  It is a success with half the memory
    limit as memory figure (nothing is measured), or a failure that carries
    only its message: the output is empty and the duration is zero,
    whatever the container printed and however long it ran. *)
Theorem docker_results_carry_no_measure w code language input_data timeout memory st res st' :
  docker_probe w (clock st) = None →
  run_code_docker w code language input_data timeout memory st = (Ret res, st') →
  timed_out res = false
  ∧ ((error res = None ∧ memory_used_mb res = (inject_Z memory * (1 # 2))%Q)
     ∨ (∃ msg, error res = Some msg ∧ output res = [] ∧ execution_time_ms res = 0%Q
               ∧ memory_used_mb res = 0%Q)).
Proof.
  intros Hprobe Hrun.
  assert (Hres : docker_result memory res).
  { revert Hrun.
    unfold run_code_docker, try_except at 1, docker_connect, mbind, M_bind, mret, M_ret.
    rewrite Hprobe.
    destruct (LANGUAGE_CONFIG !! language) as [config|] eqn:Hcfg.
    2: { intros [= <- _]. split; [reflexivity|]. right; eauto. }
    unfold try_bound.
    destruct (create_solution_file w code language (tick st)) as [[p|e|] st1] eqn:Hcreate;
      [| |done].
    - unfold try_finally.
      destruct (try_except _ _ st1) as [[res2|e2|] st2] eqn:Htry; [| |done].
      + apply docker_try_result in Htry.
        destruct (docker_finally _ st2) as [[[]|e3|] st3]; intros [= <- _]; done.
      + destruct (docker_finally _ st2) as [[[]|e3|] st3]; intros [= <- _]; done.
    - unfold try_finally.
      destruct (docker_except w e st1) as [[res2|e2|] st2] eqn:Hexc; [| |done].
      + apply (docker_except_result _ memory) in Hexc.
        destruct (docker_finally _ st2) as [[[]|e3|] st3]; intros [= <- _]; done.
      + destruct (docker_finally _ st2) as [[[]|e3|] st3]; intros [= <- _]; done. }
  destruct Hres as [Ht [Hok|[msg ->]]]; split; auto.
  right. exists msg. done.
Qed.

Lemma docker_results_carry_no_measure_witness :
  ∃ res st',
    run_code_docker
      (host true sample_program
         (CExits 900 3 (Some [x6f; x6b]) (Some [x6e; x6f]) (lit "exit status 3")))
      (lit "import sys") (lit "python") (lit "1") 2 128 empty_state = (Ret res, st')
    ∧ timed_out res = false ∧ output res = [] ∧ execution_time_ms res = 0%Q
    ∧ error res = Some (lit "Runtime error: no").
Proof.
  destruct (run_code_docker
      (host true sample_program
         (CExits 900 3 (Some [x6f; x6b]) (Some [x6e; x6f]) (lit "exit status 3")))
      (lit "import sys") (lit "python") (lit "1") 2 128 empty_state)
    as [[res| |] st'] eqn:H; try (exfalso; vm_compute in H; discriminate).
  exists res, st'. split; [reflexivity|].
  split.
  - exact (proj1 (docker_results_carry_no_measure
                    (host true sample_program
                       (CExits 900 3 (Some [x6f; x6b]) (Some [x6e; x6f]) (lit "exit status 3")))
                    _ _ _ _ _ empty_state res st' eq_refl H)).
  - vm_compute in H. by injection H as <- _.
Defined.

(** ** What [execute_code] lets through *)

Lemma try_except_raise_inv {A} (body : M A) handler st e st' :
  try_except body handler st = (Raise e, st') →
  ∃ e0 st0, body st = (Raise e0, st0) ∧ handler e0 st0 = (Raise e, st').
Proof.
  unfold try_except. destruct (body st) as [[a|e0|] st0]; try discriminate. eauto.
Qed.

Lemma try_except_hang_inv {A} (body : M A) handler st st' :
  try_except body handler st = (Hang, st') →
  body st = (Hang, st')
  ∨ ∃ e0 st0, body st = (Raise e0, st0) ∧ handler e0 st0 = (Hang, st').
Proof.
  unfold try_except. destruct (body st) as [[a|e0|] st0]; try discriminate; eauto.
Qed.

Lemma docker_except_outcome w e st :
  match docker_except w e st with
  | (Ret _, _) => True
  | (Raise e', _) => ∃ msg, e' = UnicodeDecodeError msg
  | (Hang, _) => False
  end.
Proof.
  unfold docker_except. unfold_calls. exec; eauto.
Qed.

Lemma docker_try_outcome w config input_data memory p st :
  match docker_try w config input_data memory p st with
  | (Hang, _) => some_container_loops w
  | _ => True
  end.
Proof.
  unfold docker_try. unfold_calls. cbn beta.
  exec; try done.
  match goal with
  | H : container_oracle _ _ _ _ _ _ _ = CLoops |- _ => repeat eexists; exact H
  end.
Qed.

Lemma run_code_docker_outcome w code language input_data timeout memory st :
  match run_code_docker w code language input_data timeout memory st with
  | (Ret _, _) => True
  | (Raise e, _) => ∃ msg, e = UnicodeDecodeError msg
  | (Hang, _) => some_container_loops w
  end.
Proof.
  destruct (docker_probe w (clock st)) as [e|] eqn:Hprobe.
  { rewrite (run_code_docker_fallback _ _ _ _ _ _ _ e Hprobe).
    destruct (run_code_locally_spec w code language input_data timeout memory (tick st))
      as (res & st1 & -> & _). done. }
  unfold run_code_docker, try_except at 1, docker_connect, mbind, M_bind, mret, M_ret.
  rewrite Hprobe.
  destruct (LANGUAGE_CONFIG !! language) as [config|] eqn:Hcfg; [|done].
  pose proof (create_solution_file_spec w code language config (tick st) Hcfg) as Hcreate.
  unfold try_bound.
  destruct (create_solution_file w code language (tick st)) as [[p|e|] st1]; [| |done].
  - destruct Hcreate as (Hp & _).
    unfold try_finally.
    destruct (try_except _ _ st1) as [[res2|e2|] st2] eqn:Htry.
    + by rewrite (docker_finally_Some p st2 (solution_path_truthy _ _ _ _ Hp)).
    + rewrite (docker_finally_Some p st2 (solution_path_truthy _ _ _ _ Hp)).
      apply try_except_raise_inv in Htry as (e0 & st0 & _ & Hexc).
      pose proof (docker_except_outcome w e0 st0) as Ho. by rewrite Hexc in Ho.
    + apply try_except_hang_inv in Htry as [Hbody|(e0 & st0 & _ & Hexc)].
      * pose proof (docker_try_outcome w config input_data memory p st1) as Ho.
        by rewrite Hbody in Ho.
      * pose proof (docker_except_outcome w e0 st0) as Ho. by rewrite Hexc in Ho.
  - unfold try_finally.
    pose proof (docker_except_outcome w e st1) as Ho.
    destruct (docker_except w e st1) as [[res2|e2|] st2]; [| |done].
    + unfold docker_finally, mbind, M_bind. cbn [fmap option_fmap option_map].
      by rewrite !remove_if_exists_None.
    + unfold docker_finally, mbind, M_bind. cbn [fmap option_fmap option_map].
      by rewrite !remove_if_exists_None.
Qed.

Lemma for_testcases_outcome w request timeout memory tcs : ∀ i acc re st,
  match for_testcases w request timeout memory i tcs acc re st with
  | (Ret _, st') => disk st' ⊆ disk st
  | (Raise e, st') => disk st' ⊆ disk st ∧ ∃ msg, e = UnicodeDecodeError msg
  | (Hang, _) => some_container_loops w
  end.
Proof.
  induction tcs as [|tc tcs IH]; intros i acc re st; [apply reflexivity|].
  cbn [for_testcases]. unfold mbind at 1, M_bind at 1.
  unfold execute_testcase at 1. unfold mbind at 1, M_bind at 1.
  pose proof (run_code_docker_outcome w (req_code request) (req_language request)
                (input tc) timeout memory st) as Ho.
  pose proof (run_code_docker_spec w (req_code request) (req_language request)
                (input tc) timeout memory st) as Hd.
  destruct (run_code_docker w (req_code request) (req_language request)
              (input tc) timeout memory st) as [[res|e|] st1].
  - destruct (Hd _ _ eq_refl) as [Hsub _]; [done|].
    unfold mret at 1, M_ret at 1.
    match goal with
    | |- context [for_testcases _ _ _ _ ?i' tcs ?acc' ?re' st1] =>
        specialize (IH i' acc' re' st1);
        destruct (for_testcases w request timeout memory i' tcs acc' re' st1)
          as [[r|e|] st2]
    end.
    + by etrans.
    + destruct IH as [IH ?]. split; [by etrans|done].
    + done.
  - destruct (Hd _ _ eq_refl) as [Hsub _]; [done|]. by split.
  - done.
Qed.



(** X10.  Whenever [execute_code] returns or raises, every file on the
    disk was there before the call with the same content: a batch leaves
    nothing behind, whatever its testcases did. *)
Theorem execute_code_adds_no_file w settings request st o st' :
  execute_code w settings request st = (o, st') →
  o ≠ Hang →
  disk st' ⊆ disk st.
Proof.
  unfold execute_code. unfold mbind, M_bind.
  match goal with
  | |- context [for_testcases w request ?t ?m 0%nat ?tcs [] None st] =>
      pose proof (for_testcases_outcome w request t m tcs 0%nat [] None st) as Ho;
      destruct (for_testcases w request t m 0%nat tcs [] None st) as [[[rs re]|e0|] st1]
  end.
  - by intros [= <- <-] _.
  - intros [= <- <-] _. by destruct Ho.
  - by intros [= <- <-] ?.
Qed.

Lemma execute_code_adds_no_file_witness :
  ∃ resp st',
    execute_code docker_host default_settings
      (sample_request [testcase (lit "1") (lit "ok"); testcase (lit "2") (lit "no")])
      busy_state = (Ret resp, st')
    ∧ disk st' ⊆ disk busy_state.
Proof.
  destruct (execute_code docker_host default_settings
              (sample_request [testcase (lit "1") (lit "ok"); testcase (lit "2") (lit "no")])
              busy_state) as [[resp|e|] st'] eqn:H; try (exfalso; vm_compute in H; discriminate).
  exists resp, st'. split; [reflexivity|].
  by apply (execute_code_adds_no_file _ _ _ _ _ _ H).
Defined.



(** ** The comparison of the outputs *)

Lemma str_eqb_eq a b : str_eqb a b = true ↔ a = b.
Proof. unfold str_eqb. apply bool_decide_eq_true. Qed.

Lemma str_eqb_refl a : str_eqb a a = true.
Proof. by apply str_eqb_eq. Qed.

Lemma str_eqb_neq a b : str_eqb a b = false ↔ a ≠ b.
Proof. unfold str_eqb. apply bool_decide_eq_false. Qed.

(** *** The objects that [json.loads] builds have distinct keys *)

Lemma dict_set_keys d k v :
  (dict_set d k v).*1 = if bool_decide (k ∈ d.*1) then d.*1 else d.*1 ++ [k].
Proof.
  induction d as [|[k' v'] d IH]; [reflexivity|]. cbn [dict_set fmap list_fmap fst].
  destruct (str_eqb k' k) eqn:Hk.
  - apply str_eqb_eq in Hk as ->. rewrite bool_decide_eq_true_2 by left. reflexivity.
  - apply str_eqb_neq in Hk. cbn [fmap list_fmap fst]. fold (fmap (M:=list) (@fst str PyVal)).
    rewrite IH. destruct (bool_decide (k ∈ d.*1)) eqn:Hin.
    + apply bool_decide_eq_true in Hin. rewrite bool_decide_eq_true_2 by (by right). done.
    + apply bool_decide_eq_false in Hin.
      rewrite bool_decide_eq_false_2; [done|]. intros [?|?]%elem_of_cons; congruence.
Qed.

Lemma dict_set_NoDup d k v : NoDup d.*1 → NoDup (dict_set d k v).*1.
Proof.
  intros Hd. rewrite dict_set_keys. case_bool_decide; [done|].
  apply NoDup_app. split; [done|]. split; [|apply NoDup_singleton].
  intros x Hx ->%list_elem_of_singleton. done.
Qed.

Lemma dict_set_values (P : PyVal → bool) d k v :
  forallb (λ kv, P kv.2) d = true → P v = true →
  forallb (λ kv, P kv.2) (dict_set d k v) = true.
Proof.
  intros Hd Hv. induction d as [|[k' v'] d IH]; cbn [dict_set forallb snd].
  - by rewrite Hv.
  - cbn [forallb snd] in Hd. apply andb_true_iff in Hd as [Hv' Hd].
    destruct (str_eqb k' k); cbn [forallb snd].
    + by rewrite Hv, Hd.
    + by rewrite Hv', IH.
Qed.

Lemma dict_set_distinct_keys d k v :
  distinct_keys (PyDict d) = true → distinct_keys v = true →
  distinct_keys (PyDict (dict_set d k v)) = true.
Proof.
  cbn [distinct_keys]. intros [Hn Hd]%andb_true_iff Hv.
  apply bool_decide_eq_true in Hn. apply andb_true_iff. split.
  - apply bool_decide_eq_true. by apply dict_set_NoDup.
  - by apply dict_set_values.
Qed.

Lemma match_number_distinct_keys s v r :
  match_number s = Some (v, r) → distinct_keys v = true.
Proof.
  unfold match_number.
  repeat match goal with
         | |- context [let '(_, _) := ?t in _] => destruct t
         | |- context [mbind _ ?t] => destruct t as [[? ?]|]; cbn [mbind option_bind]
         end; try discriminate.
  repeat case_match; intros [= <- _]; reflexivity.
Qed.

Lemma forallb_rev {A} (P : A → bool) l : forallb P (rev l) = forallb P l.
Proof.
  induction l as [|x l IH]; [done|]. cbn [rev forallb].
  rewrite forallb_app, IH. cbn. rewrite andb_true_r. apply andb_comm.
Qed.

Lemma scan_distinct_keys f :
  (∀ s v r, scan_once f s = Some (v, r) → distinct_keys v = true)
  ∧ (∀ s acc v r, distinct_keys (PyDict acc) = true →
       parse_members f s acc = Some (v, r) → distinct_keys v = true)
  ∧ (∀ s acc v r, forallb distinct_keys acc = true →
       parse_elements f s acc = Some (v, r) → distinct_keys v = true).
Proof.
  induction f as [|f (IHscan & IHmem & IHelem)]; [by repeat split|].
  split; [|split].
  - intros s v r. cbn [scan_once]. destruct s as [|c s]; [discriminate|].
    destruct (c =? 34)%N.
    { destruct (scanstring _ s []) as [[k r']|]; [|discriminate]. by intros [= <- _]. }
    destruct (c =? 123)%N.
    { destruct (expect 125 (skip_ws s)); [by intros [= <- _]|]. by apply IHmem. }
    destruct (c =? 91)%N.
    { destruct (expect 93 (skip_ws s)); [by intros [= <- _]|]. by apply IHelem. }
    repeat match goal with
      | |- context [if startswith ?p ?s then _ else _] =>
          destruct (startswith p s); [by intros [= <- _]|]
      end.
    apply match_number_distinct_keys.
  - intros s acc v r Hacc. cbn [parse_members].
    destruct (expect 34 s) as [r0|]; [|discriminate]. cbn [mbind option_bind].
    destruct (scanstring _ r0 []) as [[k r1]|]; [|discriminate]. cbn [mbind option_bind].
    destruct (expect 58 (skip_ws r1)) as [r2|]; [|discriminate]. cbn [mbind option_bind].
    destruct (scan_once f (skip_ws r2)) as [[v3 r3]|] eqn:H3; [|discriminate].
    apply IHscan in H3. cbn [mbind option_bind].
    pose proof (dict_set_distinct_keys acc k v3 Hacc H3) as Hacc'.
    destruct (expect 125 (skip_ws r3)) as [r4|]; [by intros [= <- _]|].
    destruct (expect 44 (skip_ws r3)) as [r4|]; [|discriminate]. cbn [mbind option_bind].
    by apply IHmem.
  - intros s acc v r Hacc. cbn [parse_elements].
    destruct (scan_once f s) as [[v1 r1]|] eqn:H1; [|discriminate].
    apply IHscan in H1. cbn [mbind option_bind].
    assert (Hacc' : forallb distinct_keys (v1 :: acc) = true).
    { cbn [forallb]. by rewrite H1, Hacc. }
    destruct (expect 93 (skip_ws r1)) as [r2|].
    + intros [= <- _]. cbn [distinct_keys].
      change (forallb distinct_keys (rev (v1 :: acc)) = true). by rewrite forallb_rev.
    + destruct (expect 44 (skip_ws r1)) as [r2|]; [|discriminate]. cbn [mbind option_bind].
      by apply IHelem.
Qed.

Lemma json_loads_distinct_keys s v : json_loads s = Some v → distinct_keys v = true.
Proof.
  unfold json_loads. destruct (startswith _ s); [discriminate|].
  destruct (scan_once _ _) as [[v' r]|] eqn:Hscan; [|discriminate]. cbn [mbind option_bind].
  destruct (skip_ws r); [|discriminate]. intros [= <-].
  by eapply (proj1 (scan_distinct_keys _)).
Qed.

(** *** [==] on such values *)

Lemma dict_get_member d k v : NoDup d.*1 → (k, v) ∈ d → dict_get d k = Some v.
Proof.
  induction d as [|[k' v'] d IH]; [by intros _ ?%elem_of_nil|].
  cbn [fmap list_fmap fst dict_get]. fold (fmap (M:=list) (@fst str PyVal)).
  intros [Hk' Hd]%NoDup_cons [[= <- <-]|Hin]%elem_of_cons.
  - by rewrite str_eqb_refl.
  - destruct (str_eqb k' k) eqn:Hk; [|by apply IH].
    apply str_eqb_eq in Hk as ->. exfalso. apply Hk'.
    apply list_elem_of_fmap. by exists (k, v).
Qed.

Lemma dict_items_equal db sub :
  (∀ k v, (k, v) ∈ sub →
     ∃ w, dict_get db k = Some w ∧ same_nan v w || py_eq v w = true) →
  (fix items (da : list (str * PyVal)) : bool :=
     match da with
     | [] => true
     | (k, v) :: da' =>
         match dict_get db k with
         | Some w => (same_nan v w || py_eq v w) && items da'
         | None => false
         end
     end) sub = true.
Proof.
  induction sub as [|[k v] sub IH]; intros H; [reflexivity|].
  destruct (H k v) as (w & -> & ->); [left|]. cbn [andb].
  apply IH. intros k' v' Hin. apply H. by right.
Qed.

(** A value is equal to itself, or is the [NaN] that is found identical
    to itself before [==] is asked. *)
Lemma py_eq_refl v : distinct_keys v = true → same_nan v v || py_eq v v = true.
Proof.
  induction v as [| b | z | f | s | l IH | d IH] using PyVal_nested_ind; intros Hv.
  - reflexivity.
  - cbn. by destruct b.
  - cbn. apply Qeq_bool_iff. reflexivity.
  - destruct f as [q|n|]; cbn; [|by destruct n|reflexivity].
    apply Qeq_bool_iff. reflexivity.
  - cbn. apply str_eqb_refl.
  - cbn [same_nan orb py_eq]. cbn [distinct_keys] in Hv.
    induction IH as [|x l Hx _ IHl]; [reflexivity|].
    cbn [forallb] in Hv. apply andb_true_iff in Hv as [Hvx Hvl].
    by rewrite (Hx Hvx), (IHl Hvl).
  - cbn [same_nan orb py_eq]. cbn [distinct_keys] in Hv.
    apply andb_true_iff in Hv as [Hn Hv]. apply bool_decide_eq_true in Hn.
    rewrite Nat.eqb_refl. cbn [andb].
    assert (Hall : Forall (λ kv, same_nan kv.2 kv.2 || py_eq kv.2 kv.2 = true) d).
    { clear Hn. induction IH as [|kv d Hkv _ IHd]; [constructor|].
      cbn [forallb] in Hv. apply andb_true_iff in Hv as [Hv1 Hv2].
      constructor; [by apply Hkv|by apply IHd]. }
    rewrite Forall_forall in Hall.
    apply dict_items_equal. intros k v Hin. exists v.
    split; [by apply dict_get_member|]. by apply (Hall (k, v)).
Qed.

(** X7.  An output that is identical to the expected output passes,
    with one exception: when both are the text [NaN], which [json.loads]
    accepts, the comparison fails, a [NaN] being unequal to itself. *)
Theorem identical_outputs_pass_unless_nan s :
  compare_outputs s s = match json_loads s with
                        | Some (PyFloat FNaN) => false
                        | _ => true
                        end.
Proof.
  unfold compare_outputs. destruct (json_loads s) as [v|] eqn:Hv; cbn [mbind option_bind].
  - pose proof (py_eq_refl v (json_loads_distinct_keys _ _ Hv)) as Hrefl.
    destruct v as [| | |[| |]| | |]; try exact Hrefl. reflexivity.
  - apply str_eqb_refl.
Qed.

(** X8.  When both outputs are JSON objects with the same members, the
    order in which the members are written plays no role: the comparison
    succeeds. *)
Theorem member_order_is_ignored actual expected d d' :
  json_loads actual = Some (PyDict d) →
  json_loads expected = Some (PyDict d') →
  d ≡ₚ d' →
  compare_outputs actual expected = true.
Proof.
  intros Ha He Hperm. unfold compare_outputs. rewrite Ha, He. cbn [mbind option_bind].
  pose proof (json_loads_distinct_keys _ _ Ha) as Hd.
  pose proof (json_loads_distinct_keys _ _ He) as Hd'.
  cbn [distinct_keys] in Hd, Hd'.
  apply andb_true_iff in Hd as [Hn Hv]. apply andb_true_iff in Hd' as [Hn' _].
  apply bool_decide_eq_true in Hn. apply bool_decide_eq_true in Hn'.
  cbn [py_eq]. rewrite (Permutation_length Hperm), Nat.eqb_refl. cbn [andb].
  apply dict_items_equal. intros k v Hin. exists v. split.
  - apply dict_get_member; [done|]. by rewrite <- Hperm.
  - apply py_eq_refl. rewrite forallb_forall in Hv.
    apply (Hv (k, v)). by apply list_elem_of_In.
Qed.

Lemma member_order_is_ignored_witness :
  compare_outputs (jlit "{'a': 1, 'b': [2, 3]}") (jlit "{ 'b': [2, 3], 'a': 1 }") = true.
Proof.
  apply (member_order_is_ignored _ _
           [(lit "a", PyInt 1); (lit "b", PyList [PyInt 2; PyInt 3])]
           [(lit "b", PyList [PyInt 2; PyInt 3]); (lit "a", PyInt 1)]).
  - reflexivity.
  - reflexivity.
  - apply Permutation_swap.
Defined.

(** ** The complexity analyzer *)

Import complexity_analyzer.

Section Node_induction.
Variable P : Node → Prop.
Hypothesis Hnode : ∀ node, Forall P (iter_child_nodes node) → P node.

Fixpoint Node_nested_ind (node : Node) : P node :=
  let items :=
    fix items (l : list Node) : Forall P l :=
      match l with
      | [] => @List.Forall_nil _ P
      | x :: l' => @List.Forall_cons _ P x l' (Node_nested_ind x) (items l')
      end in
  Hnode node
    match node return Forall P (iter_child_nodes node) with
    | For cs | While cs | FunctionDef _ cs | Name _ cs | Subscript cs | Other cs => items cs
    | Call func rest => @List.Forall_cons _ P func rest (Node_nested_ind func) (items rest)
    end.
End Node_induction.

Lemma descendants_eq node :
  descendants node = node :: List.concat (List.map descendants (iter_child_nodes node)).
Proof. destruct node; reflexivity. Qed.

Lemma nodes_eq node : nodes node = S (list_sum (List.map nodes (iter_child_nodes node))).
Proof. destruct node; reflexivity. Qed.

(** [ast.walk] yields the nodes of the tree, in another order. *)
Lemma walk_from_descendants fuel : ∀ todo,
  (list_sum (List.map nodes todo) ≤ fuel)%nat →
  walk_from fuel todo ≡ₚ List.concat (List.map descendants todo).
Proof.
  induction fuel as [|fuel IH]; intros [|node todo] Hfuel; try reflexivity.
  - cbn [List.map] in Hfuel.
      change (list_sum (nodes node :: List.map nodes todo))
        with (nodes node + list_sum (List.map nodes todo))%nat in Hfuel.
      rewrite nodes_eq in Hfuel. lia.
  - cbn [walk_from List.map List.concat]. rewrite (descendants_eq node).
    cbn [app]. constructor.
    rewrite IH.
    + rewrite List.map_app, List.concat_app. apply Permutation_app_comm.
    + cbn [List.map] in Hfuel.
      change (list_sum (nodes node :: List.map nodes todo))
        with (nodes node + list_sum (List.map nodes todo))%nat in Hfuel.
      rewrite nodes_eq in Hfuel.
      rewrite List.map_app, list_sum_app. lia.
Qed.

Lemma walk_descendants node : walk node ≡ₚ descendants node.
Proof.
  unfold walk. rewrite walk_from_descendants.
  - cbn [List.map List.concat]. by rewrite app_nil_r.
  - cbn [List.map list_sum fold_right]. lia.
Qed.

Lemma existsb_Permutation {A} (f : A → bool) l l' :
  l ≡ₚ l' → existsb f l = existsb f l'.
Proof.
  induction 1 as [|x l l' _ IH|x y l|l l' l'' _ IH1 _ IH2]; cbn [existsb].
  - reflexivity.
  - by rewrite IH.
  - by destruct (f x), (f y).
  - congruence.
Qed.

Lemma detect_recursion_eq name items self :
  detect_recursion name items self
  = {| loop_nesting_levels := loop_nesting_levels self;
       max_loop_nesting := max_loop_nesting self;
       recursion_detected := recursion_detected self || existsb (calls_by_name name) items;
       data_structure_operations := data_structure_operations self;
       function_calls := function_calls self;
       nested_functions := nested_functions self |}.
Proof.
  unfold detect_recursion. revert self.
  induction items as [|item items IH]; intros self; cbn [fold_left existsb].
  - rewrite orb_false_r. by destruct self.
  - rewrite IH. destruct (calls_by_name name item); cbn.
    + by rewrite orb_true_r.
    + reflexivity.
Qed.

Lemma generic_visit_eq children : ∀ self,
  (fix each (children : list Node) (self : Visitor) {struct children} : Visitor :=
     match children with
     | [] => self
     | child :: children => each children (visit child self)
     end) children self = visit_all children self.
Proof.
  unfold visit_all. induction children as [|c cs IH]; intros self; [reflexivity|].
  cbn [fold_left]. apply IH.
Qed.

Lemma visit_eq node self :
  visit node self =
  match node with
  | For children | While children => leave_loop (visit_all children (enter_loop self))
  | FunctionDef name children =>
      add_nested_functions (-1)
        (visit_all children (add_nested_functions 1 (detect_recursion name (walk node) self)))
  | Call func rest => visit_all rest (visit func (track_call func self))
  | Subscript children | Name _ children | Other children => visit_all children self
  end.
Proof. destruct node; cbn [visit]; by rewrite generic_visit_eq. Qed.

Lemma fold_right_max_nonneg l : 0 ≤ fold_right Z.max 0 l.
Proof. induction l; cbn [fold_right]; lia. Qed.

Lemma after_nil self :
  loop_nesting_levels self ≤ max_loop_nesting self → after [] self = self.
Proof.
  intros H. destruct self. unfold after. cbn in *.
  rewrite orb_false_r, !app_nil_r. f_equal. lia.
Qed.

Lemma after_cons node trees self :
  loop_nesting_levels self ≤ max_loop_nesting self →
  after (node :: trees) self = after trees (after [node] self).
Proof.
  intros H. unfold after.
  cbn [List.map List.concat loop_nesting_levels max_loop_nesting recursion_detected
       data_structure_operations function_calls nested_functions fold_right].
  rewrite !app_nil_r, !existsb_app, !flat_map_app, !orb_assoc, !app_assoc.
  f_equal.
  pose proof (fold_right_max_nonneg (List.map loop_depth trees)). lia.
Qed.

Lemma after_le trees self :
  loop_nesting_levels self ≤ max_loop_nesting self →
  loop_nesting_levels (after trees self) ≤ max_loop_nesting (after trees self).
Proof. unfold after. cbn. lia. Qed.

(** The visit of a tree, in terms of what the tree is. *)
Lemma visit_after node : ∀ self,
  loop_nesting_levels self ≤ max_loop_nesting self →
  visit node self = after [node] self.
Proof.
  induction node as [node IH] using Node_nested_ind.
  assert (Hall : ∀ self, loop_nesting_levels self ≤ max_loop_nesting self →
            visit_all (iter_child_nodes node) self = after (iter_child_nodes node) self).
  { induction IH as [|c cs Hc _ IHcs]; intros self Hle.
    - by rewrite after_nil.
    - unfold visit_all. cbn [fold_left]. fold (visit_all cs (visit c self)).
      rewrite Hc by done. rewrite IHcs by (by apply after_le). by rewrite <- after_cons. }
  clear IH. intros self Hle. rewrite visit_eq.
  pose proof (fold_right_max_nonneg (List.map loop_depth (iter_child_nodes node))) as Hnn.
  destruct node as [cs|cs|name cs|func rest|id cs|cs|cs]; cbn [iter_child_nodes] in *.
  - rewrite Hall by (cbn; lia). unfold after, leave_loop, enter_loop.
    cbn [List.map List.concat loop_nesting_levels max_loop_nesting recursion_detected
         data_structure_operations function_calls nested_functions fold_right
         descendants loop_depth existsb calls_itself flat_map tracked_operations
         tracked_calls app orb].
    rewrite !app_nil_r. f_equal; lia.
  - rewrite Hall by (cbn; lia). unfold after, leave_loop, enter_loop.
    cbn [List.map List.concat loop_nesting_levels max_loop_nesting recursion_detected
         data_structure_operations function_calls nested_functions fold_right
         descendants loop_depth existsb calls_itself flat_map tracked_operations
         tracked_calls app orb].
    rewrite !app_nil_r. f_equal; lia.
  - rewrite detect_recursion_eq, (existsb_Permutation _ _ _ (walk_descendants _)).
    rewrite Hall by (cbn; lia). unfold after, add_nested_functions.
    cbn [List.map List.concat loop_nesting_levels max_loop_nesting recursion_detected
         data_structure_operations function_calls nested_functions fold_right
         loop_depth existsb flat_map tracked_operations tracked_calls app orb].
    rewrite !app_nil_r.
    change (descendants (FunctionDef name cs))
      with (FunctionDef name cs :: List.concat (List.map descendants cs)) at 2 3 4.
    cbn [existsb flat_map tracked_operations tracked_calls app].
    rewrite orb_assoc. f_equal; lia.
  - change (visit_all rest (visit func (track_call func self)))
      with (visit_all (func :: rest) (track_call func self)).
    rewrite Hall by (by destruct func).
    unfold after.
    cbn [List.map List.concat fold_right loop_depth app].
    rewrite !app_nil_r.
    change (descendants (Call func rest))
      with (Call func rest :: descendants func ++ List.concat (List.map descendants rest)).
    cbn [existsb calls_itself flat_map orb].
    destruct self as [lvl mx rec ops fc nf]. 
    assert (Hmx : Z.max mx (lvl + Z.max (loop_depth func)
                                   (fold_right Z.max 0 (List.map loop_depth rest)))
                  = Z.max mx (lvl + Z.max (Z.max (loop_depth func)
                                             (fold_right Z.max 0 (List.map loop_depth rest))) 0))
      by (cbn [List.map fold_right] in Hnn; lia).
    destruct func; cbn [track_call tracked_operations tracked_calls loop_nesting_levels
                        max_loop_nesting recursion_detected data_structure_operations
                        function_calls nested_functions app];
      rewrite ?Hmx; try reflexivity.
    rewrite <- !app_assoc. cbn [app].
    repeat case_match; rewrite <- ?app_assoc; reflexivity.
  - rewrite Hall by done. unfold after.
    cbn [List.map List.concat descendants loop_depth fold_right existsb calls_itself
         flat_map tracked_operations tracked_calls app orb].
    rewrite !app_nil_r. f_equal; lia.
  - rewrite Hall by done. unfold after.
    cbn [List.map List.concat descendants loop_depth fold_right existsb calls_itself
         flat_map tracked_operations tracked_calls app orb].
    rewrite !app_nil_r. f_equal; lia.
  - rewrite Hall by done. unfold after.
    cbn [List.map List.concat descendants loop_depth fold_right existsb calls_itself
         flat_map tracked_operations tracked_calls app orb].
    rewrite !app_nil_r. f_equal; lia.
Qed.

Lemma loop_depth_nonneg node : 0 ≤ loop_depth node.
Proof.
  destruct node as [cs|cs|name cs|func rest|id cs|cs|cs]; cbn [loop_depth].
  all: try pose proof (fold_right_max_nonneg (List.map loop_depth cs)).
  all: try pose proof (fold_right_max_nonneg (List.map loop_depth rest)).
  all: lia.
Qed.

Lemma visit_init tree :
  visit tree __init__ =
  {| loop_nesting_levels := 0;
     max_loop_nesting := loop_depth tree;
     recursion_detected := has_recursive_function tree;
     data_structure_operations := flat_map tracked_operations (descendants tree);
     function_calls := flat_map tracked_calls (descendants tree);
     nested_functions := 0 |}.
Proof.
  rewrite visit_after by done. unfold after, __init__, has_recursive_function.
  cbn [List.map List.concat fold_right loop_nesting_levels max_loop_nesting
       recursion_detected data_structure_operations function_calls nested_functions
       orb app].
  rewrite !app_nil_r. pose proof (loop_depth_nonneg tree). f_equal. lia.
Qed.

Lemma str_in_app x l l' : str_in x (l ++ l') = str_in x l || str_in x l'.
Proof. apply existsb_app. Qed.

(** An operation is recorded when a call has one of the names that stand
    for it as a bare name for callee. *)
Lemma tracked_operation_names node :
  str_in (lit "list_search_or_remove") (tracked_operations node)
  = match node with
    | Call (Name id _) _ => str_in id [lit "pop"; lit "remove"]
    | _ => false
    end
  ∧ str_in (lit "sorting_operation") (tracked_operations node)
    = match node with
      | Call (Name id _) _ => str_in id [lit "sort"; lit "sorted"]
      | _ => false
      end
  ∧ str_in (lit "collection_creation") (tracked_operations node)
    = match node with
      | Call (Name id _) _ => str_in id [lit "set"; lit "dict"; lit "list"]
      | _ => false
      end.
Proof.
  destruct node as [| | |func rest| | |]; try (by repeat split).
  destruct func as [| | | |id cs| |]; try (by repeat split).
  cbn [tracked_operations]. unfold str_in at 2 3 4 5 6 8 9 10 11 12 14 15 16 17 18.
  cbn [existsb].
  repeat match goal with
         | |- context [str_eqb id ?l] =>
             let E := fresh "E" in
             destruct (str_eqb id l) eqn:E;
             [apply str_eqb_eq in E; subst id; by vm_compute|]
         end.
  by vm_compute.
Qed.

Lemma operations_found (op : str) (names : list str) (l : list Node) :
  (∀ node, str_in op (tracked_operations node)
           = match node with
             | Call (Name id _) _ => str_in id names
             | _ => false
             end) →
  str_in op (flat_map tracked_operations l)
  = existsb (λ node, match node with
                     | Call (Name id _) _ => str_in id names
                     | _ => false
                     end) l.
Proof.
  intros H. induction l as [|node l IH]; [reflexivity|].
  cbn [flat_map existsb]. by rewrite str_in_app, H, IH.
Qed.

(** X12.  After the visit of a whole tree, the counters of the visitor
    are back to zero, [max_loop_nesting] is the depth of the nesting of
    [for] and [while] loops in the tree, function bodies included, and
    [recursion_detected] tells whether some [def] contains, anywhere below
    it, a call of its own name written as a bare name; the two lists hold
    what the calls with a bare name as callee add, in the order of the
    tree. *)
Theorem visitor_after_the_visit tree :
  visit tree __init__ =
  {| loop_nesting_levels := 0;
     max_loop_nesting := loop_depth tree;
     recursion_detected := has_recursive_function tree;
     data_structure_operations := flat_map tracked_operations (descendants tree);
     function_calls := flat_map tracked_calls (descendants tree);
     nested_functions := 0 |}.
Proof. apply visit_init. Qed.

(** X13.  The time estimate of a tree depends on three things only:
    whether some function calls itself by its bare name, how deep the
    loops are nested, and, for at most one loop, whether [sort] or [sorted]
    (then [pop] or [remove], without any loop) is called as a bare name.
    Calls of methods, such as [items.sort()], play no role. *)
Theorem time_estimate_of_a_tree tree :
  estimate_time_complexity (visit tree __init__) =
  let depth := loop_depth tree in
  if has_recursive_function tree then
    if 0 <? depth
    then lit "O(2^n * " ++ (if 1 <? depth then lit "n^" else [])
         ++ str_of_int depth ++ lit ")"
    else lit "O(2^n)"
  else if depth =? 0 then
    if calls_one_of [lit "sort"; lit "sorted"] tree then lit "O(n log n)"
    else if calls_one_of [lit "pop"; lit "remove"] tree then lit "O(n)"
    else lit "O(1)"
  else if depth =? 1 then
    if calls_one_of [lit "sort"; lit "sorted"] tree then lit "O(n log n)"
    else lit "O(n)"
  else if depth =? 2 then lit "O(n" ++ [178%N] ++ lit ")"
  else if depth =? 3 then lit "O(n" ++ [179%N] ++ lit ")"
  else lit "O(n^" ++ str_of_int depth ++ lit ")".
Proof.
  rewrite visit_init. unfold estimate_time_complexity, calls_one_of.
  cbn [max_loop_nesting recursion_detected data_structure_operations].
  rewrite (operations_found (lit "sorting_operation") [lit "sort"; lit "sorted"])
    by (intros node; apply (tracked_operation_names node)).
  rewrite (operations_found (lit "list_search_or_remove") [lit "pop"; lit "remove"])
    by (intros node; apply (tracked_operation_names node)).
  reflexivity.
Qed.

(** X14.  The space estimate of a tree is [O(1)] unless some function
    calls itself by its bare name or [set], [dict] or [list] is called as a
    bare name: the test on [nested_functions] never succeeds, the counter
    being back to zero when the estimate is made, so that the definition of
    functions plays no role. *)
Theorem space_estimate_of_a_tree tree :
  estimate_space_complexity (visit tree __init__) =
  let depth := loop_depth tree in
  if has_recursive_function tree then
    if 0 <? depth
    then lit "O(n * " ++ (if 1 <? depth then lit "n^" else [])
         ++ str_of_int depth ++ lit ")"
    else lit "O(n)"
  else if calls_one_of [lit "set"; lit "dict"; lit "list"] tree then lit "O(n)"
  else lit "O(1)".
Proof.
  rewrite visit_init. unfold estimate_space_complexity, calls_one_of.
  cbn [max_loop_nesting recursion_detected data_structure_operations nested_functions].
  rewrite (operations_found (lit "collection_creation") [lit "set"; lit "dict"; lit "list"])
    by (intros node; apply (tracked_operation_names node)).
  reflexivity.
Qed.

Lemma estimate_time_complexity_head self :
  ∃ rest, estimate_time_complexity self = 79%N :: rest.
Proof. unfold estimate_time_complexity. repeat case_match; eexists; reflexivity. Qed.

Lemma estimate_space_complexity_head self :
  ∃ rest, estimate_space_complexity self = 79%N :: rest.
Proof. unfold estimate_space_complexity. repeat case_match; eexists; reflexivity. Qed.

(** X15.  [analyze_complexity] always answers with the two keys
    [time_complexity] and [space_complexity], and either of them is
    [Unknown] exactly when the [try] block has raised, that is when
    [ast.parse] has raised or the visit has exceeded the recursion limit:
    an estimate is never [Unknown], and the two keys are [Unknown]
    together. *)
Theorem unknown_only_when_the_analysis_raises ast_parse recursion_error code :
  let answer := analyze_complexity ast_parse recursion_error code in
  let raised := match ast_parse code with
                | Some tree => recursion_error tree
                | None => true
                end in
  dom answer = {[ lit "time_complexity"; lit "space_complexity" ]}
  ∧ (answer !! lit "time_complexity" = Some (lit "Unknown") ↔ raised = true)
  ∧ (answer !! lit "space_complexity" = Some (lit "Unknown") ↔ raised = true).
Proof.
  cbv zeta. unfold analyze_complexity, analyze_code_complexity.
  assert (Hraised :
    dom (({[ lit "time_complexity" := lit "Unknown";
             lit "space_complexity" := lit "Unknown" ]}) : gmap (list N) (list N))
    = {[ lit "time_complexity"; lit "space_complexity" ]}
    ∧ (({[ lit "time_complexity" := lit "Unknown";
           lit "space_complexity" := lit "Unknown" ]} : gmap (list N) (list N))
         !! lit "time_complexity" = Some (lit "Unknown") ↔ true = true)
    ∧ (({[ lit "time_complexity" := lit "Unknown";
           lit "space_complexity" := lit "Unknown" ]} : gmap (list N) (list N))
         !! lit "space_complexity" = Some (lit "Unknown") ↔ true = true)).
  { split; [by rewrite dom_insert_L, dom_singleton_L|].
    split; (split; [done|intros _]).
    - by rewrite lookup_insert_eq.
    - rewrite lookup_insert_ne by done. by rewrite lookup_singleton_eq. }
  destruct (ast_parse code) as [tree|]; [|exact Hraised].
  destruct (recursion_error tree); [exact Hraised|].
  destruct (estimate_time_complexity_head (visit tree __init__)) as [t ->].
  destruct (estimate_space_complexity_head (visit tree __init__)) as [s ->].
  split; [by rewrite dom_insert_L, dom_singleton_L|].
  split; (split; [|done]).
  - rewrite lookup_insert_eq. intros H; discriminate H.
  - rewrite lookup_insert_ne by done. rewrite lookup_singleton_eq. intros H; discriminate H.
Qed.

(** ** Binary64 rounding *)

Import scorer.

Section Floats.
#[local] Open Scope Q_scope.

Lemma b64_round_eq q :
  b64_round q =
  if Qeq_bool q 0 then FFin 0
  else if Qle_bool (Qpow2 1024) (nearest (Qabs q)) then FInf (negb (Qle_bool 0 q))
  else FFin (Qred (if Qle_bool 0 q then nearest (Qabs q) else - nearest (Qabs q))).
Proof. reflexivity. Qed.

(** *** Powers of two *)

Lemma Qpow2_pos e : 0 < Qpow2 e.
Proof. apply Qpower_0_lt. reflexivity. Qed.

Lemma Qpow2_add a b : Qpow2 (a + b) == Qpow2 a * Qpow2 b.
Proof. apply Qpower_plus. discriminate. Qed.

Lemma Qpow2_sub a b : Qpow2 (a - b) == Qpow2 a / Qpow2 b.
Proof. apply Qpower_minus. discriminate. Qed.

Lemma Qpow2_le a b : (a ≤ b)%Z → Qpow2 a <= Qpow2 b.
Proof. intros H. apply Qpower_le_compat_l; [done|]. discriminate. Qed.

Lemma Qpow2_lt a b : (a < b)%Z → Qpow2 a < Qpow2 b.
Proof. intros H. apply Qpower_lt_compat_l; [done|]. reflexivity. Qed.

Lemma Qpow2_lt_inv a b : Qpow2 a < Qpow2 b → (a < b)%Z.
Proof. intros H. eapply Qpower_lt_compat_l_inv; [exact H|]. reflexivity. Qed.

Lemma Qpow2_Z k : (0 ≤ k)%Z → Qpow2 k == inject_Z (2 ^ k).
Proof. intros H. unfold Qpow2. by rewrite Zpower_Qpower. Qed.

(** *** The binade of a positive number *)

Lemma binade_spec a : 0 < a → Qpow2 (binade a) <= a ∧ a < Qpow2 (binade a + 1).
Proof.
  intros Ha. destruct a as [n d]. unfold binade. cbn [Qnum Qden].
  assert (Hn : (0 < n)%Z) by (unfold Qlt in Ha; cbn in Ha; lia).
  pose proof (Z.log2_spec n Hn) as [Hn1 Hn2].
  pose proof (Z.log2_spec (Z.pos d) (Pos2Z.is_pos d)) as [Hd1 Hd2].
  pose proof (Z.log2_nonneg n) as Hln. pose proof (Z.log2_nonneg (Z.pos d)) as Hld.
  set (ln := Z.log2 n) in *. set (ld := Z.log2 (Z.pos d)) in *.
  assert (Hp1 : (0 < 2 ^ ld)%Z) by (apply Z.pow_pos_nonneg; lia).
  assert (Hp2 : (0 < 2 ^ Z.succ ld)%Z) by (apply Z.pow_pos_nonneg; lia).
  assert (Hup : n # d < Qpow2 (ln - ld + 1)).
  { replace (ln - ld + 1)%Z with (Z.succ ln - ld)%Z by lia.
    rewrite Qpow2_sub, !Qpow2_Z by lia.
    apply Qlt_shift_div_l; [by rewrite <- (Zlt_Qlt 0)|].
    unfold Qlt, Qmult, inject_Z. cbn [Qnum Qden]. nia. }
  assert (Hlow : Qpow2 (ln - ld - 1) <= n # d).
  { replace (ln - ld - 1)%Z with (ln - Z.succ ld)%Z by lia.
    rewrite Qpow2_sub, !Qpow2_Z by lia.
    apply Qle_shift_div_r; [by rewrite <- (Zlt_Qlt 0)|].
    unfold Qle, Qmult, inject_Z. cbn [Qnum Qden]. nia. }
  destruct (Qle_bool (Qpow2 (ln - ld)) (n # d)) eqn:Hle.
  - split; [by apply Qle_bool_iff|done].
  - split; [done|]. replace (ln - ld - 1 + 1)%Z with (ln - ld)%Z by lia.
    apply Qnot_le_lt. intros H. apply Qle_bool_iff in H. congruence.
Qed.

Lemma binade_unique a e : Qpow2 e <= a → a < Qpow2 (e + 1) → binade a = e.
Proof.
  intros H1 H2.
  assert (Ha : 0 < a) by (eapply Qlt_le_trans; [apply (Qpow2_pos e)|done]).
  destruct (binade_spec a Ha) as [H3 H4].
  assert (binade a < e + 1)%Z by (apply Qpow2_lt_inv; eapply Qle_lt_trans; eauto).
  assert (e < binade a + 1)%Z by (apply Qpow2_lt_inv; eapply Qle_lt_trans; eauto).
  lia.
Qed.

Lemma binade_comp a b : 0 < a → a == b → binade a = binade b.
Proof.
  intros Ha Hab. symmetry. destruct (binade_spec a Ha) as [H1 H2].
  apply binade_unique; by rewrite <- Hab.
Qed.

Lemma binade_le a b : 0 < a → a <= b → (binade a ≤ binade b)%Z.
Proof.
  intros Ha Hab.
  assert (Hb : 0 < b) by (eapply Qlt_le_trans; eauto).
  destruct (binade_spec a Ha) as [H1 _]. destruct (binade_spec b Hb) as [_ H2].
  assert (binade a < binade b + 1)%Z; [|lia].
  apply Qpow2_lt_inv. eapply Qle_lt_trans; [exact H1|]. eapply Qle_lt_trans; eauto.
Qed.

(** *** Rounding to the nearest integer, ties to even *)

Lemma round_half_even_comp x y : x == y → round_half_even x = round_half_even y.
Proof.
  intros H. unfold round_half_even. rewrite (Qfloor_comp _ _ H).
  assert (Hc : (x - inject_Z (Qfloor y) ?= 1 # 2) = (y - inject_Z (Qfloor y) ?= 1 # 2))
    by (by rewrite H).
  by rewrite Hc.
Qed.

Lemma round_half_even_floor x :
  round_half_even x = Qfloor x ∨ round_half_even x = (Qfloor x + 1)%Z.
Proof. unfold round_half_even. repeat case_match; auto. Qed.

Lemma round_half_even_mono x y : x <= y → (round_half_even x ≤ round_half_even y)%Z.
Proof.
  intros Hxy. pose proof (Qfloor_resp_le _ _ Hxy) as Hf.
  destruct (Z.eq_dec (Qfloor x) (Qfloor y)) as [Heq|Hne].
  - unfold round_half_even. rewrite Heq.
    destruct (Qcompare_spec (x - inject_Z (Qfloor y)) (1 # 2)) as [Hx|Hx|Hx];
      destruct (Qcompare_spec (y - inject_Z (Qfloor y)) (1 # 2)) as [Hy|Hy|Hy];
      try lia; try (destruct (Z.even (Qfloor y)); lia); exfalso; lra.
  - destruct (round_half_even_floor x) as [-> | ->];
      destruct (round_half_even_floor y) as [-> | ->]; lia.
Qed.

Lemma round_half_even_ge x k : inject_Z k <= x → (k ≤ round_half_even x)%Z.
Proof.
  intros H. rewrite <- (round_half_even_integer (inject_Z k) k) by reflexivity.
  by apply round_half_even_mono.
Qed.

Lemma round_half_even_le x k : x <= inject_Z k → (round_half_even x ≤ k)%Z.
Proof.
  intros H. apply round_half_even_mono in H.
  by rewrite (round_half_even_integer (inject_Z k) k) in H.
Qed.

(** *** The nearest multiple of the unit in the last place *)

Lemma div_pow2_le x y u : x <= y → x / Qpow2 u <= y / Qpow2 u.
Proof.
  intros H. unfold Qdiv. apply Qmult_le_compat_r; [done|].
  apply Qlt_le_weak, Qinv_lt_0_compat, Qpow2_pos.
Qed.

Lemma div_pow2 e u : Qpow2 e / Qpow2 u == Qpow2 (e - u).
Proof. by rewrite Qpow2_sub. Qed.

Lemma div_le_pos x y s : 0 < s → x <= y → x / s <= y / s.
Proof.
  intros Hs H. unfold Qdiv. apply Qmult_le_compat_r; [done|].
  by apply Qlt_le_weak, Qinv_lt_0_compat.
Qed.

Lemma inject_pow2 k : (0 ≤ k)%Z → inject_Z (2 ^ k) == Qpow2 k.
Proof. intros H. by rewrite Qpow2_Z. Qed.

Lemma nearest_nonneg a : 0 < a → 0 <= nearest a.
Proof.
  intros Ha. unfold nearest. apply Qmult_le_0_compat; [|apply Qlt_le_weak, Qpow2_pos].
  rewrite <- (Zle_Qle 0). apply round_half_even_ge.
  apply Qle_shift_div_l; [apply Qpow2_pos|]. rewrite Qmult_0_l. by apply Qlt_le_weak.
Qed.

Lemma nearest_le_pow2 a :
  0 < a → nearest a <= Qpow2 (Z.max (binade a + 1) (ulp_exponent a)).
Proof.
  intros Ha. destruct (binade_spec a Ha) as [_ Hup].
  set (e := binade a) in *. set (u := ulp_exponent a).
  set (k := Z.max (e + 1 - u) 0).
  assert (Hm : (round_half_even (a / Qpow2 u) ≤ 2 ^ k)%Z).
  { apply round_half_even_le. rewrite inject_pow2 by lia.
    apply Qle_trans with (Qpow2 (e + 1 - u)); [|apply Qpow2_le; lia].
    rewrite <- div_pow2. apply div_pow2_le. by apply Qlt_le_weak. }
  unfold nearest. fold u.
  apply Qle_trans with (inject_Z (2 ^ k) * Qpow2 u).
  - apply Qmult_le_compat_r; [by rewrite <- Zle_Qle|apply Qlt_le_weak, Qpow2_pos].
  - rewrite inject_pow2 by lia. rewrite <- Qpow2_add. apply Qpow2_le. lia.
Qed.

Lemma pow2_le_nearest a :
  0 < a → ulp_exponent a = (binade a - 52)%Z → Qpow2 (binade a) <= nearest a.
Proof.
  intros Ha Hu. destruct (binade_spec a Ha) as [Hlow _].
  unfold nearest. rewrite Hu. set (e := binade a) in *.
  assert (Hm : (2 ^ 52 ≤ round_half_even (a / Qpow2 (e - 52)))%Z).
  { apply round_half_even_ge. rewrite inject_pow2 by lia.
    replace 52%Z with (e - (e - 52))%Z at 1 by lia.
    rewrite <- div_pow2. by apply div_pow2_le. }
  apply Qle_trans with (inject_Z (2 ^ 52) * Qpow2 (e - 52)).
  - rewrite inject_pow2 by lia. rewrite <- Qpow2_add. apply Qpow2_le. lia.
  - apply Qmult_le_compat_r; [by rewrite <- Zle_Qle|apply Qlt_le_weak, Qpow2_pos].
Qed.

Lemma nearest_mono a b : 0 < a → a <= b → nearest a <= nearest b.
Proof.
  intros Ha Hab.
  assert (Hb : 0 < b) by (eapply Qlt_le_trans; eauto).
  pose proof (binade_le a b Ha Hab) as He.
  destruct (Z.eq_dec (ulp_exponent a) (ulp_exponent b)) as [Hu|Hu].
  - unfold nearest. rewrite Hu.
    apply Qmult_le_compat_r; [|apply Qlt_le_weak, Qpow2_pos].
    rewrite <- Zle_Qle. apply round_half_even_mono. by apply div_pow2_le.
  - assert (Hub : ulp_exponent b = (binade b - 52)%Z) by (unfold ulp_exponent in *; lia).
    apply Qle_trans with (Qpow2 (binade b)); [|by apply pow2_le_nearest].
    eapply Qle_trans; [by apply nearest_le_pow2|].
    apply Qpow2_le. unfold ulp_exponent in *. lia.
Qed.

Lemma ulp_exponent_comp a b : 0 < a → a == b → ulp_exponent a = ulp_exponent b.
Proof. intros Ha Hab. unfold ulp_exponent. by rewrite (binade_comp a b). Qed.

Lemma nearest_comp a b : 0 < a → a == b → nearest a == nearest b.
Proof.
  intros Ha Hab. unfold nearest. rewrite (ulp_exponent_comp a b) by done.
  rewrite (round_half_even_comp (a / Qpow2 (ulp_exponent b)) (b / Qpow2 (ulp_exponent b)));
    [reflexivity|]. by rewrite Hab.
Qed.

(** A multiple [m * 2^u] of a unit that is not below the smallest one,
    with at most 53 bits in [m], is its own nearest multiple. *)
Lemma nearest_representable a m u :
  a == inject_Z m * Qpow2 u → (0 < m ≤ 2 ^ 53)%Z → (-1074 ≤ u)%Z → nearest a == a.
Proof.
  intros Ha Hm Hu.
  assert (Hpos : 0 < a).
  { rewrite Ha. apply Qmult_lt_0_compat; [|apply Qpow2_pos]. rewrite <- (Zlt_Qlt 0). lia. }
  destruct (binade_spec a Hpos) as [Hlow Hup].
  assert (Hint : ∀ u', (u' ≤ u)%Z → a / Qpow2 u' == inject_Z (m * 2 ^ (u - u'))).
  { intros u' Hu'. rewrite inject_Z_mult, inject_pow2 by lia.
    rewrite Ha. unfold Qdiv. rewrite <- Qmult_assoc.
    apply Qmult_comp; [reflexivity|]. by rewrite <- div_pow2. }
  assert (Hfix : ∀ u', (u' ≤ u)%Z → ulp_exponent a = u' → nearest a == a).
  { intros u' Hu' Hulp. unfold nearest. rewrite Hulp.
    rewrite (round_half_even_integer _ _ (Hint u' Hu')).
    rewrite <- (Hint u' Hu'). field. apply Qnot_eq_sym, Qlt_not_eq, Qpow2_pos. }
  destruct (Z.eq_dec m (2 ^ 53)%Z) as [->|Hne].
  - assert (He : binade a = (53 + u)%Z).
    { apply binade_unique.
      - rewrite Ha, inject_pow2, <- Qpow2_add by lia. apply Qle_refl.
      - rewrite Ha, inject_pow2, <- Qpow2_add by lia. apply Qpow2_lt. lia. }
    unfold nearest, ulp_exponent. rewrite He.
    replace (Z.max (53 + u - 52) (-1074)) with (u + 1)%Z by lia.
    assert (Hq : a / Qpow2 (u + 1) == inject_Z (2 ^ 52)).
    { rewrite Ha, !inject_pow2 by lia. rewrite <- Qpow2_add, div_pow2.
      apply Qpower_comp; [reflexivity|lia]. }
    rewrite (round_half_even_integer _ _ Hq), <- Hq. field.
    apply Qnot_eq_sym, Qlt_not_eq, Qpow2_pos.
  - apply (Hfix (ulp_exponent a)); [|done].
    assert (Hlt : a < Qpow2 (53 + u)).
    { rewrite Ha, Qpow2_add, <- (inject_pow2 53) by lia.
      apply Qmult_lt_compat_r; [apply Qpow2_pos|]. rewrite <- Zlt_Qlt. lia. }
    assert (binade a < 53 + u)%Z.
    { apply Qpow2_lt_inv. eapply Qle_lt_trans; eauto. }
    unfold ulp_exponent. lia.
Qed.

(** The nearest multiple is one of at most 53 bits. *)
Lemma nearest_bits a :
  0 < a →
  (0 ≤ round_half_even (a / Qpow2 (ulp_exponent a)) ≤ 2 ^ 53)%Z.
Proof.
  intros Ha. destruct (binade_spec a Ha) as [_ Hup]. split.
  - apply round_half_even_ge.
    apply Qle_shift_div_l; [apply Qpow2_pos|]. rewrite Qmult_0_l. by apply Qlt_le_weak.
  - apply round_half_even_le. rewrite inject_pow2 by lia.
    apply Qle_trans with (Qpow2 (binade a + 1 - ulp_exponent a)).
    + rewrite <- div_pow2. apply div_pow2_le. by apply Qlt_le_weak.
    + apply Qpow2_le. unfold ulp_exponent. lia.
Qed.

(** *** [b64_round] *)

Lemma b64_round_zero q : q == 0 → b64_round q = FFin 0.
Proof. intros H. rewrite b64_round_eq. by rewrite (Qeq_eq_bool _ _ H). Qed.

Lemma Qeq_bool_false x y : ¬ x == y → Qeq_bool x y = false.
Proof. intros H. destruct (Qeq_bool x y) eqn:E; [|done]. by apply Qeq_bool_eq in E. Qed.

Lemma Qle_bool_false x y : y < x → Qle_bool x y = false.
Proof.
  intros H. destruct (Qle_bool x y) eqn:E; [|done].
  apply Qle_bool_iff in E. exfalso. by apply (Qlt_not_le _ _ H).
Qed.

Lemma Qle_bool_true x y : x <= y → Qle_bool x y = true.
Proof. apply Qle_bool_iff. Qed.

Lemma b64_round_pos q :
  0 < q →
  b64_round q = if Qle_bool (Qpow2 1024) (nearest q) then FInf false
                else FFin (Qred (nearest q)).
Proof.
  intros Hq. rewrite b64_round_eq.
  rewrite Qeq_bool_false by (by apply Qnot_eq_sym, Qlt_not_eq).
  rewrite (Qle_bool_true 0 q) by (by apply Qlt_le_weak).
  assert (Habs : Qabs q = q).
  { destruct q as [n d]. unfold Qabs. rewrite Z.abs_eq; [done|].
    unfold Qlt in Hq. cbn in Hq. lia. }
  by rewrite Habs.
Qed.

Lemma b64_round_neg q :
  q < 0 →
  b64_round q = if Qle_bool (Qpow2 1024) (nearest (- q)) then FInf true
                else FFin (Qred (- nearest (- q))).
Proof.
  intros Hq. rewrite b64_round_eq.
  rewrite Qeq_bool_false by (by apply Qlt_not_eq).
  rewrite (Qle_bool_false 0 q) by done.
  assert (Habs : Qabs q = - q).
  { destruct q as [n d]. unfold Qabs, Qopp. cbn [Qnum Qden]. rewrite Z.abs_neq; [done|].
    unfold Qlt in Hq. cbn in Hq. lia. }
  by rewrite Habs.
Qed.

Lemma Qsign_cases q : q < 0 ∨ q == 0 ∨ 0 < q.
Proof. destruct (Q_dec q 0) as [[?|?]|?]; auto. Qed.

(** What [b64_round] returns depends on the value of its argument only. *)
Lemma b64_round_comp q q' : q == q' → b64_round q = b64_round q'.
Proof.
  intros H. destruct (Qsign_cases q) as [Hq|[Hq|Hq]].
  - assert (Hq' : q' < 0) by (by rewrite <- H).
    rewrite (b64_round_neg q Hq), (b64_round_neg q' Hq').
    assert (Hn : nearest (- q) == nearest (- q')).
    { apply nearest_comp; [lra|by rewrite H]. }
    rewrite (Qleb_comp _ _ (Qeq_refl _) _ _ Hn).
    destruct (Qle_bool _ _); [done|]. f_equal. apply Qred_complete. by rewrite Hn.
  - rewrite (b64_round_zero q Hq). symmetry. apply b64_round_zero. by rewrite <- H.
  - assert (Hq' : 0 < q') by (by rewrite <- H).
    rewrite (b64_round_pos q Hq), (b64_round_pos q' Hq').
    assert (Hn : nearest q == nearest q') by (by apply nearest_comp).
    rewrite (Qleb_comp _ _ (Qeq_refl _) _ _ Hn).
    destruct (Qle_bool _ _); [done|]. f_equal. by apply Qred_complete.
Qed.

(** Rounding is monotone. *)
Lemma b64_round_mono q q' : q <= q' → float_le (b64_round q) (b64_round q') = true.
Proof.
  intros H.
  destruct (Qsign_cases q) as [Hq|[Hq|Hq]]; destruct (Qsign_cases q') as [Hq'|[Hq'|Hq']];
    try (exfalso; lra).
  - rewrite (b64_round_neg q Hq), (b64_round_neg q' Hq').
    assert (Hn : nearest (- q') <= nearest (- q)) by (apply nearest_mono; lra).
    destruct (Qle_bool _ (nearest (- q))) eqn:E1; destruct (Qle_bool _ (nearest (- q'))) eqn:E2;
      cbn [float_le orb negb]; try done.
    + apply Qle_bool_iff in E2. rewrite Qle_bool_true in E1; [done|].
      by apply Qle_trans with (nearest (- q')).
    + apply Qle_bool_iff. rewrite !Qred_correct. lra.
  - rewrite (b64_round_neg q Hq), (b64_round_zero q' Hq').
    destruct (Qle_bool _ _); cbn [float_le]; [done|].
    apply Qle_bool_iff. rewrite Qred_correct.
    pose proof (nearest_nonneg (- q)). lra.
  - rewrite (b64_round_neg q Hq), (b64_round_pos q' Hq').
    destruct (Qle_bool _ (nearest (- q))); destruct (Qle_bool _ (nearest q'));
      cbn [float_le orb negb]; try done.
    apply Qle_bool_iff. rewrite !Qred_correct.
    pose proof (nearest_nonneg (- q)). pose proof (nearest_nonneg q'). lra.
  - rewrite (b64_round_zero q Hq), (b64_round_zero q' Hq'). reflexivity.
  - rewrite (b64_round_zero q Hq), (b64_round_pos q' Hq').
    destruct (Qle_bool _ _); cbn [float_le negb]; [done|].
    apply Qle_bool_iff. rewrite Qred_correct. by apply nearest_nonneg.
  - rewrite (b64_round_pos q Hq), (b64_round_pos q' Hq').
    assert (Hn : nearest q <= nearest q') by (by apply nearest_mono).
    destruct (Qle_bool _ (nearest q)) eqn:E1; destruct (Qle_bool _ (nearest q')) eqn:E2;
      cbn [float_le orb negb]; try done.
    + apply Qle_bool_iff in E1. rewrite Qle_bool_true in E2; [done|].
      by apply Qle_trans with (nearest q).
    + apply Qle_bool_iff. by rewrite !Qred_correct.
Qed.

Lemma b64_round_not_nan q : b64_round q ≠ FNaN.
Proof. rewrite b64_round_eq. repeat case_match; discriminate. Qed.

(** A number [m * 2^u] with at most 53 bits in [m], a unit that is not
    below the smallest one and a magnitude below [2^1024] is a float:
    rounding returns it. *)
Lemma b64_round_representable q m u :
  q == inject_Z m * Qpow2 u → (Z.abs m ≤ 2 ^ 53)%Z → (-1074 ≤ u)%Z →
  Qabs q < Qpow2 1024 →
  b64_round q = FFin (Qred q).
Proof.
  intros Hq Hm Hu Hfin.
  destruct (Z.lt_trichotomy m 0) as [Hneg|[->|Hpos]].
  - assert (Hq' : - q == inject_Z (- m) * Qpow2 u) by (rewrite Hq, inject_Z_opp; ring).
    assert (Hlt : q < 0).
    { assert (Hm0 : inject_Z m < inject_Z 0) by (by rewrite <- Zlt_Qlt).
      change (inject_Z 0) with 0 in Hm0.
      pose proof (Qpow2_pos u). rewrite Hq. nra. }
    pose proof (nearest_representable (- q) (- m) u Hq') as Hn.
    rewrite (b64_round_neg q Hlt). rewrite Hn by lia.
    rewrite Qle_bool_false.
    + f_equal. apply Qred_complete. rewrite Hn by lia. ring.
    + rewrite <- (Qabs_neg q) by (by apply Qlt_le_weak). done.
  - assert (H0 : q == 0) by (rewrite Hq; ring).
    rewrite (b64_round_zero q H0). f_equal. symmetry.
    change (0 : Q) with (Qred 0). by apply Qred_complete.
  - assert (Hgt : 0 < q).
    { rewrite Hq. apply Qmult_lt_0_compat; [|apply Qpow2_pos]. by rewrite <- (Zlt_Qlt 0). }
    pose proof (nearest_representable q m u Hq) as Hn.
    rewrite (b64_round_pos q Hgt). rewrite Hn by lia.
    rewrite Qle_bool_false.
    + f_equal. apply Qred_complete. apply Hn; lia.
    + rewrite <- (Qabs_pos q) by (by apply Qlt_le_weak). done.
Qed.

(** An integer of at most 53 bits is a float. *)
Lemma b64_round_Z z :
  (Z.abs z ≤ 2 ^ 53)%Z → b64_round (inject_Z z) = FFin (Qred (inject_Z z)).
Proof.
  intros Hz. apply (b64_round_representable _ z 0); [|done|lia|].
  - change (Qpow2 0) with 1. ring.
  - apply Qle_lt_trans with (inject_Z (2 ^ 53)).
    + assert (Habs : Qabs (inject_Z z) == inject_Z (Z.abs z)) by reflexivity.
      rewrite Habs. by rewrite <- Zle_Qle.
    + rewrite inject_pow2 by lia. apply Qpow2_lt. lia.
Qed.

(** What rounding returns is a float: rounding it again changes nothing. *)
Lemma b64_round_idem q r : b64_round q = FFin r → b64_round r = FFin r.
Proof.
  intros H.
  assert (Hrep : ∃ m u, r == inject_Z m * Qpow2 u ∧ (Z.abs m ≤ 2 ^ 53)%Z ∧ (-1074 ≤ u)%Z
                        ∧ Qabs r < Qpow2 1024 ∧ Qred r = r).
  { destruct (Qsign_cases q) as [Hq|[Hq|Hq]].
    - rewrite (b64_round_neg q Hq) in H.
      destruct (Qle_bool _ _) eqn:E; [discriminate|]. injection H as <-.
      assert (Hq' : 0 < - q) by lra.
      pose proof (nearest_bits (- q) Hq') as Hbits.
      exists (- round_half_even (- q / Qpow2 (ulp_exponent (- q))))%Z, (ulp_exponent (- q)).
      split; [rewrite Qred_correct, inject_Z_opp; unfold nearest; ring|].
      split; [lia|]. split; [unfold ulp_exponent; lia|]. split.
      + rewrite Qred_correct, Qabs_opp, Qabs_pos by (by apply nearest_nonneg).
        apply Qnot_le_lt. intros E'. apply Qle_bool_iff in E'. congruence.
      + apply Qred_complete, Qred_correct.
    - rewrite (b64_round_zero q Hq) in H. injection H as <-.
      exists 0%Z, 0%Z. repeat split; try done.
    - rewrite (b64_round_pos q Hq) in H.
      destruct (Qle_bool _ _) eqn:E; [discriminate|]. injection H as <-.
      pose proof (nearest_bits q Hq) as Hbits.
      exists (round_half_even (q / Qpow2 (ulp_exponent q))), (ulp_exponent q).
      split; [by rewrite Qred_correct|].
      split; [lia|]. split; [unfold ulp_exponent; lia|]. split.
      + rewrite Qred_correct, Qabs_pos by (by apply nearest_nonneg).
        apply Qnot_le_lt. intros E'. apply Qle_bool_iff in E'. congruence.
      + apply Qred_complete, Qred_correct. }
  destruct Hrep as (m & u & Hr & Hm & Hu & Hfin & Hred).
  rewrite (b64_round_representable r m u) by done. by rewrite Hred.
Qed.

(** A number between two floats is rounded to a float between them. *)
Lemma b64_round_between lo hi q :
  b64_round lo = FFin lo → b64_round hi = FFin hi → lo <= q → q <= hi →
  ∃ r, b64_round q = FFin r ∧ lo <= r ∧ r <= hi.
Proof.
  intros Hlo Hhi H1 H2.
  pose proof (b64_round_mono _ _ H1) as M1. pose proof (b64_round_mono _ _ H2) as M2.
  rewrite Hlo in M1. rewrite Hhi in M2.
  destruct (b64_round q) as [r|s|]; cbn [float_le] in M1, M2.
  - exists r. split; [done|]. split; by apply Qle_bool_iff.
  - destruct s; discriminate.
  - discriminate.
Qed.

End Floats.

(** ** The scorer *)

Lemma Qle_decide x y : Qle_bool x y = true → (x <= y)%Q.
Proof. apply Qle_bool_iff. Qed.

Ltac binary64 :=
  lazymatch goal with
  | |- is_binary64 _ => eexists; split; [vm_compute; reflexivity|reflexivity]
  end.

Ltac step := cbn [mbind E_bind mret E_ret].

Ltac Qcompute :=
  lazymatch goal with
  | |- (_ <= _)%Q => apply Qle_decide; vm_compute; reflexivity
  end.

Section Scorer.
#[local] Open Scope Q_scope.

Lemma E_bind_inv {A B} (m : E A) (f : A → E B) b :
  m ≫= f = inr b → ∃ a, m = inr a ∧ f a = inr b.
Proof. destruct m as [e|a]; [discriminate|]. eauto. Qed.

(** *** The order of the floats *)

Lemma float_le_refl x : x ≠ FNaN → float_le x x = true.
Proof.
  destruct x as [q|s|]; [| |done]; intros _; cbn.
  - apply Qle_bool_iff, Qle_refl.
  - by destruct s.
Qed.

Lemma float_le_trans x y z : float_le x y = true → float_le y z = true → float_le x z = true.
Proof.
  destruct x as [a|s|], y as [b|t|], z as [c|r|]; cbn; try done;
    repeat match goal with b : bool |- _ => destruct b end; try done.
  rewrite !Qle_bool_iff. apply Qle_trans.
Qed.

Lemma float_lt_le x y : float_lt x y = true → float_le x y = true.
Proof.
  destruct x as [a|s|], y as [b|t|]; cbn; try done;
    repeat match goal with b : bool |- _ => destruct b end; try done.
  rewrite Qlt_bool_true, Qle_bool_iff. apply Qlt_le_weak.
Qed.

Lemma float_lt_false x y : x ≠ FNaN → y ≠ FNaN → float_lt x y = false → float_le y x = true.
Proof.
  destruct x as [a|s|], y as [b|t|]; cbn; try done; intros _ _;
    repeat match goal with b : bool |- _ => destruct b end; try done.
  unfold Qlt_bool. by intros ->%negb_false_iff.
Qed.

Lemma float_lt_not_nan x y : float_lt x y = true → x ≠ FNaN ∧ y ≠ FNaN.
Proof. destruct x as [a|s|], y as [b|t|]; cbn; try done. Qed.

Lemma float_le_not_nan x y : float_le x y = true → x ≠ FNaN ∧ y ≠ FNaN.
Proof. destruct x as [a|s|], y as [b|t|]; cbn; try done. Qed.

(** *** The operations *)

Lemma to_float_not_nan x f : x ≠ Float FNaN → to_float x = inr f → f ≠ FNaN.
Proof.
  destruct x as [z|g]; cbn [to_float].
  - intros _. pose proof (b64_round_not_nan (inject_Z z)).
    destruct (b64_round (inject_Z z)); intros [= <-]; done.
  - intros Hx [= <-]. congruence.
Qed.

Lemma num_mul_float x y z : is_float x ∨ is_float y → num_mul x y = inr z → is_float z.
Proof.
  unfold num_mul. intros Hxy H.
  destruct x, y; try (destruct Hxy as [[? [=]]|[? [=]]]; fail).
  all: apply E_bind_inv in H as (a & _ & H); apply E_bind_inv in H as (b & _ & [= <-]).
  all: by eexists.
Qed.

Lemma num_add_float x y z : is_float x ∨ is_float y → num_add x y = inr z → is_float z.
Proof.
  unfold num_add. intros Hxy H.
  destruct x, y; try (destruct Hxy as [[? [=]]|[? [=]]]; fail).
  all: apply E_bind_inv in H as (a & _ & H); apply E_bind_inv in H as (b & _ & [= <-]).
  all: by eexists.
Qed.

Lemma num_sub_float x y z : is_float x ∨ is_float y → num_sub x y = inr z → is_float z.
Proof.
  unfold num_sub. intros Hxy H.
  destruct x, y; try (destruct Hxy as [[? [=]]|[? [=]]]; fail).
  all: apply E_bind_inv in H as (a & _ & H); apply E_bind_inv in H as (b & _ & [= <-]).
  all: by eexists.
Qed.

Lemma truediv_float a b z : truediv a b = inr z → is_float z.
Proof.
  unfold truediv. destruct (b =? 0)%Z; [discriminate|].
  destruct (b64_round _); intros [= <-]; by eexists.
Qed.

(** *** [round] *)

Lemma py_round_float f n y :
  f ≠ FNaN → py_round (Float f) n = inr y → ∃ g, y = Float g ∧ g ≠ FNaN.
Proof.
  cbn [py_round]. intros Hf. destruct f as [q|s|]; [| |done].
  - destruct (323 <? n)%nat; [intros [= <-]; eexists; split; [reflexivity|done]|].
    pose proof (b64_round_not_nan
                  (inject_Z (round_half_even (q * inject_Z (10 ^ Z.of_nat n)))
                   / inject_Z (10 ^ Z.of_nat n))) as Hnan.
    destruct (b64_round _); intros [= <-]; eexists; (split; [reflexivity|done]).
  - intros [= <-]. eexists; split; [reflexivity|done].
Qed.

Lemma scale_pos n : 0 < inject_Z (10 ^ Z.of_nat n).
Proof.
  change 0 with (inject_Z 0). rewrite <- Zlt_Qlt. apply Z.pow_pos_nonneg; lia.
Qed.

(** Rounding to decimals is monotone. *)
Lemma py_round_mono x y n x' y' :
  float_le x y = true →
  py_round (Float x) n = inr x' → py_round (Float y) n = inr y' →
  num_le x' y' = true.
Proof.
  intros Hle Hx Hy. cbn [py_round] in Hx, Hy. pose proof (scale_pos n) as Hs.
  set (s := inject_Z (10 ^ Z.of_nat n)) in *.
  assert (Hfin : ∀ q f, match b64_round (inject_Z (round_half_even (q * s)) / s) with
                        | FInf _ => inl OverflowError
                        | f => mret (Float f)
                        end = inr f →
                        f = Float (b64_round (inject_Z (round_half_even (q * s)) / s))).
  { intros q f. destruct (b64_round _); intros [= <-]; done. }
  destruct x as [a|sa|], y as [b|sb|]; try discriminate Hle.
  - destruct (323 <? n)%nat.
    + injection Hx as <-. injection Hy as <-. exact Hle.
    + apply Hfin in Hx as ->. apply Hfin in Hy as ->. unfold num_le. cbn [value].
      apply b64_round_mono. apply div_le_pos; [done|].
      rewrite <- Zle_Qle. apply round_half_even_mono.
      apply Qmult_le_compat_r; [by apply Qle_bool_iff|by apply Qlt_le_weak].
  - destruct sb; [discriminate|]. injection Hy as <-.
    destruct (323 <? n)%nat; [by injection Hx as <-|].
    apply Hfin in Hx as ->. unfold num_le. cbn [value].
    pose proof (b64_round_not_nan (inject_Z (round_half_even (a * s)) / s)).
    by destruct (b64_round _) as [?|[]|].
  - destruct sa; [|discriminate]. injection Hx as <-.
    destruct (323 <? n)%nat; [by injection Hy as <-|].
    apply Hfin in Hy as ->. unfold num_le. cbn [value].
    pose proof (b64_round_not_nan (inject_Z (round_half_even (b * s)) / s)).
    by destruct (b64_round _) as [?|[]|].
  - injection Hx as <-. injection Hy as <-. exact Hle.
Qed.

(** *** [calculate_score], step by step *)

Lemma calculate_score_inv passed total points et at_ mu am r :
  calculate_score passed total points et at_ mu am = inr r →
  total ≠ 0%Z →
  ∃ pass_rate base tb mb pen fs cap,
    truediv passed total = inr pass_rate
    ∧ num_mul pass_rate (Int points) = inr base
    ∧ (if num_ge pass_rate (Float (float_literal (5 # 10))) && num_gt et (Int 0)
       then if num_lt et at_ then num_mul base (Float (float_literal (5 # 100)))
            else mret (Int 0)
       else mret (Int 0)) = inr tb
    ∧ (if num_ge pass_rate (Float (float_literal (5 # 10))) && num_gt mu (Int 0)
       then if num_lt mu am then num_mul base (Float (float_literal (5 # 100)))
            else mret (Int 0)
       else mret (Int 0)) = inr mb
    ∧ (if num_gt pass_rate (Float (float_literal (5 # 10))) then
         tenth ← num_mul base (Float (float_literal (10 # 100)));
         per_failure ← num_mul (Int (total - passed)) tenth;
         cap ← num_mul base (Float (float_literal (3 # 10)));
         mret (py_min per_failure cap)
       else mret (Int 0)) = inr pen
    ∧ (s ← num_add base tb; s ← num_add s mb; num_sub s pen) = inr fs
    ∧ num_mul (Int points) (Float (float_literal (11 # 10))) = inr cap
    ∧ py_round base 2 = inr (base_score r)
    ∧ py_round tb 2 = inr (time_bonus r)
    ∧ py_round mb 2 = inr (memory_bonus r)
    ∧ py_round pen 2 = inr (penalty r)
    ∧ py_round (py_max (Int 0) (py_min fs cap)) 2 = inr (final_score r).
Proof.
  intros H Ht. unfold calculate_score in H.
  rewrite (proj2 (Z.eqb_neq total 0) Ht) in H.
  apply E_bind_inv in H as (pass_rate & H1 & H).
  apply E_bind_inv in H as (base & H2 & H).
  apply E_bind_inv in H as (tb & H3 & H).
  apply E_bind_inv in H as (mb & H4 & H).
  apply E_bind_inv in H as (pen & H5 & H).
  apply E_bind_inv in H as (fs & H6 & H).
  apply E_bind_inv in H as (cap & H7 & H).
  apply E_bind_inv in H as (base' & H8 & H).
  apply E_bind_inv in H as (tb' & H9 & H).
  apply E_bind_inv in H as (mb' & H10 & H).
  apply E_bind_inv in H as (pen' & H11 & H).
  apply E_bind_inv in H as (fs' & H12 & H).
  apply E_bind_inv in H as (percent & H13 & H).
  injection H as <-. cbn [base_score time_bonus memory_bonus penalty final_score].
  exists pass_rate, base, tb, mb, pen, fs, cap. repeat split; assumption.
Qed.

Lemma literal_11_10 :
  float_literal (11 # 10) = FFin (2476979795053773 # 2251799813685248).
Proof. vm_compute. reflexivity. Qed.

Lemma literal_5_10 : float_literal (5 # 10) = FFin (1 # 2).
Proof. vm_compute. reflexivity. Qed.

Lemma literal_5_100 :
  float_literal (5 # 100) = FFin (3602879701896397 # 72057594037927936).
Proof. vm_compute. reflexivity. Qed.

Lemma literal_10_100 :
  float_literal (10 # 100) = FFin (3602879701896397 # 36028797018963968).
Proof. vm_compute. reflexivity. Qed.

Lemma literal_3_10 :
  float_literal (3 # 10) = FFin (5404319552844595 # 18014398509481984).
Proof. vm_compute. reflexivity. Qed.

Lemma literal_7_10 :
  float_literal (7 # 10) = FFin (3152519739159347 # 4503599627370496).
Proof. vm_compute. reflexivity. Qed.

Lemma b64_round_0 : b64_round 0 = FFin 0.
Proof. reflexivity. Qed.

(** The float of a natural number is not negative. *)
Lemma to_float_nonneg z f :
  (0 ≤ z)%Z → to_float (Int z) = inr f → float_le (FFin 0) f = true.
Proof.
  intros Hz. cbn [to_float].
  assert (Hm : float_le (b64_round 0) (b64_round (inject_Z z)) = true).
  { apply b64_round_mono. change 0 with (inject_Z 0). by rewrite <- Zle_Qle. }
  rewrite b64_round_0 in Hm.
  destruct (b64_round (inject_Z z)); intros [= <-]; done.
Qed.

(** The cap [question_points * 1.1] is a float, and it is not negative
    when the points are not. *)
Lemma cap_spec points cap :
  num_mul (Int points) (Float (float_literal (11 # 10))) = inr cap →
  ∃ c, cap = Float c ∧ c ≠ FNaN
       ∧ ((0 ≤ points)%Z → float_le (FFin 0) c = true).
Proof.
  rewrite literal_11_10. unfold num_mul. intros H.
  apply E_bind_inv in H as (a & Ha & H). apply E_bind_inv in H as (b & Hb & H).
  cbn [to_float] in Hb. injection Hb as <-. unfold mret, E_ret in H. injection H as <-.
  pose proof (to_float_not_nan (Int points) a ltac:(done) Ha) as Hnan.
  eexists. split; [reflexivity|].
  destruct a as [a|s|]; [| |done].
  - cbn [float_mul]. split; [apply b64_round_not_nan|].
    intros Hp. pose proof (to_float_nonneg _ _ Hp Ha) as Ha0.
    cbn [float_le] in Ha0. apply Qle_bool_iff in Ha0.
    rewrite <- b64_round_0. apply b64_round_mono. nra.
  - cbn [float_mul]. split; [discriminate|].
    intros Hp. pose proof (to_float_nonneg _ _ Hp Ha) as Ha0. by destruct s.
Qed.

Lemma py_round_zero n : py_round (Float (FFin 0)) n = inr (Float (FFin 0)).
Proof.
  cbn [py_round]. destruct (323 <? n)%nat; [done|].
  rewrite (b64_round_zero (inject_Z (round_half_even _) / _)); [done|].
  rewrite (round_half_even_integer _ 0); [reflexivity|]. ring.
Qed.

(** *** Intervals *)

Lemma is_binary64_Z z : (Z.abs z ≤ 2 ^ 53)%Z → is_binary64 (inject_Z z).
Proof. intros H. eexists. split; [by apply b64_round_Z|apply Qred_correct]. Qed.

Lemma is_binary64_between lo hi q :
  is_binary64 lo → is_binary64 hi → lo <= q → q <= hi →
  ∃ r, b64_round q = FFin r ∧ lo <= r ∧ r <= hi.
Proof.
  intros (lo' & Hlo & Elo) (hi' & Hhi & Ehi) H1 H2.
  pose proof (b64_round_mono _ _ H1) as M1. pose proof (b64_round_mono _ _ H2) as M2.
  rewrite Hlo in M1. rewrite Hhi in M2.
  destruct (b64_round q) as [r|s|]; cbn [float_le] in M1, M2.
  - exists r. split; [done|]. apply Qle_bool_iff in M1, M2. split; lra.
  - destruct s; discriminate.
  - discriminate.
Qed.

Lemma within_weaken lo hi lo' hi' x :
  within lo hi x → lo' <= lo → hi <= hi' → within lo' hi' x.
Proof. intros (q & Hq & H1 & H2) Hlo Hhi. exists q. split; [done|]. split; lra. Qed.

Lemma within_Int lo hi z : lo <= inject_Z z → inject_Z z <= hi → within lo hi (Int z).
Proof. intros H1 H2. by exists (inject_Z z). Qed.

Lemma within_Float lo hi q : lo <= q → q <= hi → within lo hi (Float (FFin q)).
Proof. intros H1 H2. by exists q. Qed.

Lemma to_float_within lo hi x :
  within lo hi x → is_binary64 lo → is_binary64 hi →
  ∃ q, to_float x = inr (FFin q) ∧ lo <= q ∧ q <= hi.
Proof.
  intros (q & Hq & H1 & H2) Hlo Hhi. destruct x as [z|f]; cbn [value] in Hq.
  - injection Hq as <-. cbn [to_float].
    destruct (is_binary64_between lo hi (inject_Z z) Hlo Hhi H1 H2) as (r & -> & Hr).
    exists r. split; [done|apply Hr].
  - subst f. by exists q.
Qed.

Lemma num_mul_within A B C x y :
  within 0 A x → within 0 B y → is_binary64 A → is_binary64 B → is_binary64 C →
  A * B <= C →
  ∃ z, num_mul x y = inr z ∧ within 0 C z.
Proof.
  intros Hx Hy HA HB HC HAB.
  assert (H0 : is_binary64 0) by binary64.
  destruct (to_float_within _ _ _ Hx H0 HA) as (a & Ha & Ha1 & Ha2).
  destruct (to_float_within _ _ _ Hy H0 HB) as (b & Hb & Hb1 & Hb2).
  assert (Hab : 0 <= a * b ∧ a * b <= C) by (split; nra).
  destruct (is_binary64_between 0 C (a * b) H0 HC (proj1 Hab) (proj2 Hab)) as (r & Hr & Hr').
  destruct x as [zx|fx], y as [zy|fy]; unfold num_mul.
  - eexists. split; [reflexivity|].
    destruct Hx as (qx & [= <-] & Hx1 & Hx2). destruct Hy as (qy & [= <-] & Hy1 & Hy2).
    apply within_Int; rewrite inject_Z_mult; nra.
  - rewrite Ha, Hb. cbn. rewrite Hr. eexists. split; [reflexivity|]. apply within_Float; apply Hr'.
  - rewrite Ha, Hb. cbn. rewrite Hr. eexists. split; [reflexivity|]. apply within_Float; apply Hr'.
  - rewrite Ha, Hb. cbn. rewrite Hr. eexists. split; [reflexivity|]. apply within_Float; apply Hr'.
Qed.

Lemma num_add_within lo1 hi1 lo2 hi2 L H x y :
  within lo1 hi1 x → within lo2 hi2 y →
  is_binary64 lo1 → is_binary64 hi1 → is_binary64 lo2 → is_binary64 hi2 →
  is_binary64 L → is_binary64 H → L <= lo1 + lo2 → hi1 + hi2 <= H →
  ∃ z, num_add x y = inr z ∧ within L H z.
Proof.
  intros Hx Hy B1 B2 B3 B4 BL BH HL HH.
  destruct (to_float_within _ _ _ Hx B1 B2) as (a & Ha & Ha1 & Ha2).
  destruct (to_float_within _ _ _ Hy B3 B4) as (b & Hb & Hb1 & Hb2).
  assert (Hab : L <= a + b ∧ a + b <= H) by (split; lra).
  destruct (is_binary64_between L H (a + b) BL BH (proj1 Hab) (proj2 Hab)) as (r & Hr & Hr').
  destruct x as [zx|fx], y as [zy|fy]; unfold num_add.
  - eexists. split; [reflexivity|].
    destruct Hx as (qx & [= <-] & Hx1 & Hx2). destruct Hy as (qy & [= <-] & Hy1 & Hy2).
    apply within_Int; rewrite inject_Z_plus; lra.
  - rewrite Ha, Hb. cbn. rewrite Hr. eexists. split; [reflexivity|]. apply within_Float; apply Hr'.
  - rewrite Ha, Hb. cbn. rewrite Hr. eexists. split; [reflexivity|]. apply within_Float; apply Hr'.
  - rewrite Ha, Hb. cbn. rewrite Hr. eexists. split; [reflexivity|]. apply within_Float; apply Hr'.
Qed.

Lemma num_sub_within lo1 hi1 lo2 hi2 L H x y :
  within lo1 hi1 x → within lo2 hi2 y →
  is_binary64 lo1 → is_binary64 hi1 → is_binary64 lo2 → is_binary64 hi2 →
  is_binary64 L → is_binary64 H → L <= lo1 - hi2 → hi1 - lo2 <= H →
  ∃ z, num_sub x y = inr z ∧ within L H z.
Proof.
  intros Hx Hy B1 B2 B3 B4 BL BH HL HH.
  destruct (to_float_within _ _ _ Hx B1 B2) as (a & Ha & Ha1 & Ha2).
  destruct (to_float_within _ _ _ Hy B3 B4) as (b & Hb & Hb1 & Hb2).
  assert (Hab : L <= a - b ∧ a - b <= H) by (split; lra).
  destruct (is_binary64_between L H (a - b) BL BH (proj1 Hab) (proj2 Hab)) as (r & Hr & Hr').
  destruct x as [zx|fx], y as [zy|fy]; unfold num_sub.
  - eexists. split; [reflexivity|].
    destruct Hx as (qx & [= <-] & Hx1 & Hx2). destruct Hy as (qy & [= <-] & Hy1 & Hy2).
    apply within_Int; unfold Z.sub; rewrite inject_Z_plus, inject_Z_opp; lra.
  - rewrite Ha, Hb. cbn. rewrite Hr. eexists. split; [reflexivity|]. apply within_Float; apply Hr'.
  - rewrite Ha, Hb. cbn. rewrite Hr. eexists. split; [reflexivity|]. apply within_Float; apply Hr'.
  - rewrite Ha, Hb. cbn. rewrite Hr. eexists. split; [reflexivity|]. apply within_Float; apply Hr'.
Qed.

(** Rounding to [n] decimals keeps a number between two bounds that have
    at most [n] decimals themselves. *)
Lemma py_round_within lo hi x n klo khi :
  within lo hi x → is_binary64 lo → is_binary64 hi →
  lo * inject_Z (10 ^ Z.of_nat n) == inject_Z klo →
  hi * inject_Z (10 ^ Z.of_nat n) == inject_Z khi →
  ∃ z, py_round x n = inr z ∧ within lo hi z.
Proof.
  intros (q & Hq & H1 & H2) Blo Bhi Hklo Hkhi. pose proof (scale_pos n) as Hs.
  destruct x as [z|f]; cbn [value] in Hq.
  - injection Hq as <-. exists (Int z). split; [reflexivity|]. by apply within_Int.
  - subst f. cbn [py_round]. destruct (323 <? n)%nat.
    { eexists. split; [reflexivity|]. by apply within_Float. }
    set (s := inject_Z (10 ^ Z.of_nat n)) in *.
    assert (Hr : lo <= inject_Z (round_half_even (q * s)) / s
                 ∧ inject_Z (round_half_even (q * s)) / s <= hi).
    { split.
      - apply Qle_shift_div_l; [done|]. rewrite Hklo, <- Zle_Qle.
        apply round_half_even_ge. rewrite <- Hklo. nra.
      - apply Qle_shift_div_r; [done|]. rewrite Hkhi, <- Zle_Qle.
        apply round_half_even_le. rewrite <- Hkhi. nra. }
    destruct (is_binary64_between lo hi _ Blo Bhi (proj1 Hr) (proj2 Hr)) as (r & -> & Hr').
    eexists. split; [reflexivity|]. apply within_Float; apply Hr'.
Qed.

Lemma truediv_within passed total :
  (0 ≤ passed ≤ total)%Z → (0 < total)%Z →
  ∃ z, truediv passed total = inr z ∧ within 0 1 z.
Proof.
  intros Hp Ht. unfold truediv. rewrite (proj2 (Z.eqb_neq total 0)) by lia.
  assert (Hq : 0 <= inject_Z passed / inject_Z total ∧ inject_Z passed / inject_Z total <= 1).
  { assert (Ht' : 0 < inject_Z total) by (change 0 with (inject_Z 0); rewrite <- Zlt_Qlt; lia).
    split.
    - apply Qle_shift_div_l; [done|]. rewrite Qmult_0_l.
      change 0 with (inject_Z 0). rewrite <- Zle_Qle. lia.
    - apply Qle_shift_div_r; [done|]. rewrite Qmult_1_l, <- Zle_Qle. lia. }
  destruct (is_binary64_between 0 1 _ ltac:(binary64) ltac:(binary64) (proj1 Hq) (proj2 Hq))
    as (r & -> & Hr).
  eexists. split; [reflexivity|]. apply within_Float; apply Hr.
Qed.

Lemma py_min_within lo hi x y : within lo hi x → within lo hi y → within lo hi (py_min x y).
Proof. unfold py_min. by destruct (num_lt y x). Qed.

Lemma py_max_within lo hi x y : within lo hi x → within lo hi y → within lo hi (py_max x y).
Proof. unfold py_max. by destruct (num_gt y x). Qed.

(** *** [calculate_score] on sensible arguments *)

Lemma within_literal q r : float_literal q = FFin r → within r r (Float (float_literal q)).
Proof. intros ->. apply within_Float; apply Qle_refl. Qed.

Lemma bonus_within base (c1 c2 : bool) :
  within 0 two31 base →
  ∃ bonus,
    (if c1 then if c2 then num_mul base (Float (float_literal (5 # 100))) else mret (Int 0)
     else mret (Int 0)) = inr bonus
    ∧ within 0 two31 bonus.
Proof.
  intros Hbase.
  assert (H0 : within 0 two31 (Int 0)) by (apply within_Int; Qcompute).
  destruct c1; [|by exists (Int 0)]. destruct c2; [|by exists (Int 0)].
  apply (num_mul_within two31 1 two31); try binary64; [done| |Qcompute].
  eapply within_weaken; [apply (within_literal _ _ literal_5_100)|Qcompute|Qcompute].
Qed.

Lemma penalty_within base failed (c : bool) :
  within 0 two31 base → within 0 two31 (Int failed) →
  ∃ pen,
    (if c then
       tenth ← num_mul base (Float (float_literal (10 # 100)));
       per_failure ← num_mul (Int failed) tenth;
       cap ← num_mul base (Float (float_literal (3 # 10)));
       mret (py_min per_failure cap)
     else mret (Int 0)) = inr pen
    ∧ within 0 (two31 * two31) pen.
Proof.
  intros Hbase Hfailed.
  destruct c; [|exists (Int 0); split; [done|apply within_Int; Qcompute]].
  destruct (num_mul_within two31 1 two31 base (Float (float_literal (10 # 100))))
    as (tenth & -> & Htenth); try binary64; [done| |Qcompute|].
  { eapply within_weaken; [apply (within_literal _ _ literal_10_100)|Qcompute|Qcompute]. }
  cbn [mbind E_bind].
  destruct (num_mul_within two31 two31 (two31 * two31) (Int failed) tenth)
    as (per_failure & -> & Hper); try binary64; [done|done|Qcompute|].
  cbn [mbind E_bind].
  destruct (num_mul_within two31 1 two31 base (Float (float_literal (3 # 10))))
    as (cap & -> & Hcap); try binary64; [done| |Qcompute|].
  { eapply within_weaken; [apply (within_literal _ _ literal_3_10)|Qcompute|Qcompute]. }
  cbn [mbind E_bind]. eexists. split; [reflexivity|].
  apply py_min_within; [done|]. eapply within_weaken; [exact Hcap|Qcompute|Qcompute].
Qed.

End Scorer.

(** X17.  When the number of testcases passed lies between 0 and the
    total, the total is positive and at most [2^31] and the points lie
    between 0 and [2^31], [calculate_score] returns a result, whatever the
    time and memory figures are: no operation overflows. *)
Theorem calculate_score_returns passed total points et at_ mu am :
  (0 ≤ passed ≤ total)%Z → (0 < total ≤ 2 ^ 31)%Z → (0 ≤ points ≤ 2 ^ 31)%Z →
  ∃ r, calculate_score passed total points et at_ mu am = inr r.
Proof.
  intros Hp Ht Hpts. unfold calculate_score.
  rewrite (proj2 (Z.eqb_neq total 0)) by lia.
  assert (Hz : ∀ z, (0 ≤ z ≤ 2 ^ 31)%Z → within 0 two31 (Int z)).
  { intros z Hz. apply within_Int.
    - change 0%Q with (inject_Z 0). rewrite <- Zle_Qle. lia.
    - change two31 with (inject_Z (2 ^ 31)). rewrite <- Zle_Qle. lia. }
  destruct (truediv_within passed total Hp) as (rate & -> & Hrate); [lia|].
  cbn [mbind E_bind].
  destruct (num_mul_within 1 two31 two31 rate (Int points)) as (base & -> & Hbase);
    try binary64; [done|by apply Hz|Qcompute|].
  cbn [mbind E_bind].
  destruct (bonus_within base
              (num_ge rate (Float (float_literal (5 # 10))) && num_gt et (Int 0))
              (num_lt et at_) Hbase) as (tb & -> & Htb).
  cbn [mbind E_bind].
  destruct (bonus_within base
              (num_ge rate (Float (float_literal (5 # 10))) && num_gt mu (Int 0))
              (num_lt mu am) Hbase) as (mb & -> & Hmb).
  cbn [mbind E_bind].
  destruct (penalty_within base (total - passed)
              (num_gt rate (Float (float_literal (5 # 10)))) Hbase) as (pen & -> & Hpen);
    [apply Hz; lia|].
  cbn [mbind E_bind].
  destruct (num_add_within 0 two31 0 two31 0 (2 * two31) base tb) as (s1 & -> & Hs1);
    try binary64; [done|done|Qcompute|Qcompute|].
  cbn [mbind E_bind].
  destruct (num_add_within 0 (2 * two31) 0 two31 0 (4 * two31) s1 mb) as (s2 & -> & Hs2);
    try binary64; [done|done|Qcompute|Qcompute|].
  cbn [mbind E_bind].
  destruct (num_sub_within 0 (4 * two31) 0 (two31 * two31) (- (two31 * two31)) (4 * two31) s2 pen) as (fs & -> & Hfs);
    try binary64; [done|done|Qcompute|Qcompute|].
  cbn [mbind E_bind].
  destruct (num_mul_within two31 2 (2 * two31) (Int points) (Float (float_literal (11 # 10))))
    as (cap & -> & Hcap); try binary64; [by apply Hz| |Qcompute|].
  { eapply within_weaken; [apply (within_literal _ _ literal_11_10)|Qcompute|Qcompute]. }
  cbn [mbind E_bind].
  assert (Hfinal : within (- (two31 * two31)) (4 * two31) (py_max (Int 0) (py_min fs cap))).
  { apply py_max_within; [apply within_Int; Qcompute|].
    apply py_min_within; [done|]. eapply within_weaken; [exact Hcap|Qcompute|Qcompute]. }
  destruct (py_round_within 0 two31 base 2 0 214748364800 Hbase) as (base' & -> & _);
    try binary64; try reflexivity.
  cbn [mbind E_bind].
  destruct (py_round_within 0 two31 tb 2 0 214748364800 Htb) as (tb' & -> & _);
    try binary64; try reflexivity.
  cbn [mbind E_bind].
  destruct (py_round_within 0 two31 mb 2 0 214748364800 Hmb) as (mb' & -> & _);
    try binary64; try reflexivity.
  cbn [mbind E_bind].
  destruct (py_round_within 0 (two31 * two31) pen 2 0 461168601842738790400 Hpen) as (pen' & -> & _);
    try binary64; try reflexivity.
  cbn [mbind E_bind].
  destruct (py_round_within (- (two31 * two31)) (4 * two31) _ 2 (-461168601842738790400) 858993459200
              Hfinal) as (final' & -> & _); try binary64; try reflexivity.
  cbn [mbind E_bind].
  destruct (num_mul_within 1 100 100 rate (Int 100)) as (p & -> & Hpc);
    try binary64; [done|apply within_Int; Qcompute|Qcompute|].
  cbn [mbind E_bind].
  destruct (py_round_within 0 100 p 1 0 1000 Hpc) as (percent & -> & _);
    try binary64; try reflexivity.
  cbn [mbind E_bind]. by eexists.
Qed.

Lemma calculate_score_returns_witness :
  ∃ r, calculate_score 7 12 100 (Float (FFin 30)) (Int 100) (Float (FFin 6)) (Int 50) = inr r.
Proof. apply calculate_score_returns; lia. Defined.

(** X18.  For a rule-based score between 0 and 110 and an AI score
    between 0 and 10, [combine_scores] with its default weights returns a
    score between 0 and 107. *)
Theorem combined_score_range rule ai :
  within 0 110 rule → within 0 10 ai →
  ∃ final, combine_scores rule ai default_rule_weight default_ai_weight = inr final
           ∧ within 0 107 final.
Proof.
  intros Hrule Hai. unfold combine_scores, default_rule_weight, default_ai_weight.
  destruct (num_mul_within 10 10 100 ai (Int 10)) as (n & -> & Hn);
    try binary64; [done|apply within_Int; Qcompute|Qcompute|].
  cbn [mbind E_bind].
  destruct (num_mul_within 110 (3152519739159347 # 4503599627370496) 77 rule
              (Float (float_literal (7 # 10)))) as (a & -> & Ha);
    try binary64; [done| |Qcompute|].
  { eapply within_weaken; [apply (within_literal _ _ literal_7_10)|Qcompute|Qcompute]. }
  cbn [mbind E_bind].
  destruct (num_mul_within 100 (5404319552844595 # 18014398509481984) 30 n
              (Float (float_literal (3 # 10)))) as (b & -> & Hb);
    try binary64; [done| |Qcompute|].
  { eapply within_weaken; [apply (within_literal _ _ literal_3_10)|Qcompute|Qcompute]. }
  cbn [mbind E_bind].
  destruct (num_add_within 0 77 0 30 0 107 a b) as (final & -> & Hfinal);
    try binary64; [done|done|Qcompute|Qcompute|].
  cbn [mbind E_bind].
  apply (py_round_within 0 107 final 2 0 10700 Hfinal); try binary64; reflexivity.
Qed.

Lemma combined_score_range_witness :
  ∃ final,
    combine_scores (Float (FFin (8833 # 100))) (Float (FFin (15 # 2)))
      default_rule_weight default_ai_weight = inr final
    ∧ within 0 107 final.
Proof.
  apply combined_score_range; apply within_Float; apply Qle_bool_iff; reflexivity.
Defined.

(** X16.  Whatever its arguments, a score that [calculate_score]
    returns is not negative, and with points that are not negative it is
    not above the cap [round(question_points * 1.1, 2)]; it is never
    [NaN]. *)
Theorem final_score_is_within_the_cap passed total points et at_ mu am r :
  calculate_score passed total points et at_ mu am = inr r →
  num_le (Int 0) (final_score r) = true
  ∧ ((0 ≤ points)%Z → ∀ cap, score_cap points = inr cap →
       num_le (final_score r) cap = true).
Proof.
  intros H.
  assert (Hcap0 : (0 ≤ points)%Z → ∀ cap, score_cap points = inr cap →
            num_le (Int 0) cap = true).
  { intros Hp cap' Hc. unfold score_cap in Hc. apply E_bind_inv in Hc as (cap & Hc & Hr).
    destruct (cap_spec _ _ Hc) as (c & -> & Hnan & Hc0).
    apply (py_round_mono _ _ 2 _ _ (Hc0 Hp) (py_round_zero 2) Hr). }
  destruct (Z.eq_dec total 0) as [->|Ht].
  { injection H as <-. cbn [final_score]. split; [reflexivity|]. exact Hcap0. }
  destruct (calculate_score_inv _ _ _ _ _ _ _ _ H Ht)
    as (pass_rate & base & tb & mb & pen & fs & cap & H1 & H2 & H3 & H4 & H5 & H6 & H7
        & _ & _ & _ & _ & Hfinal).
  destruct (cap_spec _ _ H7) as (c & -> & Hnan & Hc0).
  unfold py_max, num_gt in Hfinal.
  destruct (num_lt (Int 0) (py_min fs (Float c))) eqn:Hpos.
  2: { injection Hfinal as <-. split; [reflexivity|]. exact Hcap0. }
  assert (Hy : ∃ y, py_min fs (Float c) = Float y ∧ float_lt (FFin 0) y = true
                    ∧ float_le y c = true).
  { unfold py_min in *. destruct (num_lt (Float c) fs) eqn:Hlt.
    - exists c. split; [done|]. split; [exact Hpos|]. by apply float_le_refl.
    - destruct fs as [z|y].
      + exfalso. apply E_bind_inv in H6 as (s1 & Hs1 & H6).
        apply E_bind_inv in H6 as (s2 & Hs2 & H6).
        apply truediv_float in H1. apply num_mul_float in H2; [|by left].
        apply num_add_float in Hs1; [|by left]. apply num_add_float in Hs2; [|by left].
        apply num_sub_float in H6; [|by left]. by destruct H6.
      + exists y. split; [done|]. split; [exact Hpos|].
        apply float_lt_false; [done| |exact Hlt].
        by apply (float_lt_not_nan _ _ Hpos). }
  destruct Hy as (y & Hy & Hy0 & Hyc). rewrite Hy in Hfinal. split.
  - apply (py_round_mono _ _ 2 _ _ (float_lt_le _ _ Hy0) (py_round_zero 2) Hfinal).
  - intros _ cap' Hc. unfold score_cap in Hc. rewrite H7 in Hc.
    apply (py_round_mono _ _ 2 _ _ Hyc Hfinal Hc).
Qed.

Lemma final_score_is_within_the_cap_witness :
  ∃ r, calculate_score 9 10 100 (Float (FFin 30)) (Int 100) (Float (FFin 6)) (Int 50) = inr r
       ∧ num_le (Int 0) (final_score r) = true
       ∧ num_le (final_score r) (Float (FFin 110)) = true.
Proof.
  destruct (calculate_score 9 10 100 (Float (FFin 30)) (Int 100) (Float (FFin 6)) (Int 50))
    as [e|r] eqn:H; [exfalso; vm_compute in H; discriminate|].
  exists r. split; [reflexivity|].
  destruct (final_score_is_within_the_cap _ _ _ _ _ _ _ _ H) as [H0 Hcap].
  split; [exact H0|]. apply Hcap; [lia|]. vm_compute. reflexivity.
Defined.

(** *** Exact steps *)

Section Exact.
#[local] Open Scope Q_scope.

Lemma float_q_round q r : b64_round q = FFin r → float_q r.
Proof. apply b64_round_idem. Qed.

Lemma float_q_Z z : (Z.abs z ≤ 2 ^ 53)%Z → float_q (Qred (inject_Z z)).
Proof.
  intros Hz. unfold float_q.
  rewrite (b64_round_comp _ (inject_Z z)) by apply Qred_correct. by apply b64_round_Z.
Qed.

Lemma b64_round_float q r : float_q r → q == r → b64_round q = FFin r.
Proof. intros Hr Hq. by rewrite (b64_round_comp q r). Qed.

Lemma float_q_is_binary64 r : float_q r → is_binary64 r.
Proof. intros H. exists r. split; [done|reflexivity]. Qed.

Lemma truediv_same t : (0 < t)%Z → truediv t t = inr (Float (FFin 1)).
Proof.
  intros Ht. unfold truediv. rewrite (proj2 (Z.eqb_neq t 0)) by lia.
  rewrite (b64_round_float _ 1); [done|reflexivity|].
  assert (Ht' : 0 < inject_Z t) by (change 0 with (inject_Z 0); rewrite <- Zlt_Qlt; lia).
  field. lra.
Qed.

Lemma to_float_Z z :
  (Z.abs z ≤ 2 ^ 53)%Z → to_float (Int z) = inr (FFin (Qred (inject_Z z))).
Proof. intros Hz. cbn [to_float]. by rewrite b64_round_Z. Qed.

Lemma py_round_integer q z n :
  float_q q → q == inject_Z z → py_round (Float (FFin q)) n = inr (Float (FFin q)).
Proof.
  intros Hq Hz. cbn [py_round]. destruct (323 <? n)%nat; [done|].
  pose proof (scale_pos n) as Hs. set (s := inject_Z (10 ^ Z.of_nat n)) in *.
  assert (Hr : round_half_even (q * s) = (z * 10 ^ Z.of_nat n)%Z).
  { apply round_half_even_integer. rewrite inject_Z_mult, Hz. reflexivity. }
  rewrite Hr, (b64_round_float _ q); [done|done|].
  rewrite inject_Z_mult, Hz. fold s. field. lra.
Qed.

Lemma to_float_0 : to_float (Int 0) = inr (FFin 0).
Proof. reflexivity. Qed.

Lemma num_mul_FF x y : num_mul (Float x) (Float y) = inr (Float (float_mul x y)).
Proof. reflexivity. Qed.

Lemma num_mul_IF z y f :
  to_float (Int z) = inr f → num_mul (Int z) (Float y) = inr (Float (float_mul f y)).
Proof. intros H. unfold num_mul. by rewrite H. Qed.

Lemma num_mul_FI x z f :
  to_float (Int z) = inr f → num_mul (Float x) (Int z) = inr (Float (float_mul x f)).
Proof. intros H. unfold num_mul. by rewrite H. Qed.

Lemma num_add_FI x z f :
  to_float (Int z) = inr f → num_add (Float x) (Int z) = inr (Float (float_add x f)).
Proof. intros H. unfold num_add. by rewrite H. Qed.

Lemma num_sub_FI x z f :
  to_float (Int z) = inr f → num_sub (Float x) (Int z) = inr (Float (float_sub x f)).
Proof. intros H. unfold num_sub. by rewrite H. Qed.

Lemma num_sub_FF x y : num_sub (Float x) (Float y) = inr (Float (float_sub x y)).
Proof. reflexivity. Qed.

(** The product of two floats that are not negative, below a bound. *)
Lemma float_mul_between a b C :
  0 <= a → 0 <= b → is_binary64 C → a * b <= C →
  ∃ r, float_mul (FFin a) (FFin b) = FFin r ∧ float_q r ∧ 0 <= r ∧ r <= C.
Proof.
  intros Ha Hb HC Hab. cbn [float_mul].
  destruct (is_binary64_between 0 C (a * b) ltac:(binary64) HC) as (r & Hr & Hr1 & Hr2);
    [nra|done|].
  exists r. split; [done|]. split; [by eapply float_q_round|done].
Qed.

End Exact.

(** X19.  When every testcase passes and neither bonus applies, the
    final score is the points of the question and there is no penalty:
    [calculate_score] returns, and the base score and the final score are
    the points exactly. *)
Theorem full_marks_without_bonus total points et at_ mu am :
  (0 < total)%Z → (0 ≤ points ≤ 2 ^ 53)%Z →
  num_gt et (Int 0) && num_lt et at_ = false →
  num_gt mu (Int 0) && num_lt mu am = false →
  ∃ r,
    calculate_score total total points et at_ mu am = inr r
    ∧ base_score r = Float (FFin (Qred (inject_Z points)))
    ∧ time_bonus r = Int 0
    ∧ memory_bonus r = Int 0
    ∧ penalty r = Float (FFin 0)
    ∧ ∃ f, value (final_score r) = FFin f ∧ (f == inject_Z points)%Q.
Proof.
  intros Ht Hpts Htime Hmemory.
  set (p := Qred (inject_Z points)).
  assert (Hp : float_q p) by (apply float_q_Z; lia).
  assert (Hpq : (p == inject_Z points)%Q) by apply Qred_correct.
  assert (Hp0 : (0 <= p)%Q).
  { rewrite Hpq. change 0%Q with (inject_Z 0). rewrite <- Zle_Qle. lia. }
  assert (Hp53 : (p <= 9007199254740992)%Q).
  { rewrite Hpq. change 9007199254740992%Q with (inject_Z (2 ^ 53)). rewrite <- Zle_Qle. lia. }
  assert (Hw : within 0 9007199254740992 (Float (FFin p))) by (by apply within_Float).
  unfold calculate_score. rewrite (proj2 (Z.eqb_neq total 0)) by lia.
  rewrite truediv_same by done. cbn [mbind E_bind].
  (* the pass rate in percent *)
  assert (H100 : num_mul (Float (FFin 1)) (Int 100) = inr (Float (FFin 100)))
    by (vm_compute; reflexivity).
  assert (Hpercent : py_round (Float (FFin 100)) 1 = inr (Float (FFin 100)))
    by (vm_compute; reflexivity).
  rewrite H100. step. rewrite Hpercent.
  (* the base score *)
  assert (Hbase : num_mul (Float (FFin 1)) (Int points) = inr (Float (FFin p))).
  { unfold num_mul. rewrite to_float_Z by lia. cbn [to_float mbind E_bind float_mul].
    rewrite (b64_round_float _ p); [done|done|]. fold p. ring. }
  rewrite Hbase. cbn [mbind E_bind].
  (* the bonuses *)
  rewrite literal_5_10.
  replace (num_ge (Float (FFin 1)) (Float (FFin (1 # 2)))) with true by reflexivity.
  replace (num_gt (Float (FFin 1)) (Float (FFin (1 # 2)))) with true by reflexivity.
  cbn [andb].
  assert (Hbonus : ∀ x y, num_gt x (Int 0) && num_lt x y = false →
            (if num_gt x (Int 0)
             then if num_lt x y
                  then num_mul (Float (FFin p)) (Float (float_literal (5 # 100)))
                  else mret (Int 0)
             else mret (Int 0)) = inr (Int 0)).
  { intros x y. by destruct (num_gt x (Int 0)), (num_lt x y). }
  rewrite (Hbonus et at_ Htime), (Hbonus mu am Hmemory). cbn [mbind E_bind].
  (* the penalty *)
  rewrite literal_10_100, literal_3_10, literal_11_10, !num_mul_FF.
  destruct (float_mul_between p (3602879701896397 # 36028797018963968) 9007199254740992)
    as (tenth & -> & _ & Htenth & _); [done|Qcompute|binary64|nra|].
  destruct (float_mul_between p (5404319552844595 # 18014398509481984) 9007199254740992)
    as (cap & -> & _ & Hcap & _); [done|Qcompute|binary64|nra|].
  step. rewrite Z.sub_diag, (num_mul_IF _ _ _ to_float_0).
  step. cbn [float_mul]. rewrite (b64_round_zero (0 * tenth)) by ring.
  assert (Hmin : py_min (Float (FFin 0)) (Float (FFin cap)) = Float (FFin 0)).
  { unfold py_min, num_lt. cbn [value float_lt]. unfold Qlt_bool.
    by rewrite (Qle_bool_true 0 cap). }
  rewrite Hmin. step.
  (* the final score *)
  rewrite (num_add_FI _ _ _ to_float_0). step. cbn [float_add].
  rewrite (b64_round_float (p + 0) p) by first [exact Hp | ring].
  rewrite (num_add_FI _ _ _ to_float_0). step. cbn [float_add].
  rewrite (b64_round_float (p + 0) p) by first [exact Hp | ring].
  rewrite num_sub_FF. step. cbn [float_sub].
  rewrite (b64_round_float (p - 0) p) by first [exact Hp | ring].
  rewrite (num_mul_IF _ _ _ (to_float_Z points ltac:(lia))). fold p.
  destruct (float_mul_between p (2476979795053773 # 2251799813685248) 18014398509481984)
    as (limit & Hlimit & _ & _ & _); [done|Qcompute|binary64|nra|].
  rewrite Hlimit. step.
  assert (Hle : (p <= limit)%Q).
  { cbn [float_mul] in Hlimit.
    assert (Hm : float_le (b64_round p) (b64_round (p * (2476979795053773 # 2251799813685248)))
                 = true) by (apply b64_round_mono; nra).
    rewrite Hp, Hlimit in Hm. by apply Qle_bool_iff. }
  assert (Hmin' : py_min (Float (FFin p)) (Float (FFin limit)) = Float (FFin p)).
  { unfold py_min, num_lt. cbn [value float_lt]. unfold Qlt_bool.
    by rewrite (Qle_bool_true p limit). }
  rewrite Hmin'.
  rewrite (py_round_integer p points 2 Hp Hpq). step.
  change (py_round (Int 0) 2) with (inr (B:=num) (A:=ArithmeticError) (Int 0)). step.
  rewrite py_round_zero. step.
  unfold py_max, num_gt, num_lt. cbn [value float_lt].
  destruct (Qlt_bool (inject_Z 0) p) eqn:Hpos.
  - rewrite (py_round_integer p points 2 Hp Hpq). step.
    eexists. split; [reflexivity|]. cbn [base_score time_bonus memory_bonus penalty final_score].
    do 4 (split; [reflexivity|]). exists p. split; [reflexivity|exact Hpq].
  - change (py_round (Int 0) 2) with (inr (B:=num) (A:=ArithmeticError) (Int 0)). step.
    eexists. split; [reflexivity|]. cbn [base_score time_bonus memory_bonus penalty final_score].
    do 4 (split; [reflexivity|]). exists (inject_Z 0). split; [reflexivity|].
    unfold Qlt_bool in Hpos. apply negb_false_iff, Qle_bool_iff in Hpos.
    change (inject_Z 0) with 0%Q in *. lra.
Qed.

Lemma full_marks_without_bonus_witness :
  ∃ r,
    calculate_score 8 8 100 (Float (FFin 250)) (Int 100) (Int 0) (Int 50) = inr r
    ∧ base_score r = Float (FFin 100)
    ∧ penalty r = Float (FFin 0)
    ∧ ∃ f, value (final_score r) = FFin f ∧ (f == 100)%Q.
Proof.
  destruct (full_marks_without_bonus 8 100 (Float (FFin 250)) (Int 100) (Int 0) (Int 50))
    as (r & Hr & Hbase & _ & _ & Hpen & Hfinal); try reflexivity; try lia.
  exists r. repeat split; assumption.
Defined.

Lemma float_le_lt x y : float_le x y = true → float_lt y x = false.
Proof.
  destruct x as [a|s|], y as [b|t|]; cbn; try done;
    repeat match goal with b : bool |- _ => destruct b end; try done.
  unfold Qlt_bool. by intros ->.
Qed.

Lemma to_float_finite z f :
  to_float (Int z) = inr f → ∃ q, f = FFin q ∧ float_q q.
Proof.
  cbn [to_float]. pose proof (b64_round_not_nan (inject_Z z)) as Hnan.
  destruct (b64_round (inject_Z z)) as [q|s|] eqn:Hq; [|discriminate|done].
  intros [= <-]. exists q. split; [done|]. by eapply float_q_round.
Qed.

(** With fewer than half of [total] testcases passed, and [total] at most
    [2^53], the pass rate is a float below [0.5]. *)
Lemma pass_rate_below_half passed total pass_rate :
  (0 ≤ passed)%Z → (2 * passed < total)%Z → (total ≤ 2 ^ 53)%Z →
  truediv passed total = inr pass_rate →
  ∃ q, pass_rate = Float (FFin q)
       ∧ (0 <= q)%Q ∧ (q <= 9007199254740991 # 18014398509481984)%Q.
Proof.
  intros Hp Hhalf Ht H. unfold truediv in H.
  rewrite (proj2 (Z.eqb_neq total 0)) in H by lia.
  assert (Ht' : (0 < inject_Z total)%Q)
    by (change 0%Q with (inject_Z 0); rewrite <- Zlt_Qlt; lia).
  assert (H0 : (0 <= inject_Z passed / inject_Z total)%Q).
  { apply Qle_shift_div_l; [done|]. rewrite Qmult_0_l.
    change 0%Q with (inject_Z 0). rewrite <- Zle_Qle. lia. }
  assert (H1 : (inject_Z passed / inject_Z total
                <= 9007199254740991 # 18014398509481984)%Q).
  { apply Qle_shift_div_r; [done|]. unfold Qle, Qmult, inject_Z. cbn [Qnum Qden].
    change (2 ^ 53)%Z with 9007199254740992%Z in Ht. lia. }
  destruct (is_binary64_between 0 (9007199254740991 # 18014398509481984) _
              ltac:(binary64) ltac:(binary64) H0 H1) as (q & Hq & Hq0 & Hq1).
  rewrite Hq in H. injection H as <-. by exists q.
Qed.

(** X20.  When fewer than half of the testcases pass, there is neither
    a bonus nor a penalty, and the final score is the base score: the three
    fields are the [int] [0] and the two scores have the same value. *)
Theorem below_half_the_score_is_the_base_score passed total points et at_ mu am r :
  (0 ≤ passed)%Z → (2 * passed < total)%Z → (total ≤ 2 ^ 53)%Z → (0 ≤ points)%Z →
  calculate_score passed total points et at_ mu am = inr r →
  time_bonus r = Int 0
  ∧ memory_bonus r = Int 0
  ∧ penalty r = Int 0
  ∧ value (final_score r) = value (base_score r).
Proof.
  intros Hp Hhalf Ht Hpts H.
  destruct (calculate_score_inv _ _ _ _ _ _ _ _ H ltac:(lia))
    as (pr & base & tb & mb & pen & fs & cap
        & H1 & H2 & H3 & H4 & H5 & H6 & H7 & H8 & H9 & H10 & H11 & H12).
  destruct (pass_rate_below_half _ _ _ Hp Hhalf Ht H1) as (q & -> & Hq0 & Hq1).
  assert (Hq2 : (q < 1 # 2)%Q) by (eapply Qle_lt_trans; [exact Hq1|reflexivity]).
  (* neither bonus nor penalty *)
  rewrite literal_5_10 in H3, H4, H5.
  assert (Hge : num_ge (Float (FFin q)) (Float (FFin (1 # 2))) = false).
  { unfold num_ge, num_le. cbn [value float_le]. by apply Qle_bool_false. }
  assert (Hgt : num_gt (Float (FFin q)) (Float (FFin (1 # 2))) = false).
  { unfold num_gt, num_lt. cbn [value float_lt]. unfold Qlt_bool.
    rewrite Qle_bool_true; [done|]. by apply Qlt_le_weak. }
  rewrite Hge in H3, H4. rewrite Hgt in H5. cbn [andb] in H3, H4.
  injection H3 as <-. injection H4 as <-. injection H5 as <-.
  cbn [py_round] in H9, H10, H11.
  injection H9 as H9. injection H10 as H10. injection H11 as H11.
  rewrite <- H9, <- H10, <- H11. do 3 (split; [reflexivity|]).
  (* the base score *)
  unfold num_mul in H2. apply E_bind_inv in H2 as (a & [= <-] & H2).
  apply E_bind_inv in H2 as (f & Hf & [= <-]).
  destruct (to_float_finite _ _ Hf) as (f' & -> & Hf').
  pose proof (to_float_nonneg _ _ Hpts Hf) as Hf0.
  cbn [float_le] in Hf0. apply Qle_bool_iff in Hf0.
  cbn [float_mul] in *.
  destruct (is_binary64_between 0 f' (q * f') ltac:(binary64) (float_q_is_binary64 _ Hf'))
    as (b & Hb & Hb0 & Hb1); [nra|nra|].
  pose proof (float_q_round _ _ Hb) as Hbq.
  (* the cap *)
  rewrite literal_11_10 in H7.
  rewrite (num_mul_IF _ _ _ Hf) in H7. injection H7 as <-. cbn [float_mul] in H12.
  assert (Hcap : float_le (b64_round (q * f'))
                   (b64_round (f' * (2476979795053773 # 2251799813685248))) = true).
  { apply b64_round_mono.
    assert ((1 <= 2476979795053773 # 2251799813685248)%Q) by Qcompute. nra. }
  rewrite Hb in Hcap, H6, H8.
  (* the sum *)
  rewrite (num_add_FI _ _ _ to_float_0) in H6. cbn [mbind E_bind mret E_ret] in H6. cbn [float_add] in H6.
  rewrite (b64_round_float (b + 0) b) in H6 by first [exact Hbq | ring].
  rewrite (num_add_FI _ _ _ to_float_0) in H6. cbn [mbind E_bind mret E_ret] in H6. cbn [float_add] in H6.
  rewrite (b64_round_float (b + 0) b) in H6 by first [exact Hbq | ring].
  rewrite (num_sub_FI _ _ _ to_float_0) in H6. cbn [float_sub] in H6.
  rewrite (b64_round_float (b - 0) b) in H6 by first [exact Hbq | ring].
  injection H6 as <-.
  assert (Hmin : py_min (Float (FFin b))
                   (Float (b64_round (f' * (2476979795053773 # 2251799813685248))))
                 = Float (FFin b)).
  { unfold py_min, num_lt. cbn [value]. by rewrite (float_le_lt _ _ Hcap). }
  rewrite Hmin in H12. unfold py_max, num_gt, num_lt in H12. cbn [value float_lt] in H12.
  destruct (Qlt_bool (inject_Z 0) b) eqn:Hpos.
  - congruence.
  - unfold Qlt_bool in Hpos. apply negb_false_iff, Qle_bool_iff in Hpos.
    change (inject_Z 0) with 0%Q in Hpos.
    assert (Hb' : b = 0%Q).
    { assert (Hz : b64_round b = FFin 0) by (apply b64_round_zero; lra).
      rewrite Hbq in Hz. by injection Hz. }
    subst b. rewrite py_round_zero in H8. cbn [py_round] in H12.
    injection H8 as <-. injection H12 as <-. reflexivity.
Qed.

Lemma below_half_the_score_is_the_base_score_witness :
  ∃ r, calculate_score 2 5 100 (Float (FFin 30)) (Int 100) (Float (FFin 6)) (Int 50) = inr r
       ∧ time_bonus r = Int 0
       ∧ memory_bonus r = Int 0
       ∧ penalty r = Int 0
       ∧ value (final_score r) = value (base_score r).
Proof.
  destruct (calculate_score 2 5 100 (Float (FFin 30)) (Int 100) (Float (FFin 6)) (Int 50))
    as [e|r] eqn:H; [exfalso; vm_compute in H; discriminate|].
  exists r. split; [reflexivity|].
  apply (below_half_the_score_is_the_base_score 2 5 100
           (Float (FFin 30)) (Int 100) (Float (FFin 6)) (Int 50) r);
    [lia|lia|lia|lia|exact H].
Defined.
